(** * gta: the dependency graph engine and the result assembler

    A shallow embedding of [graph.go] (BuildDependencyGraph, the four
    edge queries, AffectedPackages), of [gta.go] (the path normalisation,
    the JSON mapping, ChangedPackages) and of the helpers of the command in
    [cmd/gta/main.go], together with the properties stated about them.

    Conventions of the embedding.
    - A Go [string] is a byte sequence: [string] of the Standard Library.
    - A Go [map[string]T] is a [gmap string T].  Ranging over a Go map visits
      the entries in an unspecified order; the embedding ranges in the order
      of [map_to_list], and every property below is insensitive to it.
    - A [*Package] is modelled by the ID of the node it points to.  Nodes are
      allocated in one place only ([addPackage]), right after the check that
      the ID is not yet in [packageMap], and are stored under that ID at once,
      so IDs and node addresses are in bijection and [packageMap] doubles as
      the store the pointers are resolved in.  Edge maps are updated in the
      store, so every holder of a pointer sees the update.
    - [packages.Load] and [filepath.Dir] belong to libraries outside the
      repository: the first is represented by its result, the second is a
      parameter of the development; so are the JSON codec, [strings.TrimSpace]
      and [filepath.IsAbs] where they are used. *)

From Stdlib Require Import String Ascii List Sorting.Sorted.
From stdpp Require Import base option list strings gmap fin_maps sorting relations.

Local Set Warnings "-register-all".


(** ** Errors and outcomes *)

Inductive error : Type :=
  | ErrUnknownPackage
  | ErrNoDiffer
  | ErrExternal (msg : string)
  | ErrWrap (context : string) (cause : error).

(** What a call can end with: a value, an error value, a nil dereference, or
    the step budget of the embedding being used up. *)
Inductive outcome (A : Type) : Type :=
  | Ok (a : A)
  | Err (e : error)
  | Panic
  | OutOfFuel.
Arguments Ok {A} a.
Arguments Err {A} e.
Arguments Panic {A}.
Arguments OutOfFuel {A}.

Definition bind {A B} (m : outcome A) (k : A → outcome B) : outcome B :=
  match m with
  | Ok a => k a
  | Err e => Err e
  | Panic => Panic
  | OutOfFuel => OutOfFuel
  end.

Notation "x <- m ;; k" := (bind m (fun x => k))
  (at level 100, m at next level, right associativity).

(** A [for ... range] loop whose body may return early with an error. *)
Fixpoint forRange {A S} (body : S → A → outcome S) (l : list A) (s : S)
  : outcome S :=
  match l with
  | [] => Ok s
  | x :: l' => s' <- body s x ;; forRange body l' s'
  end.

(** Two outcomes of the same kind whose values, if any, are related. *)
Definition outcome_rel {A B} (R : A → B → Prop) (x : outcome A) (y : outcome B)
  : Prop :=
  match x, y with
  | Ok a, Ok b => R a b
  | Err e, Err e' => e = e'
  | Panic, Panic => True
  | OutOfFuel, OutOfFuel => True
  | _, _ => False
  end.

(** An outcome that is neither an error value nor a nil dereference. *)
Definition safe {A} (x : outcome A) : Prop :=
  match x with
  | Ok _ | OutOfFuel => True
  | Err _ | Panic => False
  end.

(** ** Data model *)

Abbreviation ptr := string (only parsing).

(** [packages.Package], restricted to the fields the engine reads.  [Imports]
    is a Go map from import path to package; only its values are ranged
    over, so it is kept as the list of those values. *)
Inductive packages_Package : Type := mkPackagesPackage {
  ID : string;
  PkgPath : string;
  GoFiles : list string;
  CompiledGoFiles : list string;
  IgnoredFiles : list string;
  OtherFiles : list string;
  Imports : list packages_Package
}.

(** A node of the graph: the embedded package and the two edge maps. *)
Record Package : Type := mkPackage {
  embedded :> packages_Package;
  Dependencies : gmap string ptr;
  Dependents : gmap string ptr
}.

Record DependencyGraph : Type := mkDependencyGraph {
  packageMap : gmap string Package;
  packagePathMap : gmap string (list ptr);
  fileMap : gmap string ptr;
  dirMap : gmap string (gmap string ptr)
}.

Definition emptyGraph : DependencyGraph :=
  mkDependencyGraph ∅ ∅ ∅ ∅.

(** Resolving a pointer; a pointer to nothing is a nil dereference. *)
Definition deref (g : DependencyGraph) (p : ptr) : outcome Package :=
  match packageMap g !! p with
  | Some P => Ok P
  | None => Panic
  end.

(** The values of a map, in ranging order. *)
Definition values {V} (m : gmap string V) : list V :=
  (map_to_list m).*2.

(** ** Well-formed graphs

    What [BuildDependencyGraph] establishes: every stored pointer leads to a
    registered node, every map keyed by ID is keyed by the ID of the node the
    value points to, every node is listed under its import path, and the two
    edge maps mirror each other. *)

Definition registered (g : DependencyGraph) (p : ptr) : Prop :=
  is_Some (packageMap g !! p).

Definition idmap (m : gmap string ptr) : Prop :=
  ∀ k v, m !! k = Some v → k = v.

Record wf_graph (g : DependencyGraph) : Prop := {
  wf_ID : ∀ id (P : Package), packageMap g !! id = Some P → ID P = id;
  wf_Dependents : ∀ id P k q,
    packageMap g !! id = Some P → Dependents P !! k = Some q →
    k = q ∧ registered g q;
  wf_Dependencies : ∀ id P k q,
    packageMap g !! id = Some P → Dependencies P !! k = Some q →
    k = q ∧ registered g q;
  wf_path : ∀ id (P : Package),
    packageMap g !! id = Some P →
    ∃ l, packagePathMap g !! PkgPath P = Some l ∧ id ∈ l;
  wf_variants : ∀ path l id,
    packagePathMap g !! path = Some l → id ∈ l →
    ∃ P : Package, packageMap g !! id = Some P ∧ PkgPath P = path;
  wf_nonempty : ∀ path l, packagePathMap g !! path = Some l → l ≠ [];
  wf_file : ∀ f id, fileMap g !! f = Some id → registered g id;
  wf_dir : ∀ d dm k id,
    dirMap g !! d = Some dm → dm !! k = Some id → k = id ∧ registered g id;
  wf_sym : ∀ p q P Q,
    packageMap g !! p = Some P → packageMap g !! q = Some Q →
    (Dependencies P !! q = Some q ↔ Dependents Q !! p = Some p)
}.

(** A map of units: keyed by the ID of the value, all values registered. *)
Definition units (g : DependencyGraph) (m : gmap string ptr) : Prop :=
  idmap m ∧ ∀ v, v ∈ dom m → registered g v.

(** [v] is a dependent of [u]: the node of [u] stores a pointer to [v] in
    its [Dependents] map, that is, [v] imports [u]. *)
Definition is_dependent (g : DependencyGraph) (u v : ptr) : Prop :=
  ∃ (U : Package) k, packageMap g !! u = Some U ∧ Dependents U !! k = Some v.

(** The acyclicity precondition, on the relation the traversal follows: it
    recurses on the import path of each dependent, so a rank on import paths
    has to decrease along every dependent edge. *)
Definition ranked (g : DependencyGraph) (rank : string → nat) : Prop :=
  ∀ u (U : Package) k v (V : Package),
    packageMap g !! u = Some U → Dependents U !! k = Some v →
    packageMap g !! v = Some V → rank (PkgPath V) < rank (PkgPath U).

Definition acyclic (g : DependencyGraph) : Prop := ∃ rank, ranked g rank.

(** The same condition as a test that can be run on a concrete graph. *)
Definition rankedb (g : DependencyGraph) (rank : string → nat) : bool :=
  forallb (λ '(_, U),
    forallb (λ v,
      match packageMap g !! v with
      | Some V => rank (PkgPath (embedded V)) <? rank (PkgPath (embedded U))
      | None => true
      end) (values (Dependents U)))
    (map_to_list (packageMap g)).

Section Graph.

(** [filepath.Dir]. *)
Variable filepath_Dir : string → string.

(** ** BuildDependencyGraph *)

Definition allFiles (pkg : packages_Package) : list string :=
  GoFiles pkg ++ CompiledGoFiles pkg ++ IgnoredFiles pkg ++ OtherFiles pkg.

(** One iteration of the inner file loop of [addPackage]. *)
Definition registerFile (new : ptr) (dg : DependencyGraph) (f : string)
  : DependencyGraph :=
  let dm := default ∅ (dirMap dg !! filepath_Dir f) in
  {| packageMap := packageMap dg;
     packagePathMap := packagePathMap dg;
     fileMap := <[f := new]> (fileMap dg);
     dirMap := <[filepath_Dir f := <[new := new]> dm]> (dirMap dg) |}.

(** Allocation and registration of a fresh node, up to the import loop. *)
Definition registerPackage (pkg : packages_Package) (dg : DependencyGraph)
  : DependencyGraph :=
  let newPackage := mkPackage pkg ∅ ∅ in
  let dg1 :=
    {| packageMap := <[ID pkg := newPackage]> (packageMap dg);
       packagePathMap :=
         <[PkgPath pkg := default [] (packagePathMap dg !! PkgPath pkg) ++ [ID pkg]]>
           (packagePathMap dg);
       fileMap := fileMap dg;
       dirMap := dirMap dg |} in
  foldl (registerFile (ID pkg)) dg1 (allFiles pkg).

Definition addDependent (k : string) (v : ptr) (P : Package) : Package :=
  mkPackage (embedded P) (Dependencies P) (<[k := v]> (Dependents P)).

Definition addDependency (k : string) (v : ptr) (P : Package) : Package :=
  mkPackage (embedded P) (<[k := v]> (Dependencies P)) (Dependents P).

(** The two assignments of the import loop:
    [dependency.Dependents[pkg.ID] = newPackage] and
    [newPackage.Dependencies[importedPkg.ID] = dependency]. *)
Definition link (new : ptr) (importedID : string) (dependency : ptr)
    (dg : DependencyGraph) : DependencyGraph :=
  let pm1 := alter (addDependent new new) dependency (packageMap dg) in
  let pm2 := alter (addDependency importedID dependency) new pm1 in
  {| packageMap := pm2;
     packagePathMap := packagePathMap dg;
     fileMap := fileMap dg;
     dirMap := dirMap dg |}.

(** The closure [addPackage].  It returns the graph after the call and the
    pointer to the node of [pkg]; its error result is nil on every path of
    the source (the only statement producing one is commented out there). *)
Fixpoint addPackage (pkg : packages_Package) (dg : DependencyGraph)
  : DependencyGraph * ptr :=
  match packageMap dg !! ID pkg with
  | Some _ => (dg, ID pkg)
  | None =>
    let importLoop :=
      fix importLoop (imports : list packages_Package) (dg : DependencyGraph)
        : DependencyGraph :=
        match imports with
        | [] => dg
        | importedPkg :: rest =>
          let '(dg', dependency) := addPackage importedPkg dg in
          importLoop rest (link (ID pkg) (ID importedPkg) dependency dg')
        end in
    (importLoop (Imports pkg) (registerPackage pkg dg), ID pkg)
  end.

(** The part of [BuildDependencyGraph] after the load. *)
Definition buildGraph (loadedPackages : list packages_Package)
  : DependencyGraph :=
  foldl (fun dg pkg => fst (addPackage pkg dg)) emptyGraph loadedPackages.

(** [BuildDependencyGraph], as a function of what [packages.Load] returned. *)
Definition BuildDependencyGraph
    (loaded : error + list packages_Package) : outcome DependencyGraph :=
  match loaded with
  | inl err => Err (ErrWrap "loading packages" err)
  | inr loadedPackages => Ok (buildGraph loadedPackages)
  end.

(** The import loop of [addPackage] as a function of its own, and the node
    stored under [x] after its two assignments. *)
Fixpoint importLoop (new : ptr) (imports : list packages_Package)
    (dg : DependencyGraph) : DependencyGraph :=
  match imports with
  | [] => dg
  | importedPkg :: rest =>
    let '(dg', dependency) := addPackage importedPkg dg in
    importLoop new rest (link new (ID importedPkg) dependency dg')
  end.

Definition linked (new dependency x : ptr) (P : Package) : Package :=
  mkPackage (embedded P)
    (if decide (x = new) then <[dependency := dependency]> (Dependencies P)
     else Dependencies P)
    (if decide (x = dependency) then <[new := new]> (Dependents P)
     else Dependents P).

(** What one call of [addPackage] guarantees. *)
Definition addPackage_post (pkg : packages_Package) : Prop :=
  ∀ dg, wf_graph dg →
    wf_graph (addPackage pkg dg).1 ∧
    (addPackage pkg dg).2 = ID pkg ∧
    registered (addPackage pkg dg).1 (ID pkg) ∧
    (∀ p, registered dg p → registered (addPackage pkg dg).1 p).

(** ** Queries *)

(** [dependents] and [dependencies] share one shape and differ in the edge
    map they range over.  The step budget is consumed by the recursive call
    only, so that the non-recursive mode and the unknown-path exit do not
    depend on it. *)
Fixpoint dependents (fuel : nat) (g : DependencyGraph) (pkgPath : string)
    (recursive : bool) : outcome (gmap string ptr) :=
  match packagePathMap g !! pkgPath with
  | None => Err ErrUnknownPackage
  | Some pkgs =>
    forRange (fun acc p =>
      pkg <- deref g p ;;
      forRange (fun acc dp =>
        depPkg <- deref g dp ;;
        let acc := <[ID depPkg := dp]> acc in
        if negb recursive then Ok acc else
        match fuel with
        | O => OutOfFuel
        | S fuel' =>
          deps <- dependents fuel' g (PkgPath depPkg) true ;;
          Ok (deps ∪ acc)
        end) (values (Dependents pkg)) acc) pkgs ∅
  end.

Fixpoint dependencies (fuel : nat) (g : DependencyGraph) (pkgPath : string)
    (recursive : bool) : outcome (gmap string ptr) :=
  match packagePathMap g !! pkgPath with
  | None => Err ErrUnknownPackage
  | Some pkgs =>
    forRange (fun acc p =>
      pkg <- deref g p ;;
      forRange (fun acc dp =>
        depPkg <- deref g dp ;;
        let acc := <[ID depPkg := dp]> acc in
        if negb recursive then Ok acc else
        match fuel with
        | O => OutOfFuel
        | S fuel' =>
          deps <- dependencies fuel' g (PkgPath depPkg) true ;;
          Ok (deps ∪ acc)
        end) (values (Dependencies pkg)) acc) pkgs ∅
  end.

(** The body of the inner loop of [dependents], named for the proofs. *)
Definition visitDependent (fuel : nat) (g : DependencyGraph) (recursive : bool)
    (acc : gmap string ptr) (dp : ptr) : outcome (gmap string ptr) :=
  depPkg <- deref g dp ;;
  let acc := <[ID depPkg := dp]> acc in
  if negb recursive then Ok acc else
  match fuel with
  | O => OutOfFuel
  | S fuel' =>
    deps <- dependents fuel' g (PkgPath depPkg) true ;;
    Ok (deps ∪ acc)
  end.

Definition packageMapToArray (pkgMap : gmap string ptr) : list ptr :=
  values pkgMap.

Definition Dependencies_ (g : DependencyGraph) (pkgPath : string)
  : outcome (list ptr) :=
  deps <- dependencies 0 g pkgPath false ;; Ok (packageMapToArray deps).

Definition TransitiveDependencies (fuel : nat) (g : DependencyGraph)
    (pkgPath : string) : outcome (list ptr) :=
  deps <- dependencies fuel g pkgPath true ;; Ok (packageMapToArray deps).

Definition Dependents_ (g : DependencyGraph) (pkgPath : string)
  : outcome (list ptr) :=
  deps <- dependents 0 g pkgPath false ;; Ok (packageMapToArray deps).

Definition TransitiveDependents (fuel : nat) (g : DependencyGraph)
    (pkgPath : string) : outcome (list ptr) :=
  deps <- dependents fuel g pkgPath true ;; Ok (packageMapToArray deps).

(** ** AffectedPackages *)

(** One iteration of the first loop: the exact owner, else the units of the
    directory, else nothing. *)
Definition markFile (g : DependencyGraph) (directlyAffected : gmap string ptr)
    (f : string) : gmap string ptr :=
  match fileMap g !! f with
  | Some pkg => <[pkg := pkg]> directlyAffected
  | None =>
    match dirMap g !! filepath_Dir f with
    | Some dirPkgs => dirPkgs ∪ directlyAffected
    | None => directlyAffected
    end
  end.

Definition directlyAffected (g : DependencyGraph) (files : list string)
  : gmap string ptr :=
  foldl (markFile g) ∅ files.

(** One iteration of the second loop, on the pair (direct, allAffected). *)
Definition closeOver (fuel : nat) (g : DependencyGraph)
    (st : list ptr * gmap string ptr) (entry : string * ptr)
  : outcome (list ptr * gmap string ptr) :=
  let '(direct, allAffected) := st in
  let '(id, p) := entry in
  pkg <- deref g p ;;
  deps <- dependents fuel g (PkgPath pkg) true ;;
  Ok (direct ++ [p], deps ∪ <[id := p]> allAffected).

Definition AffectedPackages (fuel : nat) (g : DependencyGraph)
    (files : list string) : outcome (list ptr * list ptr) :=
  st <- forRange (closeOver fuel g)
         (map_to_list (directlyAffected g files)) ([], ∅) ;;
  Ok (st.1, packageMapToArray st.2).

(** The units one changed file marks, in the words of the specification:
    the exact owner if the file index has one, else every unit registered
    under the containing directory, else none. *)
Definition affectedBy (g : DependencyGraph) (f : string) : gset string :=
  match fileMap g !! f with
  | Some owner => {[ owner ]}
  | None =>
    match dirMap g !! filepath_Dir f with
    | Some dirPkgs => dom dirPkgs
    | None => ∅
    end
  end.

(** ** Call traces

    The same traversals, additionally returning the import paths on which
    the traversal function was entered, in call order.  They are used to
    count how often a unit is expanded; [dependentsT_erase] and
    [AffectedPackagesT_erase] show that forgetting the trace gives back the
    functions above. *)

Fixpoint dependentsT (fuel : nat) (g : DependencyGraph) (pkgPath : string)
    (recursive : bool) : outcome (gmap string ptr * list string) :=
  match packagePathMap g !! pkgPath with
  | None => Err ErrUnknownPackage
  | Some pkgs =>
    forRange (fun st p =>
      pkg <- deref g p ;;
      forRange (fun st dp =>
        depPkg <- deref g dp ;;
        let acc := <[ID depPkg := dp]> (st.1) in
        if negb recursive then Ok (acc, st.2) else
        match fuel with
        | O => OutOfFuel
        | S fuel' =>
          r <- dependentsT fuel' g (PkgPath depPkg) true ;;
          Ok (r.1 ∪ acc, st.2 ++ r.2)
        end) (values (Dependents pkg)) st) pkgs (∅, [pkgPath])
  end.

Fixpoint dependenciesT (fuel : nat) (g : DependencyGraph) (pkgPath : string)
    (recursive : bool) : outcome (gmap string ptr * list string) :=
  match packagePathMap g !! pkgPath with
  | None => Err ErrUnknownPackage
  | Some pkgs =>
    forRange (fun st p =>
      pkg <- deref g p ;;
      forRange (fun st dp =>
        depPkg <- deref g dp ;;
        let acc := <[ID depPkg := dp]> (st.1) in
        if negb recursive then Ok (acc, st.2) else
        match fuel with
        | O => OutOfFuel
        | S fuel' =>
          r <- dependenciesT fuel' g (PkgPath depPkg) true ;;
          Ok (r.1 ∪ acc, st.2 ++ r.2)
        end) (values (Dependencies pkg)) st) pkgs (∅, [pkgPath])
  end.

Definition closeOverT (fuel : nat) (g : DependencyGraph)
    (st : list ptr * gmap string ptr * list string) (entry : string * ptr)
  : outcome (list ptr * gmap string ptr * list string) :=
  let '(direct, allAffected, trace) := st in
  let '(id, p) := entry in
  pkg <- deref g p ;;
  r <- dependentsT fuel g (PkgPath pkg) true ;;
  Ok (direct ++ [p], r.1 ∪ <[id := p]> allAffected, trace ++ r.2).

Definition AffectedPackagesT (fuel : nat) (g : DependencyGraph)
    (files : list string) : outcome (list ptr * list ptr * list string) :=
  st <- forRange (closeOverT fuel g)
         (map_to_list (directlyAffected g files)) ([], ∅, []) ;;
  Ok (st.1.1, packageMapToArray st.1.2, st.2).

End Graph.

(** ** What a built graph holds

    [p] imports [q]: the package of the unit [p] lists a package of ID [q]
    among its imports. *)
Definition imports_unit (g : DependencyGraph) (p q : ptr) : Prop :=
  ∃ (P : Package) imp, packageMap g !! p = Some P ∧ imp ∈ Imports P ∧ ID imp = q.

(** A later state of the graph under construction: every node is still
    there, with the same package and with the edges it had. *)
Definition extends (dg dg' : DependencyGraph) : Prop :=
  ∀ id (P : Package), packageMap dg !! id = Some P →
    ∃ P' : Package, packageMap dg' !! id = Some P' ∧
      embedded P' = embedded P ∧
      (∀ k, Dependencies P !! k = Some k → Dependencies P' !! k = Some k) ∧
      (∀ k, Dependents P !! k = Some k → Dependents P' !! k = Some k).

(** The edges of every node are imports of its package, and the nodes whose
    import loop has ended ([open] holds the others) have all of them. *)
Record edges_inv (open : gset string) (g : DependencyGraph) : Prop := {
  ei_sound : ∀ id (P : Package) k q,
    packageMap g !! id = Some P → Dependencies P !! k = Some q →
    ∃ imp, imp ∈ Imports P ∧ ID imp = k;
  ei_complete : ∀ id (P : Package) imp,
    packageMap g !! id = Some P → id ∉ open → imp ∈ Imports P →
    Dependencies P !! ID imp = Some (ID imp)
}.

(** The two file indexes against the files of the registered packages. *)
Record files_inv (Dir : string → string) (g : DependencyGraph) : Prop := {
  fi_owner : ∀ f owner, fileMap g !! f = Some owner →
    ∃ O : Package, packageMap g !! owner = Some O ∧ f ∈ allFiles O;
  fi_dir : ∀ d dm k id, dirMap g !! d = Some dm → dm !! k = Some id →
    ∃ (P : Package) f, packageMap g !! id = Some P ∧ f ∈ allFiles P ∧ Dir f = d;
  fi_indexed : ∀ id (P : Package) f,
    packageMap g !! id = Some P → f ∈ allFiles P →
    is_Some (fileMap g !! f) ∧
    ∃ dm, dirMap g !! Dir f = Some dm ∧ dm !! id = Some id
}.

(** What one call of [addPackage] keeps. *)
Definition addPackage_complete (Dir : string → string) (pkg : packages_Package)
  : Prop :=
  ∀ open dg, wf_graph dg → edges_inv open dg → files_inv Dir dg →
    edges_inv open (addPackage Dir pkg dg).1 ∧
    files_inv Dir (addPackage Dir pkg dg).1 ∧
    extends dg (addPackage Dir pkg dg).1.

(** No unit is listed twice under an import path. *)
Definition paths_nodup (g : DependencyGraph) : Prop :=
  ∀ path l, packagePathMap g !! path = Some l → NoDup l.

Definition addPackage_nodup (Dir : string → string) (pkg : packages_Package)
  : Prop :=
  ∀ dg, wf_graph dg → paths_nodup dg → paths_nodup (addPackage Dir pkg dg).1.

(** The precondition on units: a rank on unit IDs decreases along every
    dependent edge. *)
Definition unit_ranked (g : DependencyGraph) (rank : string → nat) : Prop :=
  ∀ u (U : Package) k v,
    packageMap g !! u = Some U → Dependents U !! k = Some v → rank v < rank u.

Definition unit_acyclic (g : DependencyGraph) : Prop := ∃ rank, unit_ranked g rank.

Definition unit_rankedb (g : DependencyGraph) (rank : string → nat) : bool :=
  forallb (λ '(u, U), forallb (λ v, rank v <? rank u) (values (Dependents U)))
    (map_to_list (packageMap g)).

(** ** The relations the traversals follow

    The traversals recurse on the import path of a unit, not on the unit:
    all units registered under one path (a package and its test variants)
    are expanded together.  [path_dependent g u v]: [v] is a dependent of
    some unit with the import path of [u]. *)
Definition same_path (g : DependencyGraph) (u u' : ptr) : Prop :=
  ∃ U U' : Package,
    packageMap g !! u = Some U ∧ packageMap g !! u' = Some U' ∧
    PkgPath U = PkgPath U'.

Definition path_dependent (g : DependencyGraph) (u v : ptr) : Prop :=
  ∃ u', same_path g u u' ∧ is_dependent g u' v.

Definition is_dependency (g : DependencyGraph) (u v : ptr) : Prop :=
  ∃ (U : Package) k, packageMap g !! u = Some U ∧ Dependencies U !! k = Some v.

Definition path_dependency (g : DependencyGraph) (u v : ptr) : Prop :=
  ∃ u', same_path g u u' ∧ is_dependency g u' v.

(** The graph with every edge reversed: the dependencies of a unit in a
    graph are its dependents in the reversed graph. *)
Definition transposePackage (P : Package) : Package :=
  mkPackage (embedded P) (Dependents P) (Dependencies P).

Definition transpose (g : DependencyGraph) : DependencyGraph :=
  {| packageMap := transposePackage <$> packageMap g;
     packagePathMap := packagePathMap g;
     fileMap := fileMap g;
     dirMap := dirMap g |}.

(** The same on import paths: some unit with the path [b] is a dependent
    of some unit with the path [a]. *)
Definition path_edge (g : DependencyGraph) (a b : string) : Prop :=
  ∃ u v (U V : Package),
    packageMap g !! u = Some U ∧ packageMap g !! v = Some V ∧
    PkgPath U = a ∧ PkgPath V = b ∧ Dependents U !! v = Some v.

(** The import paths of a list of units of the graph. *)
Definition pathsOf (g : DependencyGraph) (l : list ptr) : gset string :=
  list_to_set (omap (λ p, (λ P : Package, PkgPath P) <$> packageMap g !! p) l).

(** ** The closure on unit-level DAGs

    What holds of a call that returns a closed result, and the same asked
    of every graph that was built and is acyclic on units. *)
Definition returns_closed (Dir : string → string) (g : DependencyGraph)
    (files : list string) : Prop :=
  ∃ fuel direct transitive,
    AffectedPackages Dir fuel g files = Ok (direct, transitive) ∧
    ∀ u v, u ∈ direct → rtc (is_dependent g) u v → v ∈ transitive.

Definition sound_on_unit_DAGs (Dir : string → string) : Prop :=
  ∀ loaded g files,
    BuildDependencyGraph Dir loaded = Ok g → unit_acyclic g →
    returns_closed Dir g files.

(** ** Counting expansions

    The dependents, respectively dependencies, that one call of the
    traversal meets: those of every variant registered under the path, in
    ranging order. *)
Definition dependentsOf (g : DependencyGraph) (pkgs : list ptr) : list ptr :=
  pkgs ≫= λ p,
    match packageMap g !! p with
    | Some P => values (Dependents P)
    | None => []
    end.

Definition dependenciesOf (g : DependencyGraph) (pkgs : list ptr) : list ptr :=
  pkgs ≫= λ p,
    match packageMap g !! p with
    | Some P => values (Dependencies P)
    | None => []
    end.

(** What memoising on the unit ID would give: no import path is expanded
    twice in one transitive query, so the number of expansions is at most
    the number of units. *)
Definition expands_once (g : DependencyGraph) : Prop :=
  ∀ fuel pkgPath m trace,
    dependentsT fuel g pkgPath true = Ok (m, trace) →
    NoDup trace ∧ length trace ≤ size (packageMap g).

(** What memoising across the batch of one AffectedPackages call would
    give: no import path is expanded twice in one call. *)
Definition batch_expands_once (Dir : string → string) (g : DependencyGraph)
  : Prop :=
  ∀ fuel files direct transitive trace,
    AffectedPackagesT Dir fuel g files = Ok (direct, transitive, trace) →
    NoDup trace.

(** ** Example graphs

    A directory function for the examples: the part of a path before its
    last separator, ["."] when there is none.  On clean, slash-separated
    paths this is what [filepath.Dir] returns. *)
Fixpoint beforeLastSlash (s : string) : option string :=
  match s with
  | EmptyString => None
  | String c rest =>
    match beforeLastSlash rest with
    | Some d => Some (String c d)
    | None => if Ascii.eqb c "/" then Some EmptyString else None
    end
  end.

Definition dirname (s : string) : string :=
  match beforeLastSlash s with
  | Some EmptyString => "/"
  | Some d => d
  | None => "."
  end.

Definition unit_ (id path : string) (files : list string)
    (imports : list packages_Package) : packages_Package :=
  mkPackagesPackage id path files [] [] [] imports.

(** A imports B, B imports C. *)
Definition chainC : packages_Package := unit_ "C" "c" ["c/c.go"] [].
Definition chainB : packages_Package := unit_ "B" "b" ["b/b.go"] [chainC].
Definition chainA : packages_Package := unit_ "A" "a" ["a/a.go"] [chainB].
Definition chainGraph : DependencyGraph :=
  buildGraph dirname [chainA; chainB; chainC].

(** A and B both import D; C imports both A and B. *)
Definition diamondD : packages_Package := unit_ "D" "d" ["d/d.go"] [].
Definition diamondA : packages_Package := unit_ "A" "a" ["a/a.go"] [diamondD].
Definition diamondB : packages_Package := unit_ "B" "b" ["b/b.go"] [diamondD].
Definition diamondC : packages_Package :=
  unit_ "C" "c" ["c/c.go"] [diamondA; diamondB].
Definition diamondGraph : DependencyGraph :=
  buildGraph dirname [diamondC; diamondA; diamondB; diamondD].

(** Two units under one import path, the first importing the second, and a
    rank on unit IDs for them. *)
Definition variantC : packages_Package := unit_ "C" "a" ["a/c.go"] [].
Definition variantA : packages_Package := unit_ "A" "a" ["a/a.go"] [variantC].
Definition variantGraph : DependencyGraph :=
  buildGraph dirname [variantA; variantC].

Definition variantRank (id : string) : nat :=
  if String.eqb id "C" then 1 else 0.

(** Ranks that decrease along the dependent edges of the two examples. *)
Definition chainRank (path : string) : nat :=
  if String.eqb path "c" then 2 else if String.eqb path "b" then 1 else 0.

Definition diamondRank (path : string) : nat :=
  if String.eqb path "d" then 2 else if String.eqb path "c" then 0 else 1.

(** * gta.go: path normalisation and the JSON mapping *)

(** [strings.HasSuffix] and [strings.TrimSuffix]. *)
Definition strings_HasSuffix (s suffix : string) : bool :=
  (String.length suffix <=? String.length s) &&
  String.eqb
    (substring (String.length s - String.length suffix) (String.length suffix) s)
    suffix.

Definition strings_TrimSuffix (s suffix : string) : string :=
  if strings_HasSuffix s suffix
  then substring 0 (String.length s - String.length suffix) s
  else s.

(** [sort.Slice] is the library's sort, driven by the [less] function it is
    given.  Insertion sort stands for it: on the duplicate-free keys it
    receives here every sort returns the same list
    ([string_sorted_unique]). *)
Fixpoint insertSorted {A} (less : A → A → bool) (x : A) (l : list A) : list A :=
  match l with
  | [] => [x]
  | y :: l' => if less y x then y :: insertSorted less x l' else x :: y :: l'
  end.

Definition sort_Slice {A} (less : A → A → bool) (l : list A) : list A :=
  foldr (insertSorted less) [] l.

(** Go's [<] on strings: the lexicographic order on bytes. *)
Definition string_lt (a b : string) : Prop := String.ltb a b = true.

(** One iteration of the first loop of [UniquePackagePaths]. *)
Definition addPackagePath (pkgPathMap : gset string) (pkg : Package)
  : gset string :=
  if strings_HasSuffix (PkgPath pkg) "_test"
  then {[ strings_TrimSuffix (PkgPath pkg) "_test" ]} ∪ pkgPathMap
  else if strings_HasSuffix (PkgPath pkg) ".test"
  then {[ strings_TrimSuffix (PkgPath pkg) ".test" ]} ∪ pkgPathMap
  else {[ PkgPath pkg ]} ∪ pkgPathMap.

Definition UniquePackagePaths (pkgs : list Package) : list string :=
  let pkgPathMap := foldl addPackagePath ∅ pkgs in
  let pkgPaths := elements pkgPathMap in
  sort_Slice String.ltb pkgPaths.

(** The folding of the suffixes in the words of the specification: a path
    ending in the internal-test suffix or in the test-binary suffix stands
    for the path without it. *)
Definition normalizedPath (pkgPath : string) : string :=
  if strings_HasSuffix pkgPath "_test" then strings_TrimSuffix pkgPath "_test"
  else if strings_HasSuffix pkgPath ".test" then strings_TrimSuffix pkgPath ".test"
  else pkgPath.

Definition suffixed (pkgPath : string) : bool :=
  strings_HasSuffix pkgPath "_test" || strings_HasSuffix pkgPath ".test".

(** [Packages] and its wire form.  The first field is [Dependencies] in the
    source; the name is taken by the edge map of [Package].  The units of a
    [Packages] are pointers in the source: those [ChangedPackages] returns
    point into the graph, those [UnmarshalJSON] allocates are nodes of their
    own, so the record is given over the representation [U] of a unit. *)
Record Packages (U : Type) : Type := mkPackages {
  Packages_Dependencies : gmap string (list U);
  Changes : list U;
  AllChanges : list U
}.
Arguments mkPackages {U} _ _ _.
Arguments Packages_Dependencies {U} _.
Arguments Changes {U} _.
Arguments AllChanges {U} _.

Record packagesJSON : Type := mkPackagesJSON {
  json_dependencies : gmap string (list string);
  json_changes : list string;
  json_all_changes : list string
}.

Definition mapify (pkgs : gmap string (list Package))
  : gmap string (list string) :=
  UniquePackagePaths <$> pkgs.

(** The unit [&Package{Package: &packages.Package{PkgPath: v}}]. *)
Definition standIn (pkgPath : string) : Package :=
  mkPackage (mkPackagesPackage EmptyString pkgPath [] [] [] [] []) ∅ ∅.

(** The first loop of [UnmarshalJSON], for one key and one of its values. *)
Definition appendDependency (k : string)
    (deps : gmap string (list Package)) (vv : string)
  : gmap string (list Package) :=
  <[k := default [] (deps !! k) ++ [standIn vv]]> deps.

(** The local [s] of [MarshalJSON]. *)
Definition wireForm (p : Packages Package) : packagesJSON :=
  {| json_dependencies := mapify (Packages_Dependencies p);
     json_changes := UniquePackagePaths (Changes p);
     json_all_changes := UniquePackagePaths (AllChanges p) |}.

(** The first loop of [UnmarshalJSON]. *)
Definition decodeDependencies (dependencies : gmap string (list string))
  : gmap string (list Package) :=
  foldl (λ deps (kv : string * list string),
           foldl (appendDependency kv.1) deps kv.2)
        ∅ (map_to_list dependencies).

(** [new(Packages)]. *)
Definition newPackages : Packages Package := mkPackages ∅ [] [].

Section JSON.

(** [encoding/json] is a library outside the repository: the encoded form
    and the two functions are parameters.  [json_Unmarshal b] is the pointer
    [s] after [json.Unmarshal(b, &s)], with [None] for nil, which is what
    the document [null] leaves in a pointer. *)
Variable bytes : Type.
Variable json_Marshal : packagesJSON → outcome bytes.
Variable json_Unmarshal : bytes → outcome (option packagesJSON).

Definition MarshalJSON (p : Packages Package) : outcome bytes :=
  json_Marshal (wireForm p).

(** [UnmarshalJSON] on the receiver [p]: the map is replaced, the two lists
    are appended to. *)
Definition UnmarshalJSON (p : Packages Package) (b : bytes)
  : outcome (Packages Package) :=
  s <- json_Unmarshal b ;;
  match s with
  | None => Panic
  | Some s =>
    Ok {| Packages_Dependencies := decodeDependencies (json_dependencies s);
          Changes := Changes p ++ (standIn <$> json_changes s);
          AllChanges := AllChanges p ++ (standIn <$> json_all_changes s) |}
  end.

End JSON.
Arguments MarshalJSON {bytes} _ _.
Arguments UnmarshalJSON {bytes} _ _ _.

(** A list of units that the encoding leaves as it is: the stand-ins of
    its own normalised paths, in ascending order. *)
Definition normalForm (pkgs : list Package) : Prop :=
  standIn <$> UniquePackagePaths pkgs = pkgs.

(** ** A codec for the examples

    JSON documents, and the documents of a [packagesJSON]: an object with
    the field names of the struct tags, a field being left out when its map
    or slice is empty, maps as objects with their keys in ascending order,
    slices as arrays. *)
Inductive json : Type :=
  | JNull
  | JBool (b : bool)
  | JNumber (literal : string)
  | JString (s : string)
  | JArray (items : list json)
  | JObject (fields : list (string * json)).

Definition encodeStrings (l : list string) : json := JArray (JString <$> l).

Definition encodeStringsMap (m : gmap string (list string)) : json :=
  JObject (sort_Slice (λ a b : string * json, String.ltb a.1 b.1)
             ((λ kv : string * list string, (kv.1, encodeStrings kv.2))
                <$> map_to_list m)).

Definition doc_Marshal (s : packagesJSON) : outcome json :=
  Ok (JObject
    ((if decide (size (json_dependencies s) = 0) then []
      else [("dependencies", encodeStringsMap (json_dependencies s))]) ++
     (if decide (length (json_changes s) = 0) then []
      else [("changes", encodeStrings (json_changes s))]) ++
     (if decide (length (json_all_changes s) = 0) then []
      else [("all_changes", encodeStrings (json_all_changes s))]))).

Definition jsonTypeError : error :=
  ErrExternal "json: cannot unmarshal value into Go value".

Definition decodeString (j : json) : outcome string :=
  match j with
  | JString s => Ok s
  | JNull => Ok EmptyString
  | _ => Err jsonTypeError
  end.

Definition decodeStrings (j : json) : outcome (list string) :=
  match j with
  | JArray items =>
    forRange (λ acc item, s <- decodeString item ;; Ok (acc ++ [s])) items []
  | JNull => Ok []
  | _ => Err jsonTypeError
  end.

Definition decodeStringsMap (m : gmap string (list string)) (j : json)
  : outcome (gmap string (list string)) :=
  match j with
  | JObject fields =>
    forRange (λ (m : gmap string (list string)) (kv : string * json),
                v <- decodeStrings kv.2 ;; Ok (<[kv.1 := v]> m)) fields m
  | JNull => Ok ∅
  | _ => Err jsonTypeError
  end.

Definition decodeField (s : packagesJSON) (kv : string * json)
  : outcome packagesJSON :=
  if String.eqb kv.1 "dependencies" then
    d <- decodeStringsMap (json_dependencies s) kv.2 ;;
    Ok (mkPackagesJSON d (json_changes s) (json_all_changes s))
  else if String.eqb kv.1 "changes" then
    c <- decodeStrings kv.2 ;;
    Ok (mkPackagesJSON (json_dependencies s) c (json_all_changes s))
  else if String.eqb kv.1 "all_changes" then
    a <- decodeStrings kv.2 ;;
    Ok (mkPackagesJSON (json_dependencies s) (json_changes s) a)
  else Ok s.

Definition doc_Unmarshal (doc : json) : outcome (option packagesJSON) :=
  match doc with
  | JObject fields =>
    s <- forRange decodeField fields (mkPackagesJSON ∅ [] []) ;; Ok (Some s)
  | JNull => Ok None
  | _ => Err jsonTypeError
  end.

(** The import paths of a list of units, as a set, as they are and after
    the folding of the test suffixes. *)
Definition pathSet (pkgs : list Package) : gset string :=
  list_to_set ((λ pkg : Package, PkgPath pkg) <$> pkgs).

Definition normalizedSet (pkgs : list Package) : gset string :=
  list_to_set ((λ pkg : Package, normalizedPath (PkgPath pkg)) <$> pkgs).

(** The round trip with the paths kept as they are: the decoded value has
    the sets of import paths of the encoded one. *)
Definition roundtrip_keeps_paths {bytes}
    (json_Marshal : packagesJSON → outcome bytes)
    (json_Unmarshal : bytes → outcome (option packagesJSON))
    (p : Packages Package) : Prop :=
  ∃ b q,
    MarshalJSON json_Marshal p = Ok b ∧
    UnmarshalJSON json_Unmarshal newPackages b = Ok q ∧
    pathSet (Changes q) = pathSet (Changes p) ∧
    pathSet (AllChanges q) = pathSet (AllChanges p) ∧
    dom (Packages_Dependencies q) = dom (Packages_Dependencies p) ∧
    ∀ k l l', Packages_Dependencies p !! k = Some l →
      Packages_Dependencies q !! k = Some l' → pathSet l' = pathSet l.

(** The value of the round-trip test of the repository. *)
Definition testPackages : Packages Package :=
  {| Packages_Dependencies :=
       {[ "do/tools/build/gta" :=
            [standIn "do/tools/build/gta/cmd/gta";
             standIn "do/tools/build/gtartifacts"] ]};
     Changes := [standIn "do/teams/compute/octopus"];
     AllChanges := [standIn "do/teams/compute/octopus"] |}.

(** The document of the decoding test of the repository. *)
Definition testDoc : json :=
  JObject
    [("dependencies",
      JObject [("do/tools/build/gta",
                JArray [JString "do/tools/build/gta/cmd/gta";
                        JString "do/tools/build/gtartifacts"])]);
     ("changes", JArray [JString "do/teams/compute/octopus"]);
     ("all_changes", JArray [JString "do/teams/compute/octopus"])].

(** A value with test variants, a repeated unit and a key without units,
    and its document. *)
Definition variantPackages : Packages Package :=
  {| Packages_Dependencies :=
       {[ "lib" := [standIn "app.test"; standIn "app"; standIn "app_test"];
          "leaf" := [] ]};
     Changes := [standIn "lib_test"; standIn "lib"];
     AllChanges := [standIn "lib"; standIn "app"; standIn "lib"] |}.

Definition variantDoc : json :=
  JObject
    [("dependencies",
      JObject [("leaf", JArray []); ("lib", JArray [JString "app"])]);
     ("changes", JArray [JString "lib"]);
     ("all_changes", JArray [JString "app"; JString "lib"])].

(** * gta.go: ChangedPackages *)

(** [Directory] and [Differ] are declared in a file of the repository that
    is not among the sources at hand; they are given with what [gta.go] and
    the test file use of them: the two fields of a directory and the two
    methods of a differ, a method being represented by what it returns. *)
Record Directory : Type := mkDirectory {
  Directory_Exists : bool;  (* [Exists] in the source *)
  Files : list string
}.

Record Differ : Type := mkDiffer {
  Diff : outcome (gmap string Directory);
  DiffFiles : outcome (gmap string bool)
}.

Record GTA : Type := mkGTA {
  prefixes : list string;
  tags : list string;
  differ : Differ;
  dependencyGraph : DependencyGraph
}.

(** [fmt.Errorf("<context>: %w", err)] on the error path of a call. *)
Definition wrapError {A} (context : string) (m : outcome A) : outcome A :=
  match m with
  | Err e => Err (ErrWrap context e)
  | _ => m
  end.

(** The first loop of [ChangedPackages]: [path/file] for every file of
    every directory of the diff. *)
Definition diffFilePaths (diffDirs : gmap string Directory) : list string :=
  map_to_list diffDirs ≫= λ kv : string * Directory,
    (λ file, kv.1 +:+ "/" +:+ file) <$> Files kv.2.

Section Changed.

Variable filepath_Dir : string → string.

(** One iteration of the last loop of [ChangedPackages]. *)
Definition recordDependents (fuel : nat) (g : DependencyGraph)
    (cpDependencies : gmap string (list ptr)) (p : ptr)
  : outcome (gmap string (list ptr)) :=
  pkg <- deref g p ;;
  deps <- wrapError "building dependency map"
            (TransitiveDependents fuel g (PkgPath pkg)) ;;
  Ok (<[PkgPath pkg := deps]> cpDependencies).

Definition ChangedPackages (fuel : nat) (g : GTA) : outcome (Packages ptr) :=
  diffDirs <- wrapError "determining diff" (Diff (differ g)) ;;
  r <- wrapError "determining affected packages"
         (AffectedPackages filepath_Dir fuel (dependencyGraph g)
            (diffFilePaths diffDirs)) ;;
  cpDependencies <-
    forRange (recordDependents fuel (dependencyGraph g)) r.1 ∅ ;;
  Ok {| Packages_Dependencies := cpDependencies;
        Changes := r.1;
        AllChanges := r.2 |}.

End Changed.

(** The chain example with a differ that reports two files of the
    directory of C. *)
Definition chainGTA : GTA :=
  {| prefixes := [];
     tags := [];
     differ := {| Diff := Ok {[ "c" := mkDirectory true ["c.go"; "README.md"] ]};
                  DiffFiles := Ok ∅ |};
     dependencyGraph := chainGraph |}.

(** * cmd/gta/main.go: the helpers of the command *)

(** [strings.Split] for a separator of one byte, the only kind it is given
    here: the pieces between the occurrences of the separator, one more
    than there are occurrences. *)
Fixpoint strings_Split (s : string) (sep : ascii) : list string :=
  match s with
  | EmptyString => [EmptyString]
  | String c rest =>
    if Ascii.eqb c sep then EmptyString :: strings_Split rest sep
    else match strings_Split rest sep with
         | [] => [String c EmptyString]
         | piece :: pieces => String c piece :: pieces
         end
  end.

(** [strings.Join]. *)
Fixpoint strings_Join (elems : list string) (sep : string) : string :=
  match elems with
  | [] => EmptyString
  | [x] => x
  | x :: rest => x +:+ sep +:+ strings_Join rest sep
  end.

(** [c] occurs in [s]. *)
Fixpoint occurs (c : ascii) (s : string) : bool :=
  match s with
  | EmptyString => false
  | String c' rest => Ascii.eqb c' c || occurs c rest
  end.

(** The line feed. *)
Definition LF : ascii := Ascii.ascii_of_nat 10.

Section Main.

(** [strings.TrimSpace] and [filepath.IsAbs] are parameters: the first
    follows the Unicode definition of white space, the second the rules of
    the operating system. *)
Variable strings_TrimSpace : string → string.
Variable filepath_IsAbs : string → bool.

Definition keepChangedFile (s : string) : bool :=
  let s := strings_TrimSpace s in
  0 <? String.length s.

Definition parseStringSlice (strValue : string) : list string :=
  foldl (λ values s,
           let v := strings_TrimSpace s in
           if String.eqb v EmptyString then values else values ++ [v])
        [] (strings_Split strValue ",").

(** One iteration of the loop of [changedFiles] on the slice [sl] and the
    count [n]: the line at index [i] is read from the slice as it is now,
    and a kept line is written back at index [n]. *)
Definition compactStep (st : list string * nat) (i : nat)
  : outcome (list string * nat) :=
  let '(sl, n) := st in
  match sl !! i with
  | None => Panic
  | Some s =>
    if negb (keepChangedFile s) then Ok (sl, n)
    else if negb (filepath_IsAbs s) then
      Err (ErrExternal "all changed files paths must be absolute paths")
    else Ok (<[n := s]> sl, S n)
  end.

(** [changedFiles], as a function of what [ioutil.ReadFile] returned. *)
Definition changedFiles (readFile : outcome string) : outcome (list string) :=
  b <- readFile ;;
  let sl := strings_Split b LF in
  st <- forRange compactStep (seq 0 (length sl)) (sl, 0) ;;
  Ok (take st.2 st.1).

End Main.

(** Trimming of the ASCII white space, for the examples: on text without
    other white space this is what [strings.TrimSpace] returns. *)
Definition isASCIISpace (c : ascii) : bool :=
  let n := Ascii.nat_of_ascii c in
  (n =? 32) || ((9 <=? n) && (n <=? 13)).

Fixpoint trimLeft (s : string) : string :=
  match s with
  | EmptyString => EmptyString
  | String c rest => if isASCIISpace c then trimLeft rest else s
  end.

Fixpoint trimRight (s : string) : string :=
  match s with
  | EmptyString => EmptyString
  | String c rest =>
    match trimRight rest with
    | EmptyString => if isASCIISpace c then EmptyString else String c EmptyString
    | rest' => String c rest'
    end
  end.

Definition trimASCII (s : string) : string := trimRight (trimLeft s).

(** Absolute paths where the separator is the slash. *)
Definition slashIsAbs (s : string) : bool :=
  match s with
  | String c _ => Ascii.eqb c "/"
  | EmptyString => false
  end.

(** * Reasoning about loops and outcomes *)

Lemma bind_Ok_inv {A B} (m : outcome A) (k : A → outcome B) b :
  bind m k = Ok b → ∃ a, m = Ok a ∧ k a = Ok b.
Proof. destruct m; simpl; intros; try discriminate; eauto. Qed.

Lemma outcome_rel_bind {A B A' B'} (R : A → A' → Prop) (Q : B → B' → Prop)
    m m' (k : A → outcome B) (k' : A' → outcome B') :
  outcome_rel R m m' →
  (∀ a a', R a a' → outcome_rel Q (k a) (k' a')) →
  outcome_rel Q (bind m k) (bind m' k').
Proof. destruct m, m'; simpl; intros; try done; auto. Qed.

Lemma forRange_app {A S} (body : S → A → outcome S) l1 l2 s :
  forRange body (l1 ++ l2) s = bind (forRange body l1 s) (forRange body l2).
Proof.
  revert s; induction l1 as [|x l1 IH]; intros s; simpl; [done|].
  destruct (body s x); simpl; auto.
Qed.

(** Invariant rule for a loop that ran to its end. *)
Lemma forRange_inv {A S} (I : S → Prop) (body : S → A → outcome S) l s s' :
  I s →
  (∀ s x s1, x ∈ l → I s → body s x = Ok s1 → I s1) →
  forRange body l s = Ok s' → I s'.
Proof.
  revert s; induction l as [|x l IH]; intros s Hs Hbody; simpl.
  - by intros [= <-].
  - intros (s1 & H1 & H2)%bind_Ok_inv.
    apply (IH s1); [|intros; eapply Hbody; eauto; by right|done].
    eapply Hbody; eauto; by left.
Qed.

(** What every visited element leaves behind, when later iterations keep it. *)
Lemma forRange_each {A S} (Q : A → S → Prop) (body : S → A → outcome S) l s s' :
  (∀ s x s1, x ∈ l → body s x = Ok s1 → Q x s1) →
  (∀ s x y s1, y ∈ l → Q x s → body s y = Ok s1 → Q x s1) →
  forRange body l s = Ok s' → ∀ x, x ∈ l → Q x s'.
Proof.
  revert s; induction l as [|x l IH]; intros s Hnew Hkeep; simpl.
  - intros _ y Hy; by apply elem_of_nil in Hy.
  - intros (s1 & H1 & H2)%bind_Ok_inv y [->|Hy]%elem_of_cons.
    + eapply (forRange_inv (Q x)); [| |exact H2].
      * eapply Hnew; eauto; by left.
      * intros; eapply Hkeep; eauto; by right.
    + eapply (IH s1); eauto; intros; [eapply Hnew|eapply Hkeep]; eauto; by right.
Qed.

(** A loop whose body succeeds under an invariant succeeds. *)
Lemma forRange_total {A S} (I : S → Prop) (body : S → A → outcome S) l s :
  I s →
  (∀ s x, x ∈ l → I s → ∃ s1, body s x = Ok s1 ∧ I s1) →
  ∃ s', forRange body l s = Ok s' ∧ I s'.
Proof.
  revert s; induction l as [|x l IH]; intros s Hs Hbody; simpl; [eauto|].
  destruct (Hbody s x) as (s1 & -> & Hs1); [by left|done|]; simpl.
  apply IH; [done|]. intros; apply Hbody; [by right|done].
Qed.

(** Two loops over the same list whose bodies stay related. *)
Lemma forRange_rel {A S T} (R : S → T → Prop)
    (body : S → A → outcome S) (body' : T → A → outcome T) l s t :
  R s t →
  (∀ s t x, x ∈ l → R s t → outcome_rel R (body s x) (body' t x)) →
  outcome_rel R (forRange body l s) (forRange body' l t).
Proof.
  revert s t; induction l as [|x l IH]; intros s t Hst Hbody; simpl; [done|].
  apply (outcome_rel_bind R); [apply Hbody; [by left|done]|].
  intros; apply IH; [done|]. intros; apply Hbody; [by right|done].
Qed.

Lemma outcome_rel_refl {A} (x : outcome A) : outcome_rel eq x x.
Proof. by destruct x. Qed.

Section Erase.
Variable g : DependencyGraph.

Lemma dependentsT_erase fuel pkgPath recursive :
  outcome_rel (λ m r, m = r.1)
    (dependents fuel g pkgPath recursive) (dependentsT fuel g pkgPath recursive).
Proof.
  revert pkgPath recursive; induction fuel as [|fuel IH]; intros pkgPath recursive;
    simpl; (destruct (packagePathMap g !! pkgPath) as [pkgs|]; [|done]);
    (apply forRange_rel; [done|]); intros acc st p _ ->;
    (apply (outcome_rel_bind eq); [apply outcome_rel_refl|]); intros P ? <-;
    (apply forRange_rel; [done|]); intros acc' st' dp _ ->;
    (apply (outcome_rel_bind eq); [apply outcome_rel_refl|]); intros D ? <-;
    destruct recursive; simpl; try done.
  apply (outcome_rel_bind (λ m r, m = r.1)); [apply IH|].
  by intros m r ->.
Qed.

Lemma dependenciesT_erase fuel pkgPath recursive :
  outcome_rel (λ m r, m = r.1)
    (dependencies fuel g pkgPath recursive) (dependenciesT fuel g pkgPath recursive).
Proof.
  revert pkgPath recursive; induction fuel as [|fuel IH]; intros pkgPath recursive;
    simpl; (destruct (packagePathMap g !! pkgPath) as [pkgs|]; [|done]);
    (apply forRange_rel; [done|]); intros acc st p _ ->;
    (apply (outcome_rel_bind eq); [apply outcome_rel_refl|]); intros P ? <-;
    (apply forRange_rel; [done|]); intros acc' st' dp _ ->;
    (apply (outcome_rel_bind eq); [apply outcome_rel_refl|]); intros D ? <-;
    destruct recursive; simpl; try done.
  apply (outcome_rel_bind (λ m r, m = r.1)); [apply IH|].
  by intros m r ->.
Qed.
End Erase.

(** * Well-formed graphs *)

Lemma wf_emptyGraph : wf_graph emptyGraph.
Proof. split; simpl; intros; simplify_map_eq. Qed.

Section Build.
Variable filepath_Dir : string → string.

Lemma addPackage_unfold pkg dg :
  addPackage filepath_Dir pkg dg =
  match packageMap dg !! ID pkg with
  | Some _ => (dg, ID pkg)
  | None =>
    (importLoop filepath_Dir (ID pkg) (Imports pkg) (registerPackage filepath_Dir pkg dg), ID pkg)
  end.
Proof.
  destruct pkg as [id path gf cf igf ofs imps]; simpl.
  destruct (packageMap dg !! id); [done|]. f_equal.
  generalize (registerPackage filepath_Dir
    (mkPackagesPackage id path gf cf igf ofs imps) dg).
  induction imps as [|imp imps IH]; intros dg'; simpl; [done|].
  destruct (addPackage filepath_Dir imp dg'); apply IH.
Qed.

Lemma registerFile_wf new dg f :
  wf_graph dg → registered dg new → wf_graph (registerFile filepath_Dir new dg f).
Proof.
  intros [wID wDts wDps wPath wVar wNe wFile wDir wSym] Hnew; split; simpl; eauto.
  - intros f' id [[-> <-]|[_ ?]]%lookup_insert_Some; eauto.
  - intros d dm k id [[<- <-]|[_ ?]]%lookup_insert_Some; [|eauto].
    intros [[-> <-]|[_ Hk]]%lookup_insert_Some; [done|].
    destruct (dirMap dg !! filepath_Dir f) eqn:E; simpl in Hk; [eauto|].
    by rewrite lookup_empty in Hk.
Qed.

Lemma registerFile_packageMap new dg f :
  packageMap (registerFile filepath_Dir new dg f) = packageMap dg.
Proof. done. Qed.

Lemma registerFiles_wf new files dg :
  wf_graph dg → registered dg new →
  wf_graph (foldl (registerFile filepath_Dir new) dg files) ∧
  packageMap (foldl (registerFile filepath_Dir new) dg files) = packageMap dg.
Proof.
  revert dg; induction files as [|f files IH]; intros dg Hwf Hnew; simpl; [done|].
  destruct (IH (registerFile filepath_Dir new dg f)) as [? ->];
    [by apply registerFile_wf|done|done].
Qed.

Lemma registerPackage_packageMap pkg dg :
  wf_graph dg → packageMap dg !! ID pkg = None →
  packageMap (registerPackage filepath_Dir pkg dg) =
  <[ID pkg := mkPackage pkg ∅ ∅]> (packageMap dg) ∧
  wf_graph (registerPackage filepath_Dir pkg dg).
Proof.
  intros Hwf Hfresh. unfold registerPackage.
  match goal with |- context [foldl _ ?dg1 _] => set (d1 := dg1) end.
  assert (Hreg : ∀ p, registered dg p → registered d1 p).
  { intros p [P HP]. exists P. simpl. rewrite lookup_insert_ne; [done|].
    intros <-. congruence. }
  assert (Hfresh' : ¬ registered dg (ID pkg)).
  { intros [? ?]; congruence. }
  assert (wf_graph d1) as Hwf1.
  { destruct Hwf as [wID wDts wDps wPath wVar wNe wFile wDir wSym]. split; simpl.
    - intros id P [[<- <-]|[_ ?]]%lookup_insert_Some; eauto.
    - intros id P k q [[<- <-]|[_ ?]]%lookup_insert_Some; simpl.
      + by rewrite lookup_empty.
      + intros Hk. destruct (wDts _ _ _ _ H Hk); eauto.
    - intros id P k q [[<- <-]|[_ ?]]%lookup_insert_Some; simpl.
      + by rewrite lookup_empty.
      + intros Hk. destruct (wDps _ _ _ _ H Hk); eauto.
    - intros id P [[<- <-]|[Hne HP]]%lookup_insert_Some; simpl.
      + rewrite lookup_insert_eq. eexists; split; [done|].
        apply elem_of_app; right; by left.
      + destruct (wPath _ _ HP) as (l & Hl & Hin).
        destruct (decide (PkgPath pkg = PkgPath P)) as [Heq|Hneq].
        * rewrite Heq, lookup_insert_eq, Hl; simpl. eexists; split; [done|].
          apply elem_of_app; by left.
        * rewrite lookup_insert_ne; eauto.
    - intros path l id [[<- <-]|[_ Hl]]%lookup_insert_Some Hin.
      + apply elem_of_app in Hin as [Hin| ->%list_elem_of_singleton].
        * destruct (packagePathMap dg !! PkgPath pkg) as [l|] eqn:El;
            simpl in Hin; [|by apply elem_of_nil in Hin].
          destruct (wVar _ _ _ El Hin) as (P & HP & HPp).
          exists P. rewrite lookup_insert_ne; [done|]. intros <-; congruence.
        * rewrite lookup_insert_eq. eauto.
      + destruct (wVar _ _ _ Hl Hin) as (P & HP & HPp).
        exists P. rewrite lookup_insert_ne; [done|]. intros <-; congruence.
    - intros path l [[<- <-]|[_ Hl]]%lookup_insert_Some; [|eauto].
      by destruct (default [] (packagePathMap dg !! PkgPath pkg)).
    - intros; eauto.
    - intros d dm k id Hd Hk. destruct (wDir _ _ _ _ Hd Hk); eauto.
    - intros p q P Q [[<- <-]|[Hp HP]]%lookup_insert_Some
        [[<- <-]|[Hq HQ]]%lookup_insert_Some; simpl.
      + by rewrite !lookup_empty.
      + rewrite lookup_empty. split; [done|]. intros Hd.
        destruct (wDts _ _ _ _ HQ Hd); done.
      + rewrite lookup_empty. split; [|done]. intros Hd.
        destruct (wDps _ _ _ _ HP Hd); done.
      + eauto. }
  destruct (registerFiles_wf (ID pkg) (allFiles pkg) d1) as [? ->]; [done| |done].
  exists (mkPackage pkg ∅ ∅). simpl. by rewrite lookup_insert_eq.
Qed.

Lemma link_lookup new dependency dg x :
  packageMap (link new dependency dependency dg) !! x =
  linked new dependency x <$> packageMap dg !! x.
Proof.
  unfold link, linked; simpl. rewrite !lookup_alter.
  repeat case_decide; subst; try congruence;
    destruct (packageMap dg !! x) as [[e ds dt]|]; done.
Qed.

Lemma link_registered new dependency dg p :
  registered (link new dependency dependency dg) p ↔ registered dg p.
Proof. unfold registered. rewrite link_lookup. apply fmap_is_Some. Qed.

Lemma insert_self_lookup (m : gmap string ptr) (k q : string) :
  <[k := k]> m !! q = Some q ↔ q = k ∨ m !! q = Some q.
Proof.
  destruct (decide (k = q)) as [->|Hne].
  - rewrite lookup_insert_eq. naive_solver.
  - rewrite lookup_insert_ne; naive_solver.
Qed.

Lemma link_wf new dependency dg :
  wf_graph dg → registered dg new → registered dg dependency →
  wf_graph (link new dependency dependency dg).
Proof.
  intros [wID wDts wDps wPath wVar wNe wFile wDir wSym] Hnew Hdep; split.
  - intros id P. rewrite link_lookup. intros (P0 & HP0 & ->)%fmap_Some. simpl; eauto.
  - intros id P k q. rewrite link_lookup, link_registered.
    intros (P0 & HP0 & ->)%fmap_Some; simpl. case_decide; [|eauto].
    intros [[-> <-]|[_ ?]]%lookup_insert_Some; eauto.
  - intros id P k q. rewrite link_lookup, link_registered.
    intros (P0 & HP0 & ->)%fmap_Some; simpl. case_decide; [|eauto].
    intros [[-> <-]|[_ ?]]%lookup_insert_Some; eauto.
  - intros id P. rewrite link_lookup.
    intros (P0 & HP0 & ->)%fmap_Some; simpl; eauto.
  - intros path l id Hl Hin. rewrite link_lookup.
    destruct (wVar _ _ _ Hl Hin) as (P & -> & HP); simpl. eauto.
  - eauto.
  - intros f id Hf. apply link_registered; eauto.
  - intros d dm k id Hd Hk. rewrite link_registered; eauto.
  - intros p q P Q. rewrite !link_lookup.
    intros (P0 & HP0 & ->)%fmap_Some (Q0 & HQ0 & ->)%fmap_Some; simpl.
    pose proof (wSym _ _ _ _ HP0 HQ0) as Hsym.
    repeat case_decide; subst; rewrite ?insert_self_lookup; naive_solver.
Qed.

(** Induction over a package and, first, over the packages it imports. *)
Lemma packages_Package_nested_ind (P : packages_Package → Prop) :
  (∀ pkg, Forall P (Imports pkg) → P pkg) → ∀ pkg, P pkg.
Proof.
  intros step. fix IH 1. intros [id path gf cf igf ofs imps].
  apply step; simpl. induction imps as [|imp imps IHimps]; constructor; auto.
Qed.

Lemma importLoop_wf new imports :
  Forall (addPackage_post filepath_Dir) imports →
  ∀ dg, wf_graph dg → registered dg new →
    wf_graph (importLoop filepath_Dir new imports dg) ∧
    (∀ p, registered dg p → registered (importLoop filepath_Dir new imports dg) p).
Proof.
  induction 1 as [|imp imports Himp _ IH]; intros dg Hwf Hnew; simpl; [done|].
  destruct (Himp dg Hwf) as (Hwf' & Hret & Hreg & Hmono).
  destruct (addPackage filepath_Dir imp dg) as [dg' dependency];
    simpl in *; subst dependency.
  destruct (IH (link new (ID imp) (ID imp) dg')) as [Hwf'' Hmono''].
  - apply link_wf; auto.
  - apply link_registered; auto.
  - split; [done|]. intros p Hp. apply Hmono''. apply link_registered. auto.
Qed.

Lemma addPackage_wf pkg : addPackage_post filepath_Dir pkg.
Proof.
  induction pkg as [pkg IH] using packages_Package_nested_ind.
  intros dg Hwf. rewrite addPackage_unfold.
  destruct (packageMap dg !! ID pkg) as [P|] eqn:E; simpl.
  - split_and!; auto. by exists P.
  - destruct (registerPackage_packageMap pkg dg Hwf E) as [Hpm Hwf1].
    assert (Hnew : registered (registerPackage filepath_Dir pkg dg) (ID pkg)).
    { unfold registered. rewrite Hpm, lookup_insert_eq. eauto. }
    destruct (importLoop_wf (ID pkg) (Imports pkg) IH _ Hwf1 Hnew) as [Hwf2 Hmono].
    split_and!; auto. intros p [P HP]. apply Hmono.
    unfold registered. rewrite Hpm. destruct (decide (ID pkg = p)) as [->|].
    + rewrite lookup_insert_eq; eauto.
    + rewrite lookup_insert_ne; eauto.
Qed.

Lemma buildGraph_from_wf pkgs dg :
  wf_graph dg →
  wf_graph (foldl (λ dg pkg, (addPackage filepath_Dir pkg dg).1) dg pkgs).
Proof.
  revert dg; induction pkgs as [|pkg pkgs IH]; intros dg Hwf; simpl; [done|].
  apply IH, addPackage_wf, Hwf.
Qed.

Lemma buildGraph_wf pkgs : wf_graph (buildGraph filepath_Dir pkgs).
Proof. apply buildGraph_from_wf, wf_emptyGraph. Qed.

End Build.

(** * The traversal on a well-formed graph *)

Lemma bind_safe {A B} (m : outcome A) (k : A → outcome B) :
  safe m → (∀ a, m = Ok a → safe (k a)) → safe (bind m k).
Proof. destruct m; simpl; auto. Qed.

Lemma forRange_safe {A S} (body : S → A → outcome S) l s :
  (∀ s x, x ∈ l → safe (body s x)) → safe (forRange body l s).
Proof.
  revert s; induction l as [|x l IH]; intros s Hbody; simpl; [done|].
  apply bind_safe; [apply Hbody; by left|].
  intros; apply IH. intros; apply Hbody; by right.
Qed.

Lemma elem_of_values {V} (m : gmap string V) v :
  v ∈ values m ↔ ∃ k, m !! k = Some v.
Proof.
  unfold values. rewrite list_elem_of_fmap. split.
  - intros ([k v'] & -> & Hin). exists k. by apply elem_of_map_to_list.
  - intros [k Hk]. exists (k, v). split; [done|]. by apply elem_of_map_to_list.
Qed.

Lemma idmap_values (m : gmap string ptr) v :
  idmap m → v ∈ values m ↔ v ∈ dom m.
Proof.
  intros Hid. rewrite elem_of_values, elem_of_dom. split.
  - intros [k Hk]. rewrite <- (Hid _ _ Hk) at 1. eauto.
  - intros [x Hx]. exists v. by rewrite (Hid _ _ Hx) at 2.
Qed.

Lemma idmap_empty : idmap ∅.
Proof. intros k v. by rewrite lookup_empty. Qed.

Lemma idmap_insert (m : gmap string ptr) k : idmap m → idmap (<[k := k]> m).
Proof. intros Hid k' v [[<- <-]|[_ ?]]%lookup_insert_Some; eauto. Qed.

Lemma idmap_union (m1 m2 : gmap string ptr) :
  idmap m1 → idmap m2 → idmap (m1 ∪ m2).
Proof. intros H1 H2 k v [?|[_ ?]]%lookup_union_Some_raw; eauto. Qed.

Lemma dependents_unfold fuel g pkgPath recursive :
  dependents fuel g pkgPath recursive =
  match packagePathMap g !! pkgPath with
  | None => Err ErrUnknownPackage
  | Some pkgs =>
    forRange (λ acc p,
      pkg <- deref g p ;;
      forRange (visitDependent fuel g recursive) (values (Dependents pkg)) acc)
      pkgs ∅
  end.
Proof. by destruct fuel. Qed.

Section Traversal.
Variable g : DependencyGraph.
Hypothesis Hwf : wf_graph g.

Lemma deref_Ok p P : deref g p = Ok P ↔ packageMap g !! p = Some P.
Proof. unfold deref. destruct (packageMap g !! p); naive_solver. Qed.

Lemma deref_registered p : registered g p → ∃ P, deref g p = Ok P ∧ ID P = p.
Proof.
  intros [P HP]. exists P. split; [by apply deref_Ok|].
  eapply wf_ID; eauto.
Qed.

Lemma units_empty : units g ∅.
Proof. split; [apply idmap_empty|]. intros v. by rewrite dom_empty_L. Qed.

Lemma units_insert m p : units g m → registered g p → units g (<[p := p]> m).
Proof.
  intros [Hid Hreg] Hp. split; [by apply idmap_insert|].
  intros v. rewrite dom_insert_L. intros [->%elem_of_singleton|?]%elem_of_union; auto.
Qed.

Lemma units_union m1 m2 : units g m1 → units g m2 → units g (m1 ∪ m2).
Proof.
  intros [Hid1 Hreg1] [Hid2 Hreg2]. split; [by apply idmap_union|].
  intros v. rewrite dom_union_L. intros [?|?]%elem_of_union; auto.
Qed.

Lemma units_Dependents p P v :
  packageMap g !! p = Some P → v ∈ values (Dependents P) → registered g v.
Proof.
  intros HP [k Hk]%elem_of_values.
  by destruct (wf_Dependents g Hwf _ _ _ _ HP Hk).
Qed.

(** One visit: what it returns, given what the nested call returns. *)
Lemma visitDependent_Ok_inv fuel recursive acc dp acc' :
  registered g dp →
  visitDependent fuel g recursive acc dp = Ok acc' →
  ∃ D : Package, packageMap g !! dp = Some D ∧
    if recursive then
      ∃ fuel' deps, fuel = S fuel' ∧
        dependents fuel' g (PkgPath D) true = Ok deps ∧
        acc' = deps ∪ <[dp := dp]> acc
    else acc' = <[dp := dp]> acc.
Proof.
  intros (D & HD & HID)%deref_registered. unfold visitDependent.
  rewrite HD; simpl. rewrite HID. intros Hvisit.
  exists D. split; [by apply deref_Ok|]. revert Hvisit.
  destruct recursive; simpl; [|by intros [= <-]].
  destruct fuel as [|fuel']; [done|].
  intros (deps & Hdeps & [= <-])%bind_Ok_inv. eauto.
Qed.

Lemma dependents_units fuel pkgPath recursive m :
  dependents fuel g pkgPath recursive = Ok m → units g m.
Proof.
  revert pkgPath recursive m.
  induction fuel as [fuel IH] using lt_wf_ind; intros pkgPath recursive m.
  rewrite dependents_unfold.
  destruct (packagePathMap g !! pkgPath) as [pkgs|] eqn:Epath; [|done].
  apply (forRange_inv (units g)); [apply units_empty|].
  intros acc p acc1 Hp Hacc (P & HP%deref_Ok & Hloop)%bind_Ok_inv.
  revert Hloop. apply (forRange_inv (units g)); [done|].
  intros acc2 dp acc3 Hdp Hacc2 Hvisit.
  pose proof (units_Dependents _ _ _ HP Hdp) as Hreg.
  destruct (visitDependent_Ok_inv _ _ _ _ _ Hreg Hvisit) as (D & HD & Hres).
  destruct recursive.
  - destruct Hres as (fuel' & deps & -> & Hdeps & ->).
    apply units_union; [|by apply units_insert].
    eapply IH; [|exact Hdeps]. lia.
  - subst acc3. by apply units_insert.
Qed.

(** The accumulator of the loops only grows. *)
Lemma visitDependent_grows fuel recursive acc dp acc' :
  registered g dp →
  visitDependent fuel g recursive acc dp = Ok acc' → dom acc ⊆ dom acc'.
Proof.
  intros Hreg Hvisit.
  destruct (visitDependent_Ok_inv _ _ _ _ _ Hreg Hvisit) as (D & HD & Hres).
  destruct recursive.
  - destruct Hres as (fuel' & deps & -> & Hdeps & ->).
    rewrite dom_union_L, dom_insert_L. set_solver.
  - subst acc'. rewrite dom_insert_L. set_solver.
Qed.

Lemma visitLoop_grows fuel recursive p P acc acc' :
  packageMap g !! p = Some P →
  forRange (visitDependent fuel g recursive) (values (Dependents P)) acc = Ok acc' →
  dom acc ⊆ dom acc'.
Proof.
  intros HP. apply (forRange_inv (λ a, dom acc ⊆ dom a)); [done|].
  intros a dp a1 Hdp Ha Hvisit. etrans; [exact Ha|].
  eapply visitDependent_grows; [|exact Hvisit].
  eapply units_Dependents; eauto.
Qed.

(** What a completed call has collected: every dependent of every variant
    registered under the path and, in the recursive mode, everything the
    nested call on that dependent's path returned. *)
Lemma dependents_Ok_inv fuel pkgPath recursive m :
  dependents fuel g pkgPath recursive = Ok m →
  ∃ pkgs, packagePathMap g !! pkgPath = Some pkgs ∧
    ∀ u U d, u ∈ pkgs → packageMap g !! u = Some U →
      d ∈ values (Dependents U) →
      d ∈ dom m ∧
      (recursive = true →
       ∃ (D : Package) fuel' deps, fuel = S fuel' ∧
         packageMap g !! d = Some D ∧
         dependents fuel' g (PkgPath D) true = Ok deps ∧ dom deps ⊆ dom m).
Proof.
  rewrite dependents_unfold.
  destruct (packagePathMap g !! pkgPath) as [pkgs|] eqn:Epath; [|done].
  intros Hloop. exists pkgs. split; [done|].
  intros u U d Hu HU Hd. revert u Hu U d HU Hd.
  set (Q := λ (u : ptr) (a : gmap string ptr),
    ∀ U d, packageMap g !! u = Some U → d ∈ values (Dependents U) →
      d ∈ dom a ∧
      (recursive = true →
       ∃ (D : Package) fuel' deps, fuel = S fuel' ∧
         packageMap g !! d = Some D ∧
         dependents fuel' g (PkgPath D) true = Ok deps ∧ dom deps ⊆ dom a)).
  assert (Hmono : ∀ u a a', Q u a → dom a ⊆ dom a' → Q u a').
  { intros u a a' HQ Hsub U d HU Hd.
    destruct (HQ U d HU Hd) as [Hin Hrec]. split; [set_solver|].
    intros Hr. destruct (Hrec Hr) as (D & fuel' & deps & ? & ? & ? & ?).
    exists D, fuel', deps. split_and!; auto. set_solver. }
  refine (forRange_each Q _ _ _ _ _ _ Hloop).
  - intros acc u acc1 Hu (U & HU%deref_Ok & Hinner)%bind_Ok_inv U' d HU' Hd.
    assert (U' = U) as -> by congruence.
    pose proof (visitLoop_grows _ _ _ _ _ _ HU Hinner) as Hgrow0.
    revert d Hd.
    set (Q' := λ (d : ptr) (a : gmap string ptr),
      d ∈ dom a ∧
      (recursive = true →
       ∃ (D : Package) fuel' deps, fuel = S fuel' ∧
         packageMap g !! d = Some D ∧
         dependents fuel' g (PkgPath D) true = Ok deps ∧ dom deps ⊆ dom a)).
    refine (forRange_each Q' _ _ _ _ _ _ Hinner).
    + intros a d a1 Hd Hvisit.
      pose proof (units_Dependents _ _ _ HU Hd) as Hreg.
      destruct (visitDependent_Ok_inv _ _ _ _ _ Hreg Hvisit) as (D & HD & Hres).
      destruct recursive.
      * destruct Hres as (fuel' & deps & -> & Hdeps & ->). split.
        -- rewrite dom_union_L, dom_insert_L. set_solver.
        -- intros _. exists D, fuel', deps. split_and!; auto.
           rewrite dom_union_L. set_solver.
      * subst a1. split; [|done]. rewrite dom_insert_L. set_solver.
    + intros a d d' a1 Hd' [Hin Hrec] Hvisit.
      pose proof (units_Dependents _ _ _ HU Hd') as Hreg.
      pose proof (visitDependent_grows _ _ _ _ _ Hreg Hvisit) as Hgrow.
      split; [set_solver|]. intros Hr.
      destruct (Hrec Hr) as (D & fuel' & deps & ? & ? & ? & ?).
      exists D, fuel', deps. split_and!; auto. set_solver.
  - intros acc u u' acc1 Hu' HQ (U & HU%deref_Ok & Hinner)%bind_Ok_inv.
    eapply Hmono; [exact HQ|]. eapply visitLoop_grows; eauto.
Qed.

(** Closure: whatever is reachable along dependent edges from a variant of
    the path is in the result of the recursive mode. *)
Lemma dependents_closed fuel pkgPath m pkgs u v :
  dependents fuel g pkgPath true = Ok m →
  packagePathMap g !! pkgPath = Some pkgs → u ∈ pkgs →
  tc (is_dependent g) u v → v ∈ dom m.
Proof.
  revert pkgPath m pkgs u.
  induction fuel as [fuel IH] using lt_wf_ind; intros pkgPath m pkgs u Hm Hp Hu Htc.
  destruct (dependents_Ok_inv _ _ _ _ Hm) as (pkgs' & Hp' & Hcoll).
  assert (pkgs' = pkgs) as -> by congruence.
  assert (∃ d, is_dependent g u d ∧ (d = v ∨ tc (is_dependent g) d v))
    as (d & (U & k & HU & Hk) & Hrest).
  { inversion Htc; subst; eauto. }
  assert (d ∈ values (Dependents U)) as Hd by (apply elem_of_values; eauto).
  destruct (Hcoll u U d Hu HU Hd) as [Hin Hrec].
  destruct Hrest as [->|Htc']; [done|].
  destruct (Hrec eq_refl) as (D & fuel' & deps & -> & HD & Hdeps & Hsub).
  destruct (wf_path g Hwf _ _ HD) as (l & Hl & Hdl).
  apply Hsub. eapply (IH fuel'); eauto.
Qed.

(** On a registered path the traversal raises no error and dereferences no
    dangling pointer, whatever the budget. *)
Lemma dependents_safe fuel pkgPath recursive :
  is_Some (packagePathMap g !! pkgPath) →
  safe (dependents fuel g pkgPath recursive).
Proof.
  revert pkgPath recursive.
  induction fuel as [|fuel IH]; intros pkgPath recursive [pkgs Hp];
    rewrite dependents_unfold, Hp;
    (apply forRange_safe; intros acc p Hin);
    destruct (wf_variants g Hwf _ _ _ Hp Hin) as (P & HP & _);
    (apply bind_safe; [unfold deref; by rewrite HP|]);
    intros P' HP'%deref_Ok; assert (P' = P) as -> by congruence;
    (apply forRange_safe; intros a dp Hdp);
    destruct (deref_registered dp (units_Dependents _ _ _ HP Hdp)) as (D & HD & HID);
    unfold visitDependent; rewrite HD; simpl;
    destruct recursive; simpl; try done.
  apply bind_safe; [|done].
  apply IH. apply deref_Ok in HD.
  destruct (wf_path g Hwf _ _ HD) as (l & -> & _). eauto.
Qed.

(** With a rank that decreases along dependent edges, a budget above the
    rank of the path is enough for the traversal to return. *)
Lemma dependents_total rank fuel pkgPath :
  ranked g rank →
  is_Some (packagePathMap g !! pkgPath) → rank pkgPath < fuel →
  ∃ m, dependents fuel g pkgPath true = Ok m.
Proof.
  intros Hrank. revert pkgPath.
  induction fuel as [|fuel IH]; intros pkgPath [pkgs Hp] Hlt; [lia|].
  rewrite dependents_unfold, Hp.
  destruct (forRange_total (λ _, True)
    (λ acc p, pkg <- deref g p ;;
       forRange (visitDependent (S fuel) g true) (values (Dependents pkg)) acc)
    pkgs ∅) as (m & Hm & _); [done| |eauto].
  intros acc p Hin _.
  destruct (wf_variants g Hwf _ _ _ Hp Hin) as (P & HP & HPp).
  unfold deref at 1. rewrite HP; simpl.
  apply (forRange_total (λ _, True)); [done|].
  intros a dp Hdp _.
  destruct (deref_registered dp (units_Dependents _ _ _ HP Hdp)) as (D & HD & HID).
  unfold visitDependent. rewrite HD; simpl.
  pose proof HD as HD'%deref_Ok.
  apply elem_of_values in Hdp as [k Hk].
  destruct (IH (PkgPath D)) as (deps & ->); simpl; [| |eauto].
  - destruct (wf_path g Hwf _ _ HD') as (l & -> & _). eauto.
  - pose proof (Hrank _ _ _ _ _ HP Hk HD'). rewrite HPp in H. lia.
Qed.

End Traversal.

(** * The budget *)

Lemma forRange_Ok_mono {A S} (body body' : S → A → outcome S) l s s' :
  (∀ s x s1, x ∈ l → body s x = Ok s1 → body' s x = Ok s1) →
  forRange body l s = Ok s' → forRange body' l s = Ok s'.
Proof.
  revert s; induction l as [|x l IH]; intros s Hbody; simpl; [done|].
  intros (s1 & H1 & H2)%bind_Ok_inv.
  rewrite (Hbody s x s1); [simpl|by left|done].
  apply IH; [|done]. intros; eapply Hbody; eauto; by right.
Qed.

(** A result obtained within a budget is obtained within any larger one. *)
Lemma dependents_fuel_mono g fuel fuel' pkgPath recursive m :
  fuel ≤ fuel' →
  dependents fuel g pkgPath recursive = Ok m →
  dependents fuel' g pkgPath recursive = Ok m.
Proof.
  revert fuel' pkgPath recursive m.
  induction fuel as [fuel IH] using lt_wf_ind; intros fuel' pkgPath recursive m Hle.
  rewrite !dependents_unfold.
  destruct (packagePathMap g !! pkgPath) as [pkgs|]; [|done].
  apply forRange_Ok_mono. intros acc p acc1 _.
  intros (P & -> & Hloop)%bind_Ok_inv; simpl. revert Hloop.
  apply forRange_Ok_mono. intros a dp a1 _. unfold visitDependent.
  destruct (deref g dp) as [D| | |]; simpl; try done.
  destruct recursive; simpl; [|done].
  destruct fuel as [|f]; [done|]. destruct fuel' as [|f']; [lia|].
  intros (deps & Hdeps & [= <-])%bind_Ok_inv.
  rewrite (IH f) with (m := deps); [done|lia|lia|done].
Qed.

(** * The directly affected set *)

Section Direct.
Variable filepath_Dir : string → string.
Variable g : DependencyGraph.

Lemma markFile_dom acc f :
  dom (markFile filepath_Dir g acc f) = affectedBy filepath_Dir g f ∪ dom acc.
Proof.
  unfold markFile, affectedBy.
  destruct (fileMap g !! f) as [p|]; [by rewrite dom_insert_L|].
  destruct (dirMap g !! filepath_Dir f) as [dm|]; [by rewrite dom_union_L|].
  set_solver.
Qed.

Lemma foldl_markFile_dom files acc :
  dom (foldl (markFile filepath_Dir g) acc files) =
  dom acc ∪ ⋃ (affectedBy filepath_Dir g <$> files).
Proof.
  revert acc; induction files as [|f files IH]; intros acc; simpl.
  - set_solver.
  - rewrite IH, markFile_dom. set_solver.
Qed.

Lemma directlyAffected_dom files :
  dom (directlyAffected filepath_Dir g files) =
  ⋃ (affectedBy filepath_Dir g <$> files).
Proof.
  unfold directlyAffected. rewrite foldl_markFile_dom, dom_empty_L. set_solver.
Qed.

Lemma elem_of_affected files p :
  p ∈ ⋃ (affectedBy filepath_Dir g <$> files) ↔
  ∃ f, f ∈ files ∧
    (fileMap g !! f = Some p ∨
     fileMap g !! f = None ∧
     ∃ dirPkgs, dirMap g !! filepath_Dir f = Some dirPkgs ∧ p ∈ dom dirPkgs).
Proof.
  rewrite elem_of_union_list. split.
  - intros (X & (f & -> & Hf)%list_elem_of_fmap & Hp). exists f. split; [done|].
    unfold affectedBy in Hp. destruct (fileMap g !! f) as [q|].
    + left. apply elem_of_singleton in Hp. by subst.
    + right. split; [done|].
      destruct (dirMap g !! filepath_Dir f) as [dm|]; [eauto|set_solver].
  - intros (f & Hf & Hcase). exists (affectedBy filepath_Dir g f).
    split; [apply list_elem_of_fmap; eauto|]. unfold affectedBy.
    destruct Hcase as [->|(-> & dm & -> & Hp)]; [set_solver|done].
Qed.

Hypothesis Hwf : wf_graph g.

Lemma markFile_units acc f :
  units g acc → units g (markFile filepath_Dir g acc f).
Proof.
  intros Hacc. unfold markFile.
  destruct (fileMap g !! f) as [p|] eqn:Ef.
  - apply units_insert; [done|]. eapply wf_file; eauto.
  - destruct (dirMap g !! filepath_Dir f) as [dm|] eqn:Ed; [|done].
    apply units_union; [|done]. split.
    + intros k v Hk. by destruct (wf_dir g Hwf _ _ _ _ Ed Hk).
    + intros v [x Hx]%elem_of_dom. by destruct (wf_dir g Hwf _ _ _ _ Ed Hx) as [<- ?].
Qed.

Lemma directlyAffected_units files :
  units g (directlyAffected filepath_Dir g files).
Proof.
  unfold directlyAffected. generalize (units_empty g).
  generalize (∅ : gmap string string).
  induction files as [|f files IH]; intros acc Hacc; simpl; [done|].
  apply IH. by apply markFile_units.
Qed.

End Direct.

(** * AffectedPackages on a well-formed graph *)

Lemma idmap_values_keys (m : gmap string string) :
  idmap m → values m = (map_to_list m).*1.
Proof.
  intros Hid. unfold values. symmetry. apply Forall_fmap_ext, Forall_forall.
  intros [k v] Hkv%elem_of_map_to_list. simpl. eauto.
Qed.

Lemma idmap_values_NoDup (m : gmap string string) : idmap m → NoDup (values m).
Proof.
  intros Hid. rewrite idmap_values_keys by done. apply NoDup_fst_map_to_list.
Qed.

Lemma rankedb_sound g rank : rankedb g rank = true → ranked g rank.
Proof.
  unfold rankedb. rewrite forallb_forall.
  intros Hall u U k v V HU Hk HV.
  specialize (Hall (u, U)). simpl in Hall.
  rewrite forallb_forall in Hall.
  assert (In (u, U) (map_to_list (packageMap g))) as Hin.
  { apply list_elem_of_In. by apply elem_of_map_to_list. }
  specialize (Hall Hin v).
  assert (In v (values (Dependents U))) as Hv.
  { apply list_elem_of_In, elem_of_values. eauto. }
  specialize (Hall Hv). rewrite HV in Hall. by apply Nat.ltb_lt in Hall.
Qed.

Lemma rank_bound g (rank : string → nat) :
  ∃ N, ∀ id (P : Package), packageMap g !! id = Some P → rank (PkgPath P) < N.
Proof.
  exists (S (max_list ((λ kv : string * Package, rank (PkgPath kv.2))
                        <$> map_to_list (packageMap g)))).
  intros id P HP. apply Nat.lt_succ_r, max_list_elem_of_le.
  apply list_elem_of_fmap. exists (id, P). split; [done|].
  by apply elem_of_map_to_list.
Qed.

Section Affected.
Variable filepath_Dir : string → string.
Variable g : DependencyGraph.
Hypothesis Hwf : wf_graph g.

Lemma closeOver_Ok_inv fuel d a id p st :
  closeOver fuel g (d, a) (id, p) = Ok st →
  ∃ (P : Package) deps, packageMap g !! p = Some P ∧
    dependents fuel g (PkgPath P) true = Ok deps ∧
    st = (d ++ [p], deps ∪ <[id := p]> a).
Proof.
  unfold closeOver.
  intros (P & HP%deref_Ok & (deps & Hdeps & [= <-])%bind_Ok_inv)%bind_Ok_inv.
  eauto.
Qed.

(** The second loop: the direct list is the list of visited units, and the
    accumulated map holds each of them with everything reachable from it. *)
Lemma closeLoop_Ok_inv fuel l d a d' a' :
  (∀ kv, kv ∈ l → kv.1 = kv.2) →
  units g a →
  forRange (closeOver fuel g) l (d, a) = Ok (d', a') →
  d' = d ++ l.*2 ∧ units g a' ∧ dom a ⊆ dom a' ∧
  ∀ kv, kv ∈ l →
    kv.2 ∈ dom a' ∧ ∀ v, tc (is_dependent g) kv.2 v → v ∈ dom a'.
Proof.
  revert d a. induction l as [|[id p] l IH]; intros d a Hl Ha; simpl.
  - intros [= <- <-]. rewrite app_nil_r. split_and!; [done..|].
    intros kv Hkv. by apply elem_of_nil in Hkv.
  - intros ([d1 a1] & Hstep & Hrest)%bind_Ok_inv.
    destruct (closeOver_Ok_inv _ _ _ _ _ _ Hstep) as (P & deps & HP & Hdeps & [= -> ->]).
    assert (id = p) as -> by (apply (Hl (id, p)); by left).
    assert (units g (deps ∪ <[p := p]> a)) as Ha1.
    { apply units_union; [by eapply dependents_units|].
      apply units_insert; [done|by exists P]. }
    destruct (IH (d ++ [p]) (deps ∪ <[p := p]> a)) as (-> & Ha' & Hsub & Hall);
      [intros; apply Hl; by right|done|done|].
    rewrite dom_union_L, dom_insert_L in Hsub.
    split_and!; [by rewrite <- app_assoc|done|set_solver|].
    intros kv [->|Hkv]%elem_of_cons; [|by apply Hall]. simpl.
    split; [set_solver|]. intros v Htc.
    destruct (wf_path g Hwf _ _ HP) as (pkgs & Hpkgs & Hin).
    pose proof (dependents_closed g Hwf _ _ _ _ _ _ Hdeps Hpkgs Hin Htc).
    set_solver.
Qed.

Lemma AffectedPackages_Ok_inv fuel files direct transitive :
  AffectedPackages filepath_Dir fuel g files = Ok (direct, transitive) →
  direct = values (directlyAffected filepath_Dir g files) ∧
  NoDup direct ∧
  (∀ p, p ∈ direct ↔ p ∈ ⋃ (affectedBy filepath_Dir g <$> files)) ∧
  (∀ p, p ∈ direct → p ∈ transitive) ∧
  (∀ p, p ∈ transitive → registered g p) ∧
  NoDup transitive ∧
  (∀ u v, u ∈ direct → tc (is_dependent g) u v → v ∈ transitive).
Proof.
  unfold AffectedPackages.
  intros ([d a] & Hloop & [= <- <-])%bind_Ok_inv; simpl.
  pose proof (directlyAffected_units filepath_Dir g Hwf files) as [Hid Hreg].
  destruct (closeLoop_Ok_inv _ _ _ _ _ _
    (λ kv Hkv, Hid kv.1 kv.2 (proj1 (elem_of_map_to_list _ kv.1 kv.2)
       ltac:(by destruct kv)))
    (units_empty g) Hloop) as (-> & [Hida Hrega] & _ & Hall).
  assert (Hdirect : ∀ p, p ∈ values (directlyAffected filepath_Dir g files) ↔
            p ∈ dom (directlyAffected filepath_Dir g files))
    by (intros; by apply idmap_values).
  assert (Hin : ∀ p, p ∈ values (directlyAffected filepath_Dir g files) →
            (p, p) ∈ map_to_list (directlyAffected filepath_Dir g files)).
  { intros p [x Hx]%Hdirect%elem_of_dom. apply elem_of_map_to_list.
    by rewrite (Hid _ _ Hx) at 2. }
  unfold packageMapToArray. split_and!.
  - done.
  - by apply idmap_values_NoDup.
  - intros p. by rewrite Hdirect, directlyAffected_dom.
  - intros p Hp%Hin. apply idmap_values; [done|]. by destruct (Hall _ Hp).
  - intros p Hp%idmap_values; auto.
  - by apply idmap_values_NoDup.
  - intros u v Hu%Hin Htc. apply idmap_values; [done|].
    destruct (Hall _ Hu) as [_ Hreach]. by apply Hreach.
Qed.

(** No error and no nil dereference, whatever the budget. *)
Lemma AffectedPackages_safe fuel files :
  safe (AffectedPackages filepath_Dir fuel g files).
Proof.
  unfold AffectedPackages. apply bind_safe; [|done].
  pose proof (directlyAffected_units filepath_Dir g Hwf files) as [Hid Hreg].
  apply forRange_safe. intros [d a] [id p] Hin%elem_of_map_to_list.
  unfold closeOver.
  assert (registered g p) as [P HP].
  { apply Hreg. rewrite <- (Hid _ _ Hin). apply elem_of_dom; eauto. }
  apply bind_safe; [unfold deref; by rewrite HP|].
  intros P' HP'%deref_Ok. assert (P' = P) as -> by congruence.
  apply bind_safe; [|done]. apply dependents_safe; [done|].
  destruct (wf_path g Hwf _ _ HP) as (l & -> & _). eauto.
Qed.

(** With a budget above every rank the call returns. *)
Lemma AffectedPackages_total rank fuel files :
  ranked g rank →
  (∀ id (P : Package), packageMap g !! id = Some P → rank (PkgPath P) < fuel) →
  ∃ direct transitive,
    AffectedPackages filepath_Dir fuel g files = Ok (direct, transitive).
Proof.
  intros Hrank Hfuel. unfold AffectedPackages.
  pose proof (directlyAffected_units filepath_Dir g Hwf files) as [Hid Hreg].
  destruct (forRange_total (λ _, True) (closeOver fuel g)
    (map_to_list (directlyAffected filepath_Dir g files)) ([], ∅))
    as ([d a] & -> & _); [done| |simpl; eauto].
  intros [d a] [id p] Hin%elem_of_map_to_list _. unfold closeOver.
  assert (registered g p) as [P HP].
  { apply Hreg. rewrite <- (Hid _ _ Hin). apply elem_of_dom; eauto. }
  unfold deref. rewrite HP; simpl.
  destruct (dependents_total g Hwf rank fuel (PkgPath P)) as (deps & ->);
    [done| |eauto|simpl; eauto].
  destruct (wf_path g Hwf _ _ HP) as (l & -> & _). eauto.
Qed.

End Affected.

Lemma AffectedPackages_fuel_mono Dir g fuel fuel' files r :
  fuel ≤ fuel' →
  AffectedPackages Dir fuel g files = Ok r →
  AffectedPackages Dir fuel' g files = Ok r.
Proof.
  intros Hle. unfold AffectedPackages.
  intros (st & Hloop & [= <-])%bind_Ok_inv.
  rewrite (forRange_Ok_mono (closeOver fuel g) (closeOver fuel' g) _ _ st); [done| |done].
  intros [d a] [id p] s1 _. unfold closeOver.
  destruct (deref g p) as [P| | |]; simpl; try done.
  intros (deps & Hdeps & [= <-])%bind_Ok_inv.
  by rewrite (dependents_fuel_mono _ _ _ _ _ _ Hle Hdeps).
Qed.

(** * The stated properties of the graph engine *)

Lemma BuildDependencyGraph_Ok_inv Dir loaded g :
  BuildDependencyGraph Dir loaded = Ok g →
  ∃ pkgs, loaded = inr pkgs ∧ g = buildGraph Dir pkgs.
Proof. destruct loaded as [e|pkgs]; [done|]. intros [= <-]. eauto. Qed.

Lemma BuildDependencyGraph_wf Dir loaded g :
  BuildDependencyGraph Dir loaded = Ok g → wf_graph g.
Proof.
  intros (pkgs & _ & ->)%BuildDependencyGraph_Ok_inv. apply buildGraph_wf.
Qed.

Lemma chainGraph_built :
  BuildDependencyGraph dirname (inr [chainA; chainB; chainC]) = Ok chainGraph.
Proof. reflexivity. Qed.

Lemma diamondGraph_built :
  BuildDependencyGraph dirname (inr [diamondC; diamondA; diamondB; diamondD])
  = Ok diamondGraph.
Proof. reflexivity. Qed.

(** On a graph that was built, a path is unknown to the path index exactly
    when no registered unit carries it. *)
Lemma unknown_path_iff g pkgPath :
  wf_graph g →
  packagePathMap g !! pkgPath = None ↔
  ∀ id (P : Package), packageMap g !! id = Some P → PkgPath P ≠ pkgPath.
Proof.
  intros Hwf. split.
  - intros Hnone id P HP <-.
    destruct (wf_path g Hwf _ _ HP) as (l & Hl & _). congruence.
  - intros Hno. destruct (packagePathMap g !! pkgPath) as [l|] eqn:El; [|done].
    destruct l as [|id l]; [by destruct (wf_nonempty g Hwf _ _ El)|].
    destruct (wf_variants g Hwf _ _ id El) as (P & HP & HPp); [by left|].
    by destruct (Hno _ _ HP).
Qed.

Lemma queries_unknown g pkgPath :
  packagePathMap g !! pkgPath = None →
  Dependencies_ g pkgPath = Err ErrUnknownPackage ∧
  Dependents_ g pkgPath = Err ErrUnknownPackage ∧
  (∀ fuel, TransitiveDependencies fuel g pkgPath = Err ErrUnknownPackage) ∧
  (∀ fuel, TransitiveDependents fuel g pkgPath = Err ErrUnknownPackage).
Proof.
  intros Hnone.
  unfold Dependencies_, Dependents_, TransitiveDependencies, TransitiveDependents.
  split_and!; [| |intros [|fuel]..]; simpl; by rewrite Hnone.
Qed.

(** C4: on every graph that was built, each of the four queries, asked about
    an import path that no registered unit carries, returns the error
    ErrUnknownPackage and no list, whatever the budget of the transitive
    ones. *)
Theorem unknown_path_error Dir loaded g pkgPath :
  BuildDependencyGraph Dir loaded = Ok g →
  (∀ id (P : Package), packageMap g !! id = Some P → PkgPath P ≠ pkgPath) →
  Dependencies_ g pkgPath = Err ErrUnknownPackage ∧
  Dependents_ g pkgPath = Err ErrUnknownPackage ∧
  (∀ fuel, TransitiveDependencies fuel g pkgPath = Err ErrUnknownPackage) ∧
  (∀ fuel, TransitiveDependents fuel g pkgPath = Err ErrUnknownPackage).
Proof.
  intros Hwf%BuildDependencyGraph_wf Hno.
  by apply queries_unknown, unknown_path_iff.
Qed.

Lemma chainGraph_paths id (P : Package) :
  packageMap chainGraph !! id = Some P → PkgPath P ≠ "nonexistent/path".
Proof.
  intros HP Heq.
  destruct (wf_path chainGraph (buildGraph_wf dirname _) _ _ HP) as (l & Hl & _).
  rewrite Heq in Hl. vm_compute in Hl. discriminate.
Qed.

Lemma unknown_path_error_witness :
  Dependencies_ chainGraph "nonexistent/path" = Err ErrUnknownPackage ∧
  Dependents_ chainGraph "nonexistent/path" = Err ErrUnknownPackage ∧
  (∀ fuel, TransitiveDependencies fuel chainGraph "nonexistent/path"
           = Err ErrUnknownPackage) ∧
  (∀ fuel, TransitiveDependents fuel chainGraph "nonexistent/path"
           = Err ErrUnknownPackage).
Proof.
  apply (unknown_path_error dirname (inr [chainA; chainB; chainC])).
  - reflexivity.
  - apply chainGraph_paths.
Defined.

(** C5: on every graph that was built, the directly affected map holds, for
    each changed file, the exact owner if the file index has one and
    otherwise every unit registered under the directory of the file; the
    direct list returned by AffectedPackages enumerates that map once per
    unit ID.  A file known by its directory only marks the unit of the
    directory. *)
Theorem directlyAffected_spec Dir loaded g files :
  BuildDependencyGraph Dir loaded = Ok g →
  dom (directlyAffected Dir g files) = ⋃ (affectedBy Dir g <$> files) ∧
  (∀ p, p ∈ dom (directlyAffected Dir g files) ↔
     ∃ f, f ∈ files ∧
       (fileMap g !! f = Some p ∨
        fileMap g !! f = None ∧
        ∃ dirPkgs, dirMap g !! Dir f = Some dirPkgs ∧ p ∈ dom dirPkgs)) ∧
  (∀ fuel direct transitive,
     AffectedPackages Dir fuel g files = Ok (direct, transitive) →
     NoDup direct ∧
     ∀ p, p ∈ direct ↔ p ∈ dom (directlyAffected Dir g files)) ∧
  (fileMap chainGraph !! "c/README.md" = None ∧
   AffectedPackages dirname 2 chainGraph ["c/README.md"]
   = Ok (["C"], ["C"; "A"; "B"])).
Proof.
  intros Hwf%BuildDependencyGraph_wf. split_and!.
  - apply directlyAffected_dom.
  - intros p. rewrite directlyAffected_dom. apply elem_of_affected.
  - intros fuel direct transitive HAP.
    destruct (AffectedPackages_Ok_inv Dir g Hwf _ _ _ _ HAP)
      as (_ & Hnd & Hdir & _).
    split; [done|]. intros p. by rewrite directlyAffected_dom.
  - by vm_compute.
  - by vm_compute.
Qed.

Lemma directlyAffected_spec_witness :
  dom (directlyAffected dirname chainGraph ["c/c.go"; "b/notes.txt"])
  = ⋃ (affectedBy dirname chainGraph <$> ["c/c.go"; "b/notes.txt"]).
Proof.
  apply (directlyAffected_spec dirname (inr [chainA; chainB; chainC])
           chainGraph ["c/c.go"; "b/notes.txt"]).
  reflexivity.
Defined.

(** C6: a file that neither index knows contributes nothing: dropping it
    from the list of changed files does not change what AffectedPackages
    returns, and when every file is of that kind the call returns empty
    direct and transitive lists and no error, on any graph and with any
    budget. *)
Theorem unmapped_files_ignored Dir g :
  (∀ files,
     (∀ f, f ∈ files → fileMap g !! f = None ∧ dirMap g !! Dir f = None) →
     ∀ fuel, AffectedPackages Dir fuel g files = Ok ([], [])) ∧
  (∀ before f after,
     fileMap g !! f = None → dirMap g !! Dir f = None →
     ∀ fuel, AffectedPackages Dir fuel g (before ++ f :: after)
             = AffectedPackages Dir fuel g (before ++ after)).
Proof.
  assert (Hskip : ∀ f acc, fileMap g !! f = None → dirMap g !! Dir f = None →
            markFile Dir g acc f = acc).
  { intros f acc Hf Hd. unfold markFile. by rewrite Hf, Hd. }
  split.
  - intros files Hall fuel. unfold AffectedPackages.
    assert (directlyAffected Dir g files = ∅) as ->.
    { unfold directlyAffected. generalize (∅ : gmap string string).
      induction files as [|f files IH]; intros acc; simpl; [done|].
      destruct (Hall f) as [Hf Hd]; [by left|]. rewrite Hskip by done.
      apply IH. intros; apply Hall; by right. }
    by rewrite map_to_list_empty.
  - intros before f after Hf Hd fuel. unfold AffectedPackages, directlyAffected.
    rewrite !foldl_app. simpl. by rewrite Hskip.
Qed.

Lemma unmapped_files_ignored_witness :
  AffectedPackages dirname 0 chainGraph ["docs/README.md"; "LICENSE"]
  = Ok ([], []) ∧
  AffectedPackages dirname 2 chainGraph (["c/c.go"] ++ "LICENSE" :: [])
  = AffectedPackages dirname 2 chainGraph (["c/c.go"] ++ []).
Proof.
  split.
  - apply (proj1 (unmapped_files_ignored dirname chainGraph)).
    intros f [->|[->|[]%elem_of_nil]%elem_of_cons]%elem_of_cons;
      by vm_compute.
  - apply (proj2 (unmapped_files_ignored dirname chainGraph)); reflexivity.
Defined.

(** C9: after BuildDependencyGraph has returned, for any two registered
    units P and Q, Q is in the Dependencies map of P under the ID of Q
    exactly when P is in the Dependents map of Q under the ID of P.  The
    queries are functions of the graph and return no graph, so nothing they
    do can change this. *)
Theorem edges_symmetric Dir loaded g p q (P Q : Package) :
  BuildDependencyGraph Dir loaded = Ok g →
  packageMap g !! p = Some P → packageMap g !! q = Some Q →
  (Dependencies P !! ID Q = Some q ↔ Dependents Q !! ID P = Some p).
Proof.
  intros Hwf%BuildDependencyGraph_wf HP HQ.
  rewrite (wf_ID g Hwf _ _ HP), (wf_ID g Hwf _ _ HQ).
  eapply wf_sym; eauto.
Qed.

Lemma edges_symmetric_witness :
  ∃ P Q : Package,
    packageMap chainGraph !! "A" = Some P ∧
    packageMap chainGraph !! "B" = Some Q ∧
    Dependencies P !! "B" = Some "B" ∧
    (Dependencies P !! ID Q = Some "B" ↔ Dependents Q !! ID P = Some "A").
Proof.
  destruct (packageMap chainGraph !! "A") as [P|] eqn:HP; [|by vm_compute in HP].
  destruct (packageMap chainGraph !! "B") as [Q|] eqn:HQ; [|by vm_compute in HQ].
  exists P, Q. split_and!; [done..| |].
  - vm_compute in HP. injection HP as <-. by vm_compute.
  - apply (edges_symmetric dirname (inr [chainA; chainB; chainC]) chainGraph);
      [reflexivity|done..].
Defined.

Lemma AffectedPackages_closed Dir g fuel files direct transitive u v :
  wf_graph g →
  AffectedPackages Dir fuel g files = Ok (direct, transitive) →
  u ∈ direct → rtc (is_dependent g) u v → v ∈ transitive.
Proof.
  intros Hwf HAP Hu Hreach.
  destruct (AffectedPackages_Ok_inv Dir g Hwf _ _ _ _ HAP)
    as (_ & _ & _ & Hsub & _ & _ & Hclosed).
  apply rtc_tc in Hreach as [<-|Htc]; eauto.
Qed.

Lemma AffectedPackages_returns Dir g files :
  wf_graph g → acyclic g →
  ∃ fuel direct transitive, ∀ n, fuel ≤ n →
    AffectedPackages Dir n g files = Ok (direct, transitive).
Proof.
  intros Hwf [rank Hrank]. destruct (rank_bound g rank) as [N HN].
  destruct (AffectedPackages_total Dir g Hwf rank N files Hrank HN)
    as (direct & transitive & HAP).
  exists N, direct, transitive. intros n Hn.
  by apply (AffectedPackages_fuel_mono Dir g N n).
Qed.

Lemma chain_reaches_A : rtc (is_dependent chainGraph) "C" "A".
Proof.
  destruct (packageMap chainGraph !! "C") as [PC|] eqn:HC; [|by vm_compute in HC].
  destruct (packageMap chainGraph !! "B") as [PB|] eqn:HB; [|by vm_compute in HB].
  apply rtc_l with "B"; [|apply rtc_once].
  - exists PC, "B". split; [done|].
    vm_compute in HC. injection HC as <-. by vm_compute.
  - exists PB, "A". split; [done|].
    vm_compute in HB. injection HB as <-. by vm_compute.
Qed.

(** C10: on every graph that was built, AffectedPackages returns no error
    and dereferences no dangling pointer, whatever the files and the
    budget, because every unit the file index or a directory index points
    to is registered and listed under its own import path; when the graph
    satisfies the acyclicity precondition the call returns its two lists. *)
Theorem AffectedPackages_no_error Dir loaded g files :
  BuildDependencyGraph Dir loaded = Ok g →
  (∀ fuel e, AffectedPackages Dir fuel g files ≠ Err e) ∧
  (∀ fuel, AffectedPackages Dir fuel g files ≠ Panic) ∧
  (∀ f p, fileMap g !! f = Some p →
     ∃ (P : Package) l, packageMap g !! p = Some P ∧
       packagePathMap g !! PkgPath P = Some l ∧ p ∈ l) ∧
  (∀ d dirPkgs k p, dirMap g !! d = Some dirPkgs → dirPkgs !! k = Some p →
     ∃ (P : Package) l, packageMap g !! p = Some P ∧
       packagePathMap g !! PkgPath P = Some l ∧ p ∈ l) ∧
  (acyclic g →
   ∃ fuel direct transitive, ∀ n, fuel ≤ n →
     AffectedPackages Dir n g files = Ok (direct, transitive)).
Proof.
  intros Hwf%BuildDependencyGraph_wf.
  assert (Hlisted : ∀ p, registered g p →
    ∃ (P : Package) l, packageMap g !! p = Some P ∧
      packagePathMap g !! PkgPath P = Some l ∧ p ∈ l).
  { intros p [P HP]. destruct (wf_path g Hwf _ _ HP) as (l & Hl & Hin). eauto. }
  split_and!.
  - intros fuel e Heq. pose proof (AffectedPackages_safe Dir g Hwf fuel files) as Hs.
    by rewrite Heq in Hs.
  - intros fuel Heq. pose proof (AffectedPackages_safe Dir g Hwf fuel files) as Hs.
    by rewrite Heq in Hs.
  - intros f p Hf. apply Hlisted. eapply wf_file; eauto.
  - intros d dm k p Hd Hk. apply Hlisted.
    by destruct (wf_dir g Hwf _ _ _ _ Hd Hk).
  - by apply AffectedPackages_returns.
Qed.

Lemma AffectedPackages_no_error_witness :
  (∀ fuel e, AffectedPackages dirname fuel diamondGraph ["d/d.go"; "x/y.txt"]
             ≠ Err e) ∧
  ∃ fuel direct transitive, ∀ n, fuel ≤ n →
    AffectedPackages dirname n diamondGraph ["d/d.go"; "x/y.txt"]
    = Ok (direct, transitive).
Proof.
  pose proof (AffectedPackages_no_error dirname
                (inr [diamondC; diamondA; diamondB; diamondD])
                diamondGraph ["d/d.go"; "x/y.txt"] eq_refl)
    as (Hne & _ & _ & _ & Htotal).
  split; [exact Hne|].
  apply Htotal. exists diamondRank. apply rankedb_sound. by vm_compute.
Defined.

(** * Expansions *)

(** A loop that appends to a trace: the final trace is the initial one
    followed by what each iteration appended. *)
Lemma forRange_trace {A S T} (Q : A → list T → Prop)
    (body : S * list T → A → outcome (S * list T)) l st st' :
  (∀ st x st1, x ∈ l → body st x = Ok st1 →
     ∃ t, st1.2 = st.2 ++ t ∧ Q x t) →
  forRange body l st = Ok st' →
  ∃ ts, st'.2 = st.2 ++ concat ts ∧ Forall2 Q l ts.
Proof.
  revert st; induction l as [|x l IH]; intros st Hbody; simpl.
  - intros [= <-]. exists []. by rewrite app_nil_r.
  - intros (st1 & H1 & H2)%bind_Ok_inv.
    destruct (Hbody st x st1) as (t & Ht & HQ); [by left|done|].
    destruct (IH st1) as (ts & Hts & Hall);
      [intros; eapply Hbody; eauto; by right|done|].
    exists (t :: ts). split; [|by constructor].
    rewrite Hts, Ht. simpl. by rewrite app_assoc.
Qed.

Lemma Forall2_bind_concat {A T} (Q : A → list T → Prop) (f : A → list A)
    (l : list A) (tss : list (list T)) :
  Forall2 (λ p t, ∃ ts, t = concat ts ∧ Forall2 Q (f p) ts) l tss →
  ∃ ts, concat tss = concat ts ∧ Forall2 Q (l ≫= f) ts.
Proof.
  induction 1 as [|p t l tss (ts1 & -> & H1) _ (ts2 & Heq & H2)]; simpl.
  - by exists [].
  - exists (ts1 ++ ts2). rewrite concat_app, Heq. split; [done|].
    by apply Forall2_app.
Qed.

Lemma dependentsT_trace g fuel pkgPath m trace :
  dependentsT fuel g pkgPath true = Ok (m, trace) →
  ∃ pkgs subtraces,
    packagePathMap g !! pkgPath = Some pkgs ∧
    trace = pkgPath :: concat subtraces ∧
    Forall2 (λ d t, ∃ (D : Package) fuel' m',
               fuel = S fuel' ∧ packageMap g !! d = Some D ∧
               dependentsT fuel' g (PkgPath D) true = Ok (m', t))
            (dependentsOf g pkgs) subtraces.
Proof.
  intros Hcall.
  assert (∃ pkgs, packagePathMap g !! pkgPath = Some pkgs) as [pkgs Hp].
  { destruct fuel; simpl in Hcall;
      destruct (packagePathMap g !! pkgPath); by eauto. }
  exists pkgs.
  set (Q := λ (d : string) (t : list string), ∃ (D : Package) fuel' m',
         fuel = S fuel' ∧ packageMap g !! d = Some D ∧
         dependentsT fuel' g (PkgPath D) true = Ok (m', t)).
  set (Qout := λ (p : string) (t : list string), ∃ ts, t = concat ts ∧
         Forall2 Q (match packageMap g !! p with
                    | Some P => values (Dependents P)
                    | None => []
                    end) ts).
  assert (∃ tss, trace = [pkgPath] ++ concat tss ∧ Forall2 Qout pkgs tss)
    as (tss & -> & Hout).
  { destruct fuel as [|fuel']; simpl in Hcall; rewrite Hp in Hcall;
      apply (forRange_trace Qout) in Hcall; try done;
      intros st p st1 _ (P & HP%deref_Ok & Hinner)%bind_Ok_inv;
      unfold Qout; rewrite HP;
      (apply (forRange_trace Q) in Hinner; [destruct Hinner as (ts & ? & ?); eauto|]);
      intros st2 dp st3 _ (D & HD%deref_Ok & Hrec)%bind_Ok_inv;
      simpl in Hrec; try done.
    apply bind_Ok_inv in Hrec as ([m' t] & Hrec & [= <-]); simpl.
    exists t. split; [done|]. by exists D, fuel', m'. }
  destruct (Forall2_bind_concat Q _ _ _ Hout) as (ts & Heq & Hall).
  exists ts. by rewrite <- Heq.
Qed.

Lemma dependenciesT_trace g fuel pkgPath m trace :
  dependenciesT fuel g pkgPath true = Ok (m, trace) →
  ∃ pkgs subtraces,
    packagePathMap g !! pkgPath = Some pkgs ∧
    trace = pkgPath :: concat subtraces ∧
    Forall2 (λ d t, ∃ (D : Package) fuel' m',
               fuel = S fuel' ∧ packageMap g !! d = Some D ∧
               dependenciesT fuel' g (PkgPath D) true = Ok (m', t))
            (dependenciesOf g pkgs) subtraces.
Proof.
  intros Hcall.
  assert (∃ pkgs, packagePathMap g !! pkgPath = Some pkgs) as [pkgs Hp].
  { destruct fuel; simpl in Hcall;
      destruct (packagePathMap g !! pkgPath); by eauto. }
  exists pkgs.
  set (Q := λ (d : string) (t : list string), ∃ (D : Package) fuel' m',
         fuel = S fuel' ∧ packageMap g !! d = Some D ∧
         dependenciesT fuel' g (PkgPath D) true = Ok (m', t)).
  set (Qout := λ (p : string) (t : list string), ∃ ts, t = concat ts ∧
         Forall2 Q (match packageMap g !! p with
                    | Some P => values (Dependencies P)
                    | None => []
                    end) ts).
  assert (∃ tss, trace = [pkgPath] ++ concat tss ∧ Forall2 Qout pkgs tss)
    as (tss & -> & Hout).
  { destruct fuel as [|fuel']; simpl in Hcall; rewrite Hp in Hcall;
      apply (forRange_trace Qout) in Hcall; try done;
      intros st p st1 _ (P & HP%deref_Ok & Hinner)%bind_Ok_inv;
      unfold Qout; rewrite HP;
      (apply (forRange_trace Q) in Hinner; [destruct Hinner as (ts & ? & ?); eauto|]);
      intros st2 dp st3 _ (D & HD%deref_Ok & Hrec)%bind_Ok_inv;
      simpl in Hrec; try done.
    apply bind_Ok_inv in Hrec as ([m' t] & Hrec & [= <-]); simpl.
    exists t. split; [done|]. by exists D, fuel', m'. }
  destruct (Forall2_bind_concat Q _ _ _ Hout) as (ts & Heq & Hall).
  exists ts. by rewrite <- Heq.
Qed.

Lemma outcome_rel_Ok_r {A B} (R : A → B → Prop) x b :
  outcome_rel R x (Ok b) → ∃ a, x = Ok a ∧ R a b.
Proof. destruct x; simpl; intros; try done; eauto. Qed.

Lemma dependentsT_Ok g fuel pkgPath recursive m trace :
  dependentsT fuel g pkgPath recursive = Ok (m, trace) →
  dependents fuel g pkgPath recursive = Ok m.
Proof.
  intros Hcall. pose proof (dependentsT_erase g fuel pkgPath recursive) as Hrel.
  rewrite Hcall in Hrel. by apply outcome_rel_Ok_r in Hrel as (m' & -> & ->).
Qed.

Lemma dependenciesT_Ok g fuel pkgPath recursive m trace :
  dependenciesT fuel g pkgPath recursive = Ok (m, trace) →
  dependencies fuel g pkgPath recursive = Ok m.
Proof.
  intros Hcall. pose proof (dependenciesT_erase g fuel pkgPath recursive) as Hrel.
  rewrite Hcall in Hrel. by apply outcome_rel_Ok_r in Hrel as (m' & -> & ->).
Qed.

Lemma AffectedPackagesT_erase Dir g fuel files :
  outcome_rel (λ r rt, r = (rt.1.1, rt.1.2))
    (AffectedPackages Dir fuel g files) (AffectedPackagesT Dir fuel g files).
Proof.
  unfold AffectedPackages, AffectedPackagesT.
  apply (outcome_rel_bind (λ st stt, st = stt.1)).
  - apply forRange_rel; [done|].
    intros [d a] [[d' a'] tr] [id p] _ [= <- <-]. unfold closeOver, closeOverT.
    apply (outcome_rel_bind eq); [apply outcome_rel_refl|]. intros P ? <-.
    apply (outcome_rel_bind (λ m r, m = r.1)); [apply dependentsT_erase|].
    by intros m r ->.
  - by intros st [[d a] tr] ->.
Qed.

Lemma AffectedPackagesT_Ok Dir g fuel files direct transitive trace :
  AffectedPackagesT Dir fuel g files = Ok (direct, transitive, trace) →
  AffectedPackages Dir fuel g files = Ok (direct, transitive).
Proof.
  intros Hcall. pose proof (AffectedPackagesT_erase Dir g fuel files) as Hrel.
  rewrite Hcall in Hrel. by apply outcome_rel_Ok_r in Hrel as (r & -> & ->).
Qed.

(** The trace of one AffectedPackages call is the concatenation of the
    traces of one transitive-dependents query per directly affected unit. *)
Lemma closeLoopT_trace fuel g l d a tr d' a' tr' :
  forRange (closeOverT fuel g) l (d, a, tr) = Ok (d', a', tr') →
  d' = d ++ l.*2 ∧
  ∃ traces, tr' = tr ++ concat traces ∧
    Forall2 (λ p t, ∃ (P : Package) m, packageMap g !! p = Some P ∧
               dependentsT fuel g (PkgPath P) true = Ok (m, t))
            (l.*2) traces.
Proof.
  revert d a tr. induction l as [|[id p] l IH]; intros d a tr; simpl.
  - intros [= <- <- <-]. rewrite app_nil_r. split; [done|].
    exists []. simpl. rewrite app_nil_r. split; [done|constructor].
  - intros ([[d1 a1] tr1] & Hstep & Hrest)%bind_Ok_inv.
    unfold closeOverT in Hstep.
    apply bind_Ok_inv in Hstep as (P & HP%deref_Ok & Hstep).
    apply bind_Ok_inv in Hstep as ([m t] & Hcall & [= <- <- <-]).
    destruct (IH _ _ _ Hrest) as (-> & traces & -> & Hall).
    split; [rewrite <- app_assoc; reflexivity|].
    exists (t :: traces). simpl. rewrite app_assoc. split; [done|].
    constructor; [|done]. by exists P, m.
Qed.

Lemma AffectedPackagesT_trace Dir g fuel files direct transitive trace :
  AffectedPackagesT Dir fuel g files = Ok (direct, transitive, trace) →
  ∃ traces, trace = concat traces ∧
    Forall2 (λ p t, ∃ (P : Package) m, packageMap g !! p = Some P ∧
               dependentsT fuel g (PkgPath P) true = Ok (m, t))
            direct traces.
Proof.
  unfold AffectedPackagesT.
  intros ([[d a] tr] & Hloop & [= <- <- <-])%bind_Ok_inv.
  apply closeLoopT_trace in Hloop as (-> & traces & -> & Hall). eauto.
Qed.

(** C2, as stated, fails on the diamond: the query on the path of D enters
    the path of C once through A and once through B, five expansions for
    four units. *)
Lemma diamond_not_expanded_once : ¬ expands_once diamondGraph.
Proof.
  intros Hclaim.
  destruct (Hclaim 2 "d" _ _ eq_refl) as [_ Hle].
  vm_compute in Hle. lia.
Qed.

(** C2, amended: the recursion accumulates into a result map that is fresh
    for every call and skips nothing: the trace of a transitive query is
    its own path followed by the whole trace of one nested query for every
    dependent (respectively dependency) of every variant of the path, met
    before or not.  Forgetting the trace gives the query itself.  On the
    diamond, a change of D yields the four units, the path of C being
    expanded twice; the dependencies of C expand the path of D twice. *)
Theorem traversal_expands_every_edge g fuel pkgPath m trace :
  (dependentsT fuel g pkgPath true = Ok (m, trace) →
   dependents fuel g pkgPath true = Ok m ∧
   ∃ pkgs subtraces,
     packagePathMap g !! pkgPath = Some pkgs ∧
     trace = pkgPath :: concat subtraces ∧
     Forall2 (λ d t, ∃ (D : Package) fuel' m',
                fuel = S fuel' ∧ packageMap g !! d = Some D ∧
                dependentsT fuel' g (PkgPath D) true = Ok (m', t))
             (dependentsOf g pkgs) subtraces) ∧
  (dependenciesT fuel g pkgPath true = Ok (m, trace) →
   dependencies fuel g pkgPath true = Ok m ∧
   ∃ pkgs subtraces,
     packagePathMap g !! pkgPath = Some pkgs ∧
     trace = pkgPath :: concat subtraces ∧
     Forall2 (λ d t, ∃ (D : Package) fuel' m',
                fuel = S fuel' ∧ packageMap g !! d = Some D ∧
                dependenciesT fuel' g (PkgPath D) true = Ok (m', t))
             (dependenciesOf g pkgs) subtraces) ∧
  (∃ transitive,
     AffectedPackagesT dirname 2 diamondGraph ["d/d.go"]
     = Ok (["D"], transitive, ["d"; "a"; "c"; "b"; "c"]) ∧
     transitive ≡ₚ ["A"; "B"; "C"; "D"]) ∧
  (∃ deps, dependenciesT 2 diamondGraph "c" true
           = Ok (deps, ["c"; "a"; "d"; "b"; "d"]) ∧
           dom deps = {["A"; "B"; "D"]}).
Proof.
  split_and!.
  - intros Hcall. split; [by eapply dependentsT_Ok|by eapply dependentsT_trace].
  - intros Hcall. split; [by eapply dependenciesT_Ok|by eapply dependenciesT_trace].
  - exists ["C"; "A"; "B"; "D"]. split; [by vm_compute|].
    etrans; [apply perm_swap|]. apply perm_skip, perm_swap.
  - eexists. split; [by vm_compute|]. by vm_compute.
Qed.

Lemma traversal_expands_every_edge_witness :
  ∃ m, dependents 2 diamondGraph "d" true = Ok m ∧
    ∃ pkgs subtraces,
      packagePathMap diamondGraph !! "d" = Some pkgs ∧
      ["d"; "a"; "c"; "b"; "c"] = "d" :: concat subtraces ∧
      Forall2 (λ d t, ∃ (D : Package) fuel' m',
                 2 = S fuel' ∧ packageMap diamondGraph !! d = Some D ∧
                 dependentsT fuel' diamondGraph (PkgPath D) true = Ok (m', t))
              (dependentsOf diamondGraph pkgs) subtraces.
Proof.
  eexists.
  eapply (proj1 (traversal_expands_every_edge diamondGraph 2 "d" _
                   ["d"; "a"; "c"; "b"; "c"])).
  vm_compute. reflexivity.
Defined.

(** C3, as stated, fails on the diamond: with A and B both changed, the
    path of C is expanded once for A and once more for B. *)
Lemma diamond_batch_not_expanded_once :
  ¬ batch_expands_once dirname diamondGraph.
Proof.
  intros Hclaim.
  pose proof (Hclaim 2 ["a/a.go"; "b/b.go"] _ _ _ eq_refl) as Hnd.
  vm_compute in Hnd.
  apply NoDup_cons in Hnd as [_ Hnd]. apply NoDup_cons in Hnd as [Hc _].
  apply Hc. right. by left.
Qed.

(** C3, amended: within one invocation of AffectedPackages the closure is
    computed independently for every directly affected unit: the trace of
    the call is the concatenation, over the direct list, of the whole trace
    of a transitive-dependents query on the path of that unit, and nothing
    computed for one unit is reused for another.  Forgetting the trace gives
    AffectedPackages.  On the diamond with A and B changed, the path of C
    is expanded twice. *)
Theorem AffectedPackages_closure_per_unit Dir g fuel files direct transitive trace :
  (AffectedPackagesT Dir fuel g files = Ok (direct, transitive, trace) →
   AffectedPackages Dir fuel g files = Ok (direct, transitive) ∧
   ∃ traces, trace = concat traces ∧
     Forall2 (λ p t, ∃ (P : Package) m, packageMap g !! p = Some P ∧
                dependentsT fuel g (PkgPath P) true = Ok (m, t))
             direct traces) ∧
  AffectedPackagesT dirname 2 diamondGraph ["a/a.go"; "b/b.go"]
  = Ok (["A"; "B"], ["C"; "A"; "B"], ["a"; "c"] ++ ["b"; "c"]).
Proof.
  split; [|by vm_compute].
  intros Hcall. split; [by apply AffectedPackagesT_Ok in Hcall|].
  by eapply AffectedPackagesT_trace.
Qed.

Lemma AffectedPackages_closure_per_unit_witness :
  AffectedPackages dirname 2 diamondGraph ["a/a.go"; "b/b.go"]
  = Ok (["A"; "B"], ["C"; "A"; "B"]) ∧
  ∃ traces, ["a"; "c"; "b"; "c"] = concat traces ∧
    Forall2 (λ p t, ∃ (P : Package) m, packageMap diamondGraph !! p = Some P ∧
               dependentsT 2 diamondGraph (PkgPath P) true = Ok (m, t))
            ["A"; "B"] traces.
Proof.
  apply (proj1 (AffectedPackages_closure_per_unit dirname diamondGraph 2
                  ["a/a.go"; "b/b.go"] ["A"; "B"] ["C"; "A"; "B"]
                  ["a"; "c"; "b"; "c"])).
  vm_compute. reflexivity.
Defined.

(** * Path normalisation *)

Lemma string_length_app (a b : string) :
  String.length (a +:+ b) = String.length a + String.length b.
Proof. induction a as [|c a IH]; simpl; [done|]. by rewrite IH. Qed.

Lemma substring_app_prefix (a b : string) :
  substring 0 (String.length a) (a +:+ b) = a.
Proof. induction a as [|c a IH]; simpl; [by destruct b|]. by rewrite IH. Qed.

Lemma substring_full (b : string) : substring 0 (String.length b) b = b.
Proof. induction b as [|c b IH]; simpl; [done|]. by rewrite IH. Qed.

Lemma substring_app_suffix (a b : string) :
  substring (String.length a) (String.length b) (a +:+ b) = b.
Proof. induction a as [|c a IH]; simpl; [apply substring_full|done]. Qed.

Lemma strings_HasSuffix_app (p suffix : string) :
  strings_HasSuffix (p +:+ suffix) suffix = true.
Proof.
  unfold strings_HasSuffix. rewrite string_length_app.
  replace (String.length p + String.length suffix - String.length suffix)
    with (String.length p) by lia.
  rewrite substring_app_suffix, String.eqb_refl, andb_true_r.
  apply Nat.leb_le. lia.
Qed.

Lemma strings_TrimSuffix_app (p suffix : string) :
  strings_TrimSuffix (p +:+ suffix) suffix = p.
Proof.
  unfold strings_TrimSuffix. rewrite strings_HasSuffix_app, string_length_app.
  replace (String.length p + String.length suffix - String.length suffix)
    with (String.length p) by lia.
  apply substring_app_prefix.
Qed.

Lemma substring_split (n : nat) (s : string) :
  n ≤ String.length s →
  substring 0 n s +:+ substring n (String.length s - n) s = s.
Proof.
  revert s; induction n as [|n IH]; intros s Hn; simpl.
  - rewrite Nat.sub_0_r. destruct s; simpl; [done|]. by rewrite substring_full.
  - destruct s as [|c s]; simpl in *; [lia|].
    change (String c (substring 0 n s +:+ substring n (String.length s - n) s) = String c s).
    f_equal. apply IH. lia.
Qed.

(** A string has a suffix exactly when it is something followed by it. *)
Lemma strings_HasSuffix_true (s suffix : string) :
  strings_HasSuffix s suffix = true ↔ ∃ p, s = p +:+ suffix.
Proof.
  split; [|intros [p ->]; apply strings_HasSuffix_app].
  unfold strings_HasSuffix.
  intros [Hle%Nat.leb_le Heq%String.eqb_eq]%andb_true_iff.
  exists (substring 0 (String.length s - String.length suffix) s).
  pose proof (substring_split (String.length s - String.length suffix) s) as H.
  replace (String.length s - (String.length s - String.length suffix))
    with (String.length suffix) in H by lia.
  rewrite Heq in H. symmetry. apply H. lia.
Qed.


(** * The order on strings *)

Lemma string_lt_le (a b : string) : string_lt a b ↔ String.le a b ∧ a ≠ b.
Proof.
  unfold string_lt, String.le, String.ltb, String.leb. split.
  - destruct (a ?= b)%string eqn:E; try done. intros _. split; [done|].
    intros ->. pose proof (String.compare_antisym b b) as Hanti.
    rewrite E in Hanti. discriminate.
  - intros [Hle Hne]. destruct (a ?= b)%string eqn:E; try done.
    by apply String.compare_eq_iff in E.
Qed.

Lemma string_lt_irrefl (a : string) : ¬ string_lt a a.
Proof. by intros [_ ?]%string_lt_le. Qed.

Lemma string_lt_trans (a b c : string) :
  string_lt a b → string_lt b c → string_lt a c.
Proof.
  rewrite !string_lt_le. intros [Hab Hne] [Hbc Hne']. split; [by etrans|].
  intros ->. apply Hne. by apply (anti_symm String.le).
Qed.

Lemma string_lt_trichotomy (a b : string) :
  string_lt a b ∨ a = b ∨ string_lt b a.
Proof.
  destruct (decide (a = b)) as [->|Hne]; [auto|].
  destruct (total String.le a b); [left|right; right];
    apply string_lt_le; split; auto.
Qed.

(** * Sorting *)

Lemma insertSorted_perm {A} (less : A → A → bool) x l :
  insertSorted less x l ≡ₚ x :: l.
Proof.
  induction l as [|y l IH]; simpl; [done|].
  destruct (less y x); [|done]. rewrite IH. apply perm_swap.
Qed.

Lemma sort_Slice_perm {A} (less : A → A → bool) l : sort_Slice less l ≡ₚ l.
Proof.
  induction l as [|x l IH]; simpl; [done|].
  fold (sort_Slice less l). by rewrite insertSorted_perm, IH.
Qed.

Section Sorting.
Context {A : Type} (less : A → A → bool) (R : relation A).
Hypothesis less_spec : ∀ x y, less x y = true ↔ R x y.
Hypothesis R_trans : ∀ x y z, R x y → R y z → R x z.
Hypothesis R_tricho : ∀ x y, R x y ∨ x = y ∨ R y x.

Lemma insertSorted_sorted x l :
  StronglySorted R l → x ∉ l → StronglySorted R (insertSorted less x l).
Proof.
  induction 1 as [|y l Hl IH Hy]; intros Hx; simpl.
  - repeat constructor.
  - apply not_elem_of_cons in Hx as [Hne Hx].
    destruct (less y x) eqn:E.
    + constructor; [by apply IH|].
      rewrite insertSorted_perm. constructor; [by apply less_spec|done].
    + assert (R x y) as Hxy.
      { destruct (R_tricho x y) as [?|[?|Hyx%less_spec]]; [done|done|congruence]. }
      constructor; [by constructor|]. constructor; [done|].
      eapply Forall_impl; [exact Hy|]. intros z ?. by eapply R_trans.
Qed.

Lemma sort_Slice_sorted l : NoDup l → StronglySorted R (sort_Slice less l).
Proof.
  induction 1 as [|x l Hx _ IH]; simpl; [constructor|].
  fold (sort_Slice less l). apply insertSorted_sorted; [done|].
  by rewrite sort_Slice_perm.
Qed.
End Sorting.

Lemma string_sort_sorted l :
  NoDup l → StronglySorted string_lt (sort_Slice String.ltb l).
Proof.
  apply sort_Slice_sorted; [done|apply string_lt_trans|apply string_lt_trichotomy].
Qed.

Lemma string_sorted_NoDup l : StronglySorted string_lt l → NoDup l.
Proof.
  induction 1 as [|x l _ IH Hx]; constructor; [|done].
  intros Hin. rewrite Forall_forall in Hx. by apply (string_lt_irrefl x), Hx.
Qed.

(** Two strictly ascending lists with the same members are the same list. *)
Lemma string_sorted_unique l1 l2 :
  StronglySorted string_lt l1 → StronglySorted string_lt l2 →
  (∀ x, x ∈ l1 ↔ x ∈ l2) → l1 = l2.
Proof.
  intros H1 H2 Heq. apply (StronglySorted_unique_strong string_lt); [|done..|].
  - intros x y _ _ Hxy Hyx. destruct (string_lt_irrefl x). by eapply string_lt_trans.
  - apply NoDup_Permutation; auto using string_sorted_NoDup.
Qed.

(** * UniquePackagePaths *)

Lemma addPackagePath_normalizedPath m pkg :
  addPackagePath m pkg = {[ normalizedPath (PkgPath pkg) ]} ∪ m.
Proof.
  unfold addPackagePath, normalizedPath.
  by destruct (strings_HasSuffix (PkgPath pkg) "_test"),
    (strings_HasSuffix (PkgPath pkg) ".test").
Qed.

Lemma foldl_addPackagePath pkgs (m : gset string) :
  foldl addPackagePath m pkgs =
  list_to_set ((λ pkg : Package, normalizedPath (PkgPath pkg)) <$> pkgs) ∪ m.
Proof.
  revert m; induction pkgs as [|pkg pkgs IH]; intros m; simpl.
  - set_solver.
  - rewrite IH, addPackagePath_normalizedPath. set_solver.
Qed.

Lemma elem_of_UniquePackagePaths pkgs x :
  x ∈ UniquePackagePaths pkgs ↔
  ∃ pkg : Package, pkg ∈ pkgs ∧ x = normalizedPath (PkgPath pkg).
Proof.
  unfold UniquePackagePaths.
  rewrite sort_Slice_perm, elem_of_elements, foldl_addPackagePath.
  rewrite elem_of_union, elem_of_list_to_set, list_elem_of_fmap. set_solver.
Qed.

Lemma UniquePackagePaths_sorted pkgs :
  StronglySorted string_lt (UniquePackagePaths pkgs).
Proof. apply string_sort_sorted, NoDup_elements. Qed.

Lemma UniquePackagePaths_ext pkgs pkgs' :
  (∀ x, (∃ pkg : Package, pkg ∈ pkgs ∧ x = normalizedPath (PkgPath pkg)) ↔
        (∃ pkg : Package, pkg ∈ pkgs' ∧ x = normalizedPath (PkgPath pkg))) →
  UniquePackagePaths pkgs = UniquePackagePaths pkgs'.
Proof.
  intros Heq. apply string_sorted_unique; try apply UniquePackagePaths_sorted.
  intros x. by rewrite !elem_of_UniquePackagePaths.
Qed.

Lemma normalizedPath_unsuffixed p : suffixed p = false → normalizedPath p = p.
Proof.
  unfold suffixed, normalizedPath. intros [-> ->]%orb_false_iff. done.
Qed.

Lemma normalizedPath_test_binary p : normalizedPath (p +:+ ".test") = p.
Proof.
  unfold normalizedPath.
  assert (strings_HasSuffix (p +:+ ".test") "_test" = false) as ->.
  { unfold strings_HasSuffix. rewrite string_length_app.
    replace (String.length p + String.length ".test" - String.length "_test")
      with (String.length p) by (simpl; lia).
    change (String.length "_test") with (String.length ".test") at 2.
    rewrite substring_app_suffix. by rewrite andb_false_r. }
  by rewrite strings_HasSuffix_app, strings_TrimSuffix_app.
Qed.

Lemma normalizedPath_test_package p : normalizedPath (p +:+ "_test") = p.
Proof.
  unfold normalizedPath.
  by rewrite strings_HasSuffix_app, strings_TrimSuffix_app.
Qed.

Lemma UniquePackagePaths_ascending pkgs :
  StronglySorted string_lt ((λ pkg : Package, PkgPath pkg) <$> pkgs) →
  Forall (λ pkg : Package, suffixed (PkgPath pkg) = false) pkgs →
  UniquePackagePaths pkgs = (λ pkg : Package, PkgPath pkg) <$> pkgs.
Proof.
  intros Hsorted Hplain.
  apply string_sorted_unique; [apply UniquePackagePaths_sorted|done|].
  intros x. rewrite elem_of_UniquePackagePaths, list_elem_of_fmap.
  rewrite Forall_forall in Hplain.
  split; intros (pkg & H1 & H2); exists pkg.
  - subst x. rewrite normalizedPath_unsuffixed by auto. done.
  - subst x. rewrite normalizedPath_unsuffixed by auto. done.
Qed.

(** X1: UniquePackagePaths returns a strictly ascending list, hence one
    without duplicates, whose members are exactly the normalised import
    paths of the units given; it is never longer than its input and is
    empty only for an empty input. *)
Theorem UniquePackagePaths_spec pkgs :
  StronglySorted string_lt (UniquePackagePaths pkgs) ∧
  NoDup (UniquePackagePaths pkgs) ∧
  (∀ x, x ∈ UniquePackagePaths pkgs ↔
        ∃ pkg : Package, pkg ∈ pkgs ∧ x = normalizedPath (PkgPath pkg)) ∧
  length (UniquePackagePaths pkgs) ≤ length pkgs ∧
  (UniquePackagePaths pkgs = [] ↔ pkgs = []).
Proof.
  split_and!.
  - apply UniquePackagePaths_sorted.
  - apply string_sorted_NoDup, UniquePackagePaths_sorted.
  - apply elem_of_UniquePackagePaths.
  - rewrite <- (length_fmap (λ pkg : Package, normalizedPath (PkgPath pkg)) pkgs).
    apply submseteq_length, NoDup_submseteq.
    + apply string_sorted_NoDup, UniquePackagePaths_sorted.
    + intros x (pkg & Hin & ->)%elem_of_UniquePackagePaths.
      apply list_elem_of_fmap. eauto.
  - split; [|by intros ->].
    destruct pkgs as [|pkg pkgs]; [done|]. intros Hnil.
    assert (normalizedPath (PkgPath pkg) ∈ UniquePackagePaths (pkg :: pkgs)) as Hin.
    { apply elem_of_UniquePackagePaths. exists pkg. split; [by left|done]. }
    rewrite Hnil in Hin. by apply elem_of_nil in Hin.
Qed.

(** X2: the result of UniquePackagePaths depends neither on the order of
    the units given nor on the order in which the path set is ranged over:
    sorting any enumeration of the set built from any reordering of the
    input gives the same list. *)
Theorem UniquePackagePaths_order_independent pkgs pkgs' pkgPaths :
  pkgs ≡ₚ pkgs' →
  pkgPaths ≡ₚ elements (foldl addPackagePath ∅ pkgs') →
  sort_Slice String.ltb pkgPaths = UniquePackagePaths pkgs.
Proof.
  intros Hperm Hpaths.
  assert (NoDup pkgPaths) as Hnd by (rewrite Hpaths; apply NoDup_elements).
  apply string_sorted_unique;
    [by apply string_sort_sorted|apply UniquePackagePaths_sorted|].
  intros x. rewrite sort_Slice_perm, Hpaths, elem_of_elements.
  rewrite elem_of_UniquePackagePaths, foldl_addPackagePath.
  rewrite elem_of_union, elem_of_list_to_set, list_elem_of_fmap.
  setoid_rewrite Hperm. set_solver.
Qed.

Lemma UniquePackagePaths_order_independent_witness :
  sort_Slice String.ltb ["b"; "c"; "a"]
  = UniquePackagePaths [standIn "c"; standIn "a_test"; standIn "b"; standIn "a"].
Proof.
  apply (UniquePackagePaths_order_independent _
           [standIn "a"; standIn "b"; standIn "c"; standIn "a_test"]).
  - change [standIn "c"; standIn "a_test"; standIn "b"; standIn "a"]
      with ([standIn "c"; standIn "a_test"] ++ [standIn "b"; standIn "a"]).
    rewrite Permutation_app_comm. simpl.
    etrans; [apply perm_swap|]. apply perm_skip, perm_skip. done.
  - vm_compute. etrans; [apply perm_swap|]. apply perm_skip, perm_swap.
Defined.

(** X3: a path followed by the internal-test suffix or by the test-binary
    suffix normalises to the path itself, whatever the path; and a test
    variant of a unit that is present, with a path that carries no suffix
    of its own, adds nothing to the result of UniquePackagePaths. *)
Theorem test_variants_fold p (t : Package) before after :
  normalizedPath (p +:+ "_test") = p ∧
  normalizedPath (p +:+ ".test") = p ∧
  (suffixed p = false →
   PkgPath t = p +:+ "_test" ∨ PkgPath t = p +:+ ".test" →
   (∃ pkg : Package, pkg ∈ before ++ after ∧ PkgPath pkg = p) →
   UniquePackagePaths (before ++ t :: after) = UniquePackagePaths (before ++ after)).
Proof.
  split_and!.
  - apply normalizedPath_test_package.
  - apply normalizedPath_test_binary.
  - intros Hp Ht (pkg0 & Hin0 & Hpkg0).
    assert (normalizedPath (PkgPath t) = normalizedPath (PkgPath pkg0)) as Hsame.
    { rewrite Hpkg0, (normalizedPath_unsuffixed p Hp).
      destruct Ht as [-> | ->];
        [apply normalizedPath_test_package|apply normalizedPath_test_binary]. }
    apply UniquePackagePaths_ext. intros x.
    split; intros (pkg & Hin & ->).
    + apply elem_of_app in Hin as [Hin|[->|Hin]%elem_of_cons].
      * exists pkg. split; [|done]. apply elem_of_app; auto.
      * exists pkg0. by split.
      * exists pkg. split; [|done]. apply elem_of_app; auto.
    + exists pkg. split; [|done].
      apply elem_of_app in Hin as [Hin|Hin]; apply elem_of_app; [by left|].
      right. by right.
Qed.

Lemma test_variants_fold_witness :
  UniquePackagePaths ([standIn "foo"] ++ standIn "foo_test" :: [standIn "foo.test"])
  = UniquePackagePaths ([standIn "foo"] ++ [standIn "foo.test"]).
Proof.
  apply (test_variants_fold "foo" (standIn "foo_test")
           [standIn "foo"] [standIn "foo.test"]).
  - reflexivity.
  - left. reflexivity.
  - exists (standIn "foo"). split; [by left|reflexivity].
Defined.

(** * The JSON mapping *)

Lemma foldl_appendDependency k l deps k' :
  foldl (appendDependency k) deps l !! k' =
  if decide (k' = k ∧ l ≠ [])
  then Some (default [] (deps !! k) ++ (standIn <$> l))
  else deps !! k'.
Proof.
  revert deps; induction l as [|vv l IH]; intros deps; simpl.
  - by rewrite decide_False by naive_solver.
  - rewrite IH. unfold appendDependency.
    destruct (decide (k' = k)) as [->|Hne].
    + rewrite (decide_True (P := k = k ∧ vv :: l ≠ [])) by done.
      rewrite lookup_insert_eq; simpl.
      destruct l; [by rewrite decide_False by naive_solver|].
      rewrite decide_True by done. by rewrite <- app_assoc.
    + rewrite !decide_False by naive_solver. by rewrite lookup_insert_ne.
Qed.

Lemma decodeLoop_lookup (entries : list (string * list string)) deps k :
  NoDup entries.*1 →
  foldl (λ deps (kv : string * list string),
           foldl (appendDependency kv.1) deps kv.2) deps entries !! k =
  match (list_to_map entries : gmap string (list string)) !! k with
  | Some (x :: l) => Some (default [] (deps !! k) ++ (standIn <$> x :: l))
  | _ => deps !! k
  end.
Proof.
  revert deps; induction entries as [|[k0 l0] entries IH]; intros deps Hnd; simpl.
  - by rewrite lookup_empty.
  - apply NoDup_cons in Hnd as [Hk0 Hnd]. rewrite IH by done.
    destruct (decide (k = k0)) as [->|Hne].
    + rewrite lookup_insert_eq.
      assert ((list_to_map entries : gmap string (list string)) !! k0 = None) as ->.
      { by apply not_elem_of_list_to_map_1. }
      rewrite foldl_appendDependency.
      destruct l0; [by rewrite decide_False by naive_solver|].
      by rewrite decide_True by done.
    + rewrite lookup_insert_ne by done.
      rewrite !foldl_appendDependency, !decide_False by naive_solver. done.
Qed.

Lemma decodeDependencies_lookup (m : gmap string (list string)) k :
  decodeDependencies m !! k =
  match m !! k with
  | Some (x :: l) => Some (standIn <$> x :: l)
  | _ => None
  end.
Proof.
  unfold decodeDependencies.
  rewrite decodeLoop_lookup by apply NoDup_fst_map_to_list.
  rewrite list_to_map_to_list, lookup_empty. done.
Qed.

Lemma UniquePackagePaths_nil_iff pkgs : UniquePackagePaths pkgs = [] ↔ pkgs = [].
Proof.
  split; [|by intros ->].
  destruct pkgs as [|pkg pkgs]; [done|]. intros Hnil.
  assert (normalizedPath (PkgPath pkg) ∈ UniquePackagePaths (pkg :: pkgs)) as Hin.
  { apply elem_of_UniquePackagePaths. exists pkg. split; [by left|done]. }
  rewrite Hnil in Hin. by apply elem_of_nil in Hin.
Qed.

Section RoundTrip.
Context {bytes : Type}.
Variable json_Marshal : packagesJSON → outcome bytes.
Variable json_Unmarshal : bytes → outcome (option packagesJSON).

Lemma roundtrip_decoded p b :
  MarshalJSON json_Marshal p = Ok b →
  json_Unmarshal b = Ok (Some (wireForm p)) →
  UnmarshalJSON json_Unmarshal newPackages b =
  Ok {| Packages_Dependencies := decodeDependencies (mapify (Packages_Dependencies p));
        Changes := standIn <$> UniquePackagePaths (Changes p);
        AllChanges := standIn <$> UniquePackagePaths (AllChanges p) |}.
Proof. intros _ Hdec. unfold UnmarshalJSON. by rewrite Hdec. Qed.

Lemma decoded_dependencies_lookup (deps : gmap string (list Package)) k :
  decodeDependencies (mapify deps) !! k =
  match deps !! k with
  | Some (x :: l) => Some (standIn <$> UniquePackagePaths (x :: l))
  | _ => None
  end.
Proof.
  rewrite decodeDependencies_lookup. unfold mapify. rewrite lookup_fmap.
  destruct (deps !! k) as [l|]; simpl; [|done].
  destruct l as [|x l]; [done|].
  destruct (UniquePackagePaths (x :: l)) eqn:E; [|done].
  by apply UniquePackagePaths_nil_iff in E.
Qed.

End RoundTrip.

(** X5: encoding a Packages value and decoding the result into a fresh
    value, with a codec that reads back the wire form it wrote, yields the
    stand-ins of the normalised, deduplicated, ascending paths of Changes
    and of AllChanges and, under every key of Dependencies whose list is
    not empty, those of that list; a key whose list is empty is gone after
    the round trip. *)
Theorem roundtrip_normalises {bytes} (json_Marshal : packagesJSON → outcome bytes)
    (json_Unmarshal : bytes → outcome (option packagesJSON)) p b :
  MarshalJSON json_Marshal p = Ok b →
  json_Unmarshal b = Ok (Some (wireForm p)) →
  ∃ q, UnmarshalJSON json_Unmarshal newPackages b = Ok q ∧
    Changes q = standIn <$> UniquePackagePaths (Changes p) ∧
    AllChanges q = standIn <$> UniquePackagePaths (AllChanges p) ∧
    (∀ k l, Packages_Dependencies p !! k = Some l → l ≠ [] →
       Packages_Dependencies q !! k = Some (standIn <$> UniquePackagePaths l)) ∧
    (∀ k, Packages_Dependencies p !! k = Some [] ∨
          Packages_Dependencies p !! k = None →
       Packages_Dependencies q !! k = None).
Proof.
  intros Henc Hdec. eexists. split; [by apply (roundtrip_decoded json_Marshal)|]. simpl.
  split_and!; [done..| |].
  - intros k l Hk Hne. rewrite decoded_dependencies_lookup, Hk. by destruct l.
  - intros k Hk. rewrite decoded_dependencies_lookup. by destruct Hk as [-> | ->].
Qed.

Lemma roundtrip_normalises_witness :
  ∃ q, UnmarshalJSON doc_Unmarshal newPackages variantDoc = Ok q ∧
    Changes q = [standIn "lib"] ∧
    AllChanges q = [standIn "app"; standIn "lib"] ∧
    Packages_Dependencies q !! "lib" = Some [standIn "app"] ∧
    Packages_Dependencies q !! "leaf" = None.
Proof.
  destruct (roundtrip_normalises doc_Marshal doc_Unmarshal variantPackages variantDoc)
    as (q & Hq & Hc & Ha & Hd & He); [by vm_compute..|].
  exists q. split_and!; [done..| |].
  - by rewrite (Hd "lib" _ eq_refl).
  - apply He. by left.
Defined.



(** X4: on units whose import paths are strictly ascending and carry no
    test suffix, UniquePackagePaths returns the paths as they are, and the
    stand-ins of these paths are in normal form. *)
Theorem UniquePackagePaths_fixed_point pkgs :
  StronglySorted string_lt ((λ pkg : Package, PkgPath pkg) <$> pkgs) →
  Forall (λ pkg : Package, suffixed (PkgPath pkg) = false) pkgs →
  UniquePackagePaths pkgs = (λ pkg : Package, PkgPath pkg) <$> pkgs ∧
  normalForm (standIn <$> ((λ pkg : Package, PkgPath pkg) <$> pkgs)).
Proof.
  intros Hsorted Hplain. split; [by apply UniquePackagePaths_ascending|].
  assert (Hid : ∀ l : list string,
            (λ pkg : Package, PkgPath pkg) <$> (standIn <$> l) = l).
  { induction l as [|x l IH]; simpl; [done|]. by f_equal. }
  unfold normalForm. f_equal.
  rewrite UniquePackagePaths_ascending; rewrite ?Hid; [done..|].
  rewrite Forall_forall in Hplain. apply Forall_forall.
  intros pkg (x & -> & (pkg0 & -> & Hin)%list_elem_of_fmap)%list_elem_of_fmap.
  simpl. auto.
Qed.

Lemma UniquePackagePaths_fixed_point_witness :
  UniquePackagePaths [standIn "a"; standIn "a/b"; standIn "c"] = ["a"; "a/b"; "c"].
Proof.
  apply (UniquePackagePaths_fixed_point [standIn "a"; standIn "a/b"; standIn "c"]).
  - repeat constructor.
  - repeat constructor.
Defined.

(** * What a built graph holds *)

Lemma extends_refl dg : extends dg dg.
Proof. intros id P HP. exists P. done. Qed.

Lemma extends_trans dg1 dg2 dg3 :
  extends dg1 dg2 → extends dg2 dg3 → extends dg1 dg3.
Proof.
  intros H12 H23 id P HP.
  destruct (H12 id P HP) as (P2 & HP2 & He2 & Hd2 & Ht2).
  destruct (H23 id P2 HP2) as (P3 & HP3 & He3 & Hd3 & Ht3).
  exists P3. split_and!; [done|congruence|auto..].
Qed.

Section Complete.
Variable filepath_Dir : string → string.

Lemma link_extends new dependency dg : extends dg (link new dependency dependency dg).
Proof.
  intros id P HP. rewrite link_lookup, HP; simpl. eexists; split; [done|].
  unfold linked; simpl. split_and!; [done| |]; intros k Hk; case_decide;
    rewrite ?insert_self_lookup; auto.
Qed.

Lemma registerFiles_index new files dg :
  let dg' := foldl (registerFile filepath_Dir new) dg files in
  packageMap dg' = packageMap dg ∧
  packagePathMap dg' = packagePathMap dg ∧
  (∀ f, fileMap dg' !! f = if decide (f ∈ files) then Some new else fileMap dg !! f) ∧
  (∀ d, dirMap dg' !! d =
        if decide (d ∈ filepath_Dir <$> files)
        then Some (<[new := new]> (default ∅ (dirMap dg !! d)))
        else dirMap dg !! d).
Proof.
  revert dg; induction files as [|f files IH]; intros dg.
  - split_and!; [done..| |]; intros x; case_decide as Hx; [|done| |done];
      by apply elem_of_nil in Hx.
  - cbn [foldl].
    destruct (IH (registerFile filepath_Dir new dg f)) as (Hpm & Hpp & Hfm & Hdm).
    split_and!; [done..| |].
    + intros f'. rewrite Hfm. cbn [fileMap registerFile].
      destruct (decide (f' = f)) as [->|Hne].
      * rewrite lookup_insert_eq. rewrite (decide_True (P := f ∈ f :: files)) by by left.
        by case_decide.
      * rewrite lookup_insert_ne by done.
        destruct (decide (f' ∈ files)).
        -- rewrite decide_True; [done|by right].
        -- rewrite decide_False; [done|]. by intros [?|?]%elem_of_cons.
    + intros d. rewrite Hdm. cbn [dirMap registerFile].
      rewrite fmap_cons.
      destruct (decide (filepath_Dir f = d)) as [<-|Hne].
      * rewrite lookup_insert_eq.
        rewrite (decide_True (P := _ ∈ _ :: _)) by by left.
        case_decide; [|done]. simpl. by rewrite insert_insert_eq.
      * rewrite lookup_insert_ne by done.
        destruct (decide (d ∈ filepath_Dir <$> files)) as [Hex|Hno].
        -- rewrite decide_True; [done|by right].
        -- rewrite decide_False; [done|]. by intros [?|?]%elem_of_cons.
Qed.

Lemma registerPackage_complete pkg dg open :
  wf_graph dg → packageMap dg !! ID pkg = None →
  edges_inv open dg → files_inv filepath_Dir dg →
  edges_inv (open ∪ {[ID pkg]}) (registerPackage filepath_Dir pkg dg) ∧
  files_inv filepath_Dir (registerPackage filepath_Dir pkg dg) ∧
  extends dg (registerPackage filepath_Dir pkg dg) ∧
  packageMap (registerPackage filepath_Dir pkg dg) !! ID pkg = Some (mkPackage pkg ∅ ∅).
Proof.
  intros Hwf Hfresh [eS eC] [fO fD fI].
  destruct (registerPackage_packageMap filepath_Dir pkg dg Hwf Hfresh) as [Hpm _].
  unfold registerPackage in *.
  match goal with |- context [foldl _ ?dg1 _] => set (d1 := dg1) in * end.
  destruct (registerFiles_index (ID pkg) (allFiles pkg) d1) as (_ & _ & Hfm & Hdm).
  set (dg' := foldl (registerFile filepath_Dir (ID pkg)) d1 (allFiles pkg)) in *.
  change (fileMap d1) with (fileMap dg) in Hfm.
  change (dirMap d1) with (dirMap dg) in Hdm.
  assert (Hold : ∀ id P, packageMap dg !! id = Some P → packageMap dg' !! id = Some P).
  { intros id P HP. rewrite Hpm, lookup_insert_ne; [done|]. intros <-. congruence. }
  split_and!.
  - split.
    + intros id P k q. rewrite Hpm.
      intros [[<- <-]|[_ HP]]%lookup_insert_Some; [simpl; by rewrite lookup_empty|eauto].
    + intros id P imp. rewrite Hpm.
      intros [[<- <-]|[_ HP]]%lookup_insert_Some Hopen; [set_solver|].
      apply (eC id P imp HP). set_solver.
  - split.
    + intros f owner. rewrite Hfm. case_decide as Hf.
      * intros [= <-]. exists (mkPackage pkg ∅ ∅). rewrite Hpm, lookup_insert_eq. done.
      * intros Hold'. destruct (fO f owner Hold') as (O & HO & HfO). eauto.
    + intros d dm k id. rewrite Hdm. case_decide as Hd.
      * intros [= <-]. apply list_elem_of_fmap in Hd as (f & -> & Hf).
        intros [[<- <-]|[_ Hk]]%lookup_insert_Some.
        -- exists (mkPackage pkg ∅ ∅), f. rewrite Hpm, lookup_insert_eq. done.
        -- destruct (dirMap dg !! filepath_Dir f) as [dm0|] eqn:Edm; simpl in Hk;
             [|by rewrite lookup_empty in Hk].
           destruct (fD _ _ _ _ Edm Hk) as (P & f0 & HP & ? & ?). eauto 6.
      * intros Hdd Hk. destruct (fD _ _ _ _ Hdd Hk) as (P & f0 & HP & ? & ?). eauto 6.
    + intros id P f. rewrite Hpm.
      intros [[<- <-]|[Hne HP]]%lookup_insert_Some Hf.
      * rewrite Hfm, Hdm. rewrite decide_True by done.
        rewrite decide_True by (apply list_elem_of_fmap; eauto).
        split; [eauto|]. eexists; split; [done|]. by rewrite lookup_insert_eq.
      * destruct (fI id P f HP Hf) as [Hsome (dm & Hdm0 & Hid)].
        rewrite Hfm, Hdm. split; [by case_decide; eauto|].
        case_decide.
        -- eexists; split; [done|]. rewrite Hdm0; simpl.
           by rewrite lookup_insert_ne.
        -- eauto.
  - intros id P HP. exists P. split_and!; auto.
  - by rewrite Hpm, lookup_insert_eq.
Qed.

Lemma link_complete new dependency dg open :
  edges_inv open dg → files_inv filepath_Dir dg → new ∈ open →
  (∀ P : Package, packageMap dg !! new = Some P →
     ∃ imp, imp ∈ Imports P ∧ ID imp = dependency) →
  edges_inv open (link new dependency dependency dg) ∧
  files_inv filepath_Dir (link new dependency dependency dg).
Proof.
  intros [eS eC] [fO fD fI] Hopen Himp. split; split.
  - intros id P k q. rewrite link_lookup.
    intros (P0 & HP0 & ->)%fmap_Some; simpl. case_decide; [subst id|eauto].
    intros [[<- <-]|[_ Hk]]%lookup_insert_Some; eauto.
  - intros id P imp. rewrite link_lookup.
    intros (P0 & HP0 & ->)%fmap_Some Hid; simpl.
    rewrite decide_False by (intros ->; done). eauto.
  - intros f owner Hf. simpl in Hf. destruct (fO f owner Hf) as (O & HO & HfO).
    exists (linked new dependency owner O). rewrite link_lookup, HO. done.
  - intros d dm k id Hd Hk. simpl in Hd.
    destruct (fD _ _ _ _ Hd Hk) as (P & f & HP & ? & ?).
    exists (linked new dependency id P), f. rewrite link_lookup, HP. done.
  - intros id P f. rewrite link_lookup.
    intros (P0 & HP0 & ->)%fmap_Some; simpl. intros Hf.
    apply (fI id P0 f HP0 Hf).
Qed.

Lemma importLoop_complete new pkg open imports :
  Forall (addPackage_complete filepath_Dir) imports →
  ∀ dg, wf_graph dg → edges_inv open dg → files_inv filepath_Dir dg →
    new ∈ open →
    (∃ P : Package, packageMap dg !! new = Some P ∧ embedded P = pkg) →
    (∀ imp, imp ∈ imports → imp ∈ Imports pkg) →
    edges_inv open (importLoop filepath_Dir new imports dg) ∧
    files_inv filepath_Dir (importLoop filepath_Dir new imports dg) ∧
    extends dg (importLoop filepath_Dir new imports dg) ∧
    ∃ P' : Package,
      packageMap (importLoop filepath_Dir new imports dg) !! new = Some P' ∧
      ∀ imp, imp ∈ imports → Dependencies P' !! ID imp = Some (ID imp).
Proof.
  induction 1 as [|imp imports Himp _ IH];
    intros dg Hwf He Hf Hopen (P & HP & HPe) Hsub; simpl.
  - split_and!; [done..|apply extends_refl|].
    exists P. split; [done|]. intros imp []%elem_of_nil.
  - destruct (Himp open dg Hwf He Hf) as (He1 & Hf1 & Hext1).
    destruct (addPackage_wf filepath_Dir imp dg Hwf) as (Hwf1 & Hret & Hreg & Hmono).
    destruct (addPackage filepath_Dir imp dg) as [dg1 dependency];
      simpl in *; subst dependency.
    destruct (Hext1 new P HP) as (P1 & HP1 & HPe1 & _ & _).
    assert (registered dg1 new) as Hnew1 by by exists P1.
    destruct (link_complete new (ID imp) dg1 open He1 Hf1 Hopen) as [He2 Hf2].
    { intros P1' HP1'. assert (P1' = P1) as -> by congruence.
      exists imp. split; [|done]. rewrite HPe1, HPe. apply Hsub. by left. }
    pose proof (link_extends new (ID imp) dg1) as Hext2.
    pose proof (link_wf filepath_Dir new (ID imp) dg1 Hwf1 Hnew1 Hreg) as Hwf2.
    destruct (IH (link new (ID imp) (ID imp) dg1) Hwf2 He2 Hf2 Hopen)
      as (He3 & Hf3 & Hext3 & P3 & HP3 & Hdeps3).
    { exists (linked new (ID imp) new P1). rewrite link_lookup, HP1; simpl.
      split; [done|]. congruence. }
    { intros; apply Hsub; by right. }
    split_and!; [done..| |].
    + eapply extends_trans; [exact Hext1|]. eapply extends_trans; eauto.
    + exists P3. split; [done|].
      intros imp' [->|Hin]%elem_of_cons; [|by apply Hdeps3].
      destruct (Hext3 new (linked new (ID imp) new P1)) as (P3' & HP3' & _ & Hd & _).
      { by rewrite link_lookup, HP1. }
      assert (P3' = P3) as -> by congruence.
      apply Hd. unfold linked; simpl. rewrite decide_True by done.
      by rewrite lookup_insert_eq.
Qed.

Lemma addPackage_is_complete pkg : addPackage_complete filepath_Dir pkg.
Proof.
  induction pkg as [pkg IH] using packages_Package_nested_ind.
  intros open dg Hwf He Hf. rewrite addPackage_unfold.
  destruct (packageMap dg !! ID pkg) as [P|] eqn:E; simpl.
  - split_and!; [done..|apply extends_refl].
  - destruct (registerPackage_complete pkg dg open Hwf E He Hf)
      as (He1 & Hf1 & Hext1 & Hnew1).
    destruct (registerPackage_packageMap filepath_Dir pkg dg Hwf E) as [_ Hwf1].
    destruct (importLoop_complete (ID pkg) pkg (open ∪ {[ID pkg]}) (Imports pkg) IH
                _ Hwf1 He1 Hf1) as (He2 & Hf2 & Hext2 & P2 & HP2 & Hdeps2).
    { set_solver. }
    { eauto. }
    { done. }
    split_and!; [|done|by eapply extends_trans].
    destruct He2 as [eS eC]. split; [done|].
    intros id P imp HP Hopen Himp.
    destruct (decide (id = ID pkg)) as [->|Hne]; [|apply (eC id P imp HP); set_solver].
    assert (P = P2) as -> by congruence.
    apply Hdeps2.
    destruct (Hext2 (ID pkg) _ Hnew1) as (P2' & HP2' & HPe & _).
    assert (P2' = P2) as -> by congruence.
    by rewrite HPe in Himp.
Qed.

Lemma edges_inv_empty open : edges_inv open emptyGraph.
Proof. split; simpl; intros; simplify_map_eq. Qed.

Lemma files_inv_empty : files_inv filepath_Dir emptyGraph.
Proof. split; simpl; intros; simplify_map_eq. Qed.

Lemma buildGraph_from_complete pkgs dg :
  wf_graph dg → edges_inv ∅ dg → files_inv filepath_Dir dg →
  let dg' := foldl (λ dg pkg, (addPackage filepath_Dir pkg dg).1) dg pkgs in
  edges_inv ∅ dg' ∧ files_inv filepath_Dir dg' ∧
  (∀ p, registered dg p → registered dg' p) ∧
  (∀ pkg, pkg ∈ pkgs → registered dg' (ID pkg)).
Proof.
  revert dg; induction pkgs as [|pkg pkgs IH]; intros dg Hwf He Hf; simpl.
  - split_and!; [done..|]. intros pkg []%elem_of_nil.
  - destruct (addPackage_is_complete pkg ∅ dg Hwf He Hf) as (He1 & Hf1 & _).
    destruct (addPackage_wf filepath_Dir pkg dg Hwf) as (Hwf1 & _ & Hreg & Hmono).
    destruct (IH _ Hwf1 He1 Hf1) as (He2 & Hf2 & Hmono2 & Hall).
    split_and!; [done..|auto|].
    intros pkg' [->|Hin]%elem_of_cons; auto.
Qed.

Lemma buildGraph_complete pkgs :
  edges_inv ∅ (buildGraph filepath_Dir pkgs) ∧
  files_inv filepath_Dir (buildGraph filepath_Dir pkgs) ∧
  (∀ pkg, pkg ∈ pkgs → registered (buildGraph filepath_Dir pkgs) (ID pkg)).
Proof.
  destruct (buildGraph_from_complete pkgs emptyGraph wf_emptyGraph
              (edges_inv_empty ∅) files_inv_empty) as (? & ? & _ & ?).
  done.
Qed.

End Complete.

Lemma built_dependent_iff_imports Dir pkgs p q :
  is_dependent (buildGraph Dir pkgs) q p ↔ imports_unit (buildGraph Dir pkgs) p q.
Proof.
  pose proof (buildGraph_wf Dir pkgs) as Hwf.
  destruct (buildGraph_complete Dir pkgs) as ([eS eC] & _ & _).
  set (g := buildGraph Dir pkgs) in *. split.
  - intros (Q & k & HQ & Hk).
    destruct (wf_Dependents g Hwf _ _ _ _ HQ Hk) as [-> [P HP]].
    apply (wf_sym g Hwf p q P Q HP HQ) in Hk.
    destruct (eS p P q q HP Hk) as (imp & Himp & Hid).
    by exists P, imp.
  - intros (P & imp & HP & Himp & <-).
    pose proof (eC p P imp HP ltac:(set_solver) Himp) as Hdep.
    destruct (wf_Dependencies g Hwf _ _ _ _ HP Hdep) as [_ [Q HQ]].
    exists Q, p. split; [done|]. by apply (wf_sym g Hwf p (ID imp) P Q HP HQ).
Qed.

(** X7: after BuildDependencyGraph every loaded package is registered
    under its ID; the Dependencies map of a registered unit holds exactly
    the IDs of the packages its own package imports; a unit is a dependent
    of another exactly when it imports it; and whatever a registered unit
    imports is registered. *)
Theorem edges_are_imports Dir loaded g :
  BuildDependencyGraph Dir loaded = Ok g →
  (∀ pkgs pkg, loaded = inr pkgs → pkg ∈ pkgs → registered g (ID pkg)) ∧
  (∀ id (P : Package), packageMap g !! id = Some P →
     ∀ q, Dependencies P !! q = Some q ↔ ∃ imp, imp ∈ Imports P ∧ ID imp = q) ∧
  (∀ p q, is_dependent g q p ↔ imports_unit g p q) ∧
  (∀ p q, imports_unit g p q → registered g q).
Proof.
  intros (pkgs & -> & ->)%BuildDependencyGraph_Ok_inv.
  pose proof (buildGraph_wf Dir pkgs) as Hwf.
  destruct (buildGraph_complete Dir pkgs) as ([eS eC] & _ & Hloaded).
  split_and!.
  - intros pkgs' pkg [= <-]. apply Hloaded.
  - intros id P HP q. split; [by apply (eS id P q q HP)|].
    intros (imp & Himp & <-). apply (eC id P imp HP); [set_solver|done].
  - apply built_dependent_iff_imports.
  - intros p q (P & imp & HP & Himp & <-).
    pose proof (eC p P imp HP ltac:(set_solver) Himp) as Hdep.
    by destruct (wf_Dependencies _ Hwf _ _ _ _ HP Hdep).
Qed.

Lemma edges_are_imports_witness :
  registered chainGraph "A" ∧
  (is_dependent chainGraph "C" "B" ↔ imports_unit chainGraph "B" "C").
Proof.
  pose proof (edges_are_imports dirname (inr [chainA; chainB; chainC]) chainGraph
                eq_refl) as (Hreg & _ & Hdep & _).
  split.
  - apply (Hreg [chainA; chainB; chainC] chainA eq_refl). by left.
  - apply Hdep.
Defined.

(** X8: after BuildDependencyGraph every file of every registered unit is
    in the file index, owned by a unit that lists it, and the unit is in
    the directory index under the directory of the file; conversely the
    owner the file index gives for a file lists that file, and a unit the
    directory index gives for a directory has a file in it. *)
Theorem file_index_complete Dir loaded g :
  BuildDependencyGraph Dir loaded = Ok g →
  (∀ id (P : Package) f, packageMap g !! id = Some P → f ∈ allFiles P →
     (∃ owner (O : Package),
        fileMap g !! f = Some owner ∧ packageMap g !! owner = Some O ∧
        f ∈ allFiles O) ∧
     (∃ dm, dirMap g !! Dir f = Some dm ∧ dm !! id = Some id)) ∧
  (∀ f owner, fileMap g !! f = Some owner →
     ∃ O : Package, packageMap g !! owner = Some O ∧ f ∈ allFiles O) ∧
  (∀ d dm id, dirMap g !! d = Some dm → id ∈ dom dm →
     ∃ (P : Package) f, packageMap g !! id = Some P ∧ f ∈ allFiles P ∧ Dir f = d).
Proof.
  intros (pkgs & -> & ->)%BuildDependencyGraph_Ok_inv.
  pose proof (buildGraph_wf Dir pkgs) as Hwf.
  destruct (buildGraph_complete Dir pkgs) as (_ & [fO fD fI] & _).
  split_and!.
  - intros id P f HP Hf. destruct (fI id P f HP Hf) as [[owner Howner] Hdm].
    split; [|done]. destruct (fO f owner Howner) as (O & HO & HfO). eauto.
  - done.
  - intros d dm id Hd [v Hv]%elem_of_dom.
    destruct (wf_dir _ Hwf _ _ _ _ Hd Hv) as [<- _]. eauto.
Qed.

Lemma file_index_complete_witness :
  ∃ dm, dirMap chainGraph !! dirname "b/b.go" = Some dm ∧ dm !! "B" = Some "B".
Proof.
  destruct (packageMap chainGraph !! "B") as [P|] eqn:HP; [|by vm_compute in HP].
  pose proof (file_index_complete dirname (inr [chainA; chainB; chainC]) chainGraph
                eq_refl) as (Hidx & _ & _).
  apply (Hidx "B" P "b/b.go" HP).
  vm_compute in HP. injection HP as <-. by left.
Defined.

Lemma rtc_imports_dependent Dir pkgs u v :
  rtc (λ q p, imports_unit (buildGraph Dir pkgs) p q) u v →
  rtc (is_dependent (buildGraph Dir pkgs)) u v.
Proof.
  induction 1 as [|x y z Hxy _ IH]; [done|].
  eapply rtc_l; [|exact IH]. by apply built_dependent_iff_imports.
Qed.

(** X9: on a graph that was built, when AffectedPackages is called with one
    file of a registered unit and returns, the direct list is the one unit
    owning the file, a unit that lists it, and the transitive list holds
    every unit that imports the owner directly or through other units. *)
Theorem changed_file_marks_importers Dir loaded g fuel id (P : Package) f
    direct transitive :
  BuildDependencyGraph Dir loaded = Ok g →
  packageMap g !! id = Some P → f ∈ allFiles P →
  AffectedPackages Dir fuel g [f] = Ok (direct, transitive) →
  ∃ owner (O : Package),
    direct = [owner] ∧ packageMap g !! owner = Some O ∧ f ∈ allFiles O ∧
    ∀ p, rtc (λ q p, imports_unit g p q) owner p → p ∈ transitive.
Proof.
  intros (pkgs & -> & ->)%BuildDependencyGraph_Ok_inv HP Hf HAP.
  pose proof (buildGraph_wf Dir pkgs) as Hwf.
  destruct (buildGraph_complete Dir pkgs) as (_ & [fO fD fI] & _).
  destruct (fI id P f HP Hf) as [[owner Howner] _].
  destruct (fO f owner Howner) as (O & HO & HfO).
  destruct (AffectedPackages_Ok_inv Dir _ Hwf _ _ _ _ HAP) as (Hdirect & _).
  assert (direct = [owner]) as ->.
  { rewrite Hdirect. unfold directlyAffected; simpl. unfold markFile.
    rewrite Howner. unfold values. by rewrite insert_empty, map_to_list_singleton. }
  exists owner, O. split_and!; [done..|].
  intros p Hreach%rtc_imports_dependent.
  eapply (AffectedPackages_closed Dir _ fuel [f]); eauto. by left.
Qed.

Lemma changed_file_marks_importers_witness :
  ∃ owner (O : Package),
    ["C"] = [owner] ∧ packageMap chainGraph !! owner = Some O ∧
    "c/c.go" ∈ allFiles O ∧
    ∀ p, rtc (λ q p, imports_unit chainGraph p q) owner p → p ∈ ["C"; "A"; "B"].
Proof.
  destruct (packageMap chainGraph !! "C") as [P|] eqn:HP; [|by vm_compute in HP].
  apply (changed_file_marks_importers dirname (inr [chainA; chainB; chainC])
           chainGraph 2 "C" P "c/c.go").
  - reflexivity.
  - done.
  - vm_compute in HP. injection HP as <-. by left.
  - by vm_compute.
Defined.

(** * The relations the traversals follow *)

Section PathRelations.
Variable g : DependencyGraph.
Hypothesis Hwf : wf_graph g.

Lemma same_path_refl u : registered g u → same_path g u u.
Proof. intros [U HU]. by exists U, U. Qed.

Lemma same_path_sym u v : same_path g u v → same_path g v u.
Proof. intros (U & V & ? & ? & ?). by exists V, U. Qed.

Lemma same_path_trans u v w : same_path g u v → same_path g v w → same_path g u w.
Proof.
  intros (U & V & HU & HV & Huv) (V' & W & HV' & HW & Hvw).
  assert (V' = V) as -> by congruence. exists U, W. split_and!; congruence.
Qed.

(** The units listed under a path are those that carry it. *)
Lemma variants_same_path path pkgs u u' :
  packagePathMap g !! path = Some pkgs → u ∈ pkgs →
  same_path g u u' ↔ u' ∈ pkgs.
Proof.
  intros Hp Hu. destruct (wf_variants g Hwf _ _ _ Hp Hu) as (U & HU & HUp).
  split.
  - intros (U0 & U' & HU0 & HU' & Heq). assert (U0 = U) as -> by congruence.
    destruct (wf_path g Hwf _ _ HU') as (l & Hl & Hin).
    rewrite <- Heq, HUp, Hp in Hl. by injection Hl as <-.
  - intros Hu'. destruct (wf_variants g Hwf _ _ _ Hp Hu') as (U' & HU' & HUp').
    exists U, U'. split_and!; congruence.
Qed.

Lemma path_dependent_same_path a b v :
  same_path g a b → path_dependent g b v → path_dependent g a v.
Proof.
  intros Hab (b' & Hbb' & Hdep). exists b'. split; [|done].
  by eapply same_path_trans.
Qed.

Lemma tc_path_dependent_same_path a b v :
  same_path g a b → tc (path_dependent g) b v → tc (path_dependent g) a v.
Proof.
  intros Hab Htc. inversion Htc as [x y Hxy|x y z Hxy Hyz]; subst.
  - apply tc_once. by eapply path_dependent_same_path.
  - eapply tc_l; [|exact Hyz]. by eapply path_dependent_same_path.
Qed.

Lemma is_dependent_path_dependent u v : is_dependent g u v → path_dependent g u v.
Proof.
  intros Hdep. exists u. split; [|done].
  destruct Hdep as (U & k & HU & _). apply same_path_refl. by exists U.
Qed.

(** Whatever the traversal collects is a dependent of a variant of the
    path, in the recursive mode through any number of steps. *)
Lemma dependents_sound fuel pkgPath recursive m pkgs v :
  dependents fuel g pkgPath recursive = Ok m →
  packagePathMap g !! pkgPath = Some pkgs → v ∈ dom m →
  ∃ u, u ∈ pkgs ∧
    if recursive then tc (path_dependent g) u v else is_dependent g u v.
Proof.
  revert pkgPath recursive m pkgs v.
  induction fuel as [fuel IH] using lt_wf_ind; intros pkgPath recursive m pkgs v.
  rewrite dependents_unfold. intros Hloop Hp. rewrite Hp in Hloop. revert v.
  revert Hloop.
  apply (forRange_inv (λ acc : gmap string string, ∀ v, v ∈ dom acc →
    ∃ u, u ∈ pkgs ∧
      if recursive then tc (path_dependent g) u v else is_dependent g u v)).
  { intros v. rewrite dom_empty_L. set_solver. }
  intros acc p acc1 Hin Hacc (P & HP%deref_Ok & Hinner)%bind_Ok_inv.
  revert Hinner.
  apply (forRange_inv (λ acc : gmap string string, ∀ v, v ∈ dom acc →
    ∃ u, u ∈ pkgs ∧
      if recursive then tc (path_dependent g) u v else is_dependent g u v));
    [done|].
  intros a dp a1 Hdp Ha Hvisit.
  pose proof (units_Dependents g Hwf _ _ _ HP Hdp) as Hreg.
  assert (is_dependent g p dp) as Hstep.
  { apply elem_of_values in Hdp as [k Hk]. by exists P, k. }
  destruct (visitDependent_Ok_inv g Hwf _ _ _ _ _ Hreg Hvisit) as (D & HD & Hres).
  destruct recursive.
  - destruct Hres as (fuel' & deps & -> & Hdeps & ->).
    intros v. rewrite dom_union_L, dom_insert_L.
    intros [Hv|[->%elem_of_singleton|Hv]%elem_of_union]%elem_of_union; [| |auto].
    + destruct (wf_path g Hwf _ _ HD) as (l & Hl & Hdl).
      destruct (IH fuel' ltac:(lia) _ _ _ _ _ Hdeps Hl Hv) as (u' & Hu' & Htc).
      exists p. split; [done|].
      eapply tc_l; [by apply is_dependent_path_dependent|].
      eapply tc_path_dependent_same_path; [|exact Htc].
      by apply (variants_same_path _ _ dp u' Hl Hdl).
    + exists p. split; [done|]. by apply tc_once, is_dependent_path_dependent.
  - subst a1. intros v. rewrite dom_insert_L.
    intros [->%elem_of_singleton|Hv]%elem_of_union; eauto.
Qed.

(** Closure under the path-merged relation. *)
Lemma dependents_closed_path fuel pkgPath m pkgs u v :
  dependents fuel g pkgPath true = Ok m →
  packagePathMap g !! pkgPath = Some pkgs → u ∈ pkgs →
  tc (path_dependent g) u v → v ∈ dom m.
Proof.
  revert pkgPath m pkgs u.
  induction fuel as [fuel IH] using lt_wf_ind; intros pkgPath m pkgs u Hm Hp Hu Htc.
  destruct (dependents_Ok_inv g Hwf _ _ _ _ Hm) as (pkgs' & Hp' & Hcoll).
  assert (pkgs' = pkgs) as -> by congruence.
  assert (∃ d, path_dependent g u d ∧ (d = v ∨ tc (path_dependent g) d v))
    as (d & (u' & Hsame & (U' & k & HU' & Hk)) & Hrest).
  { inversion Htc; subst; eauto. }
  assert (u' ∈ pkgs) as Hu' by by apply (variants_same_path _ _ u u' Hp Hu).
  assert (d ∈ values (Dependents U')) as Hd by (apply elem_of_values; eauto).
  destruct (Hcoll u' U' d Hu' HU' Hd) as [Hin Hrec].
  destruct Hrest as [->|Htc']; [done|].
  destruct (Hrec eq_refl) as (D & fuel' & deps & -> & HD & Hdeps & Hsub).
  destruct (wf_path g Hwf _ _ HD) as (l & Hl & Hdl).
  apply Hsub. eapply (IH fuel'); eauto.
Qed.

(** The non-recursive mode returns on every known path. *)
Lemma dependents_direct_total fuel pkgPath :
  is_Some (packagePathMap g !! pkgPath) →
  ∃ m, dependents fuel g pkgPath false = Ok m.
Proof.
  intros [pkgs Hp]. rewrite dependents_unfold, Hp.
  destruct (forRange_total (λ _, True)
    (λ acc p, pkg <- deref g p ;;
       forRange (visitDependent fuel g false) (values (Dependents pkg)) acc)
    pkgs ∅) as (m & Hm & _); [done| |eauto].
  intros acc p Hin _.
  destruct (wf_variants g Hwf _ _ _ Hp Hin) as (P & HP & HPp).
  unfold deref at 1. rewrite HP; simpl.
  apply (forRange_total (λ _, True)); [done|].
  intros a dp Hdp _.
  destruct (deref_registered g Hwf dp (units_Dependents g Hwf _ _ _ HP Hdp))
    as (D & HD & HID).
  unfold visitDependent. rewrite HD; simpl. eauto.
Qed.

End PathRelations.

(** * The reversed graph *)

Lemma forRange_ext {A S} (body body' : S → A → outcome S) l s :
  (∀ s x, x ∈ l → body s x = body' s x) →
  forRange body l s = forRange body' l s.
Proof.
  revert s; induction l as [|x l IH]; intros s Hbody; simpl; [done|].
  rewrite Hbody by by left. destruct (body' s x); simpl; try done.
  apply IH. intros; apply Hbody; by right.
Qed.

Lemma transpose_lookup g p :
  packageMap (transpose g) !! p = transposePackage <$> packageMap g !! p.
Proof. unfold transpose; simpl. by rewrite lookup_fmap. Qed.

Lemma transpose_lookup_Some g p (T : Package) :
  packageMap (transpose g) !! p = Some T ↔
  ∃ P : Package, packageMap g !! p = Some P ∧ T = transposePackage P.
Proof. rewrite transpose_lookup, fmap_Some. naive_solver. Qed.

Lemma transpose_registered g p : registered (transpose g) p ↔ registered g p.
Proof. unfold registered. rewrite transpose_lookup. apply fmap_is_Some. Qed.

Lemma wf_transpose g : wf_graph g → wf_graph (transpose g).
Proof.
  intros [wID wDts wDps wPath wVar wNe wFile wDir wSym]. split.
  - intros id T (P & HP & ->)%transpose_lookup_Some. simpl. eauto.
  - intros id T k q (P & HP & ->)%transpose_lookup_Some; simpl.
    rewrite transpose_registered. eauto.
  - intros id T k q (P & HP & ->)%transpose_lookup_Some; simpl.
    rewrite transpose_registered. eauto.
  - intros id T (P & HP & ->)%transpose_lookup_Some; simpl. eauto.
  - intros path l id Hl Hin. destruct (wVar _ _ _ Hl Hin) as (P & HP & HPp).
    exists (transposePackage P). rewrite transpose_lookup, HP. done.
  - eauto.
  - intros f id Hf. apply transpose_registered. eauto.
  - intros d dm k id Hd Hk. rewrite transpose_registered. eauto.
  - intros p q T1 T2 (P & HP & ->)%transpose_lookup_Some
      (Q & HQ & ->)%transpose_lookup_Some; simpl.
    symmetry. apply (wSym q p Q P HQ HP).
Qed.

Lemma deref_transpose g p :
  deref (transpose g) p =
  match deref g p with
  | Ok P => Ok (transposePackage P)
  | Err e => Err e
  | Panic => Panic
  | OutOfFuel => OutOfFuel
  end.
Proof. unfold deref. rewrite transpose_lookup. by destruct (packageMap g !! p). Qed.

(** The dependencies traversal is the dependents traversal of the reversed
    graph. *)
Lemma dependencies_transpose fuel g pkgPath recursive :
  dependencies fuel g pkgPath recursive =
  dependents fuel (transpose g) pkgPath recursive.
Proof.
  revert pkgPath recursive; induction fuel as [|fuel IH]; intros pkgPath recursive;
    simpl; (destruct (packagePathMap g !! pkgPath) as [pkgs|]; [|done]);
    apply forRange_ext; intros acc p _; rewrite deref_transpose;
    (destruct (deref g p) as [P| | |]; simpl; try done);
    apply forRange_ext; intros a dp _; rewrite deref_transpose;
    (destruct (deref g dp) as [D| | |]; simpl; try done);
    destruct recursive; simpl; try done.
  by rewrite IH.
Qed.

Lemma transpose_is_dependent g u v :
  is_dependent (transpose g) u v ↔ is_dependency g u v.
Proof.
  split.
  - intros (T & k & (U & HU & ->)%transpose_lookup_Some & Hk). by exists U, k.
  - intros (U & k & HU & Hk). exists (transposePackage U), k.
    rewrite transpose_lookup, HU. done.
Qed.

Lemma transpose_same_path g u v : same_path (transpose g) u v ↔ same_path g u v.
Proof.
  split.
  - intros (T1 & T2 & (U & HU & ->)%transpose_lookup_Some
              & (V & HV & ->)%transpose_lookup_Some & Heq). by exists U, V.
  - intros (U & V & HU & HV & Heq).
    exists (transposePackage U), (transposePackage V).
    rewrite !transpose_lookup, HU, HV. done.
Qed.

Lemma transpose_path_dependent g u v :
  path_dependent (transpose g) u v ↔ path_dependency g u v.
Proof.
  unfold path_dependent, path_dependency.
  by setoid_rewrite transpose_same_path; setoid_rewrite transpose_is_dependent.
Qed.

Lemma transpose_tc_path_dependent g u v :
  tc (path_dependent (transpose g)) u v ↔ tc (path_dependency g) u v.
Proof.
  split; induction 1 as [x y Hxy|x y z Hxy _ IH];
    try (apply tc_once; by apply transpose_path_dependent);
    (eapply tc_l; [|exact IH]); by apply transpose_path_dependent.
Qed.

(** * What the four queries return *)

Section Queries.
Variable g : DependencyGraph.
Hypothesis Hwf : wf_graph g.

Lemma dependents_exact fuel pkgPath recursive m pkgs :
  dependents fuel g pkgPath recursive = Ok m →
  packagePathMap g !! pkgPath = Some pkgs →
  NoDup (packageMapToArray m) ∧
  ∀ v, v ∈ packageMapToArray m ↔
    ∃ u, u ∈ pkgs ∧
      if recursive then tc (path_dependent g) u v else is_dependent g u v.
Proof.
  intros Hm Hp. destruct (dependents_units g Hwf _ _ _ _ Hm) as [Hid Hreg].
  unfold packageMapToArray. split; [by apply idmap_values_NoDup|].
  intros v. rewrite idmap_values by done. split.
  - by apply (dependents_sound g Hwf fuel pkgPath recursive m pkgs).
  - intros (u & Hu & Hrel). destruct recursive.
    + by apply (dependents_closed_path g Hwf fuel pkgPath m pkgs u).
    + destruct Hrel as (U & k & HU & Hk).
      destruct (dependents_Ok_inv g Hwf _ _ _ _ Hm) as (pkgs' & Hp' & Hcoll).
      assert (pkgs' = pkgs) as -> by congruence.
      apply (Hcoll u U v Hu HU). apply elem_of_values. eauto.
Qed.

End Queries.

Lemma dependencies_exact g fuel pkgPath recursive m pkgs :
  wf_graph g →
  dependencies fuel g pkgPath recursive = Ok m →
  packagePathMap g !! pkgPath = Some pkgs →
  NoDup (packageMapToArray m) ∧
  ∀ v, v ∈ packageMapToArray m ↔
    ∃ u, u ∈ pkgs ∧
      if recursive then tc (path_dependency g) u v else is_dependency g u v.
Proof.
  intros Hwf Hm Hp. rewrite dependencies_transpose in Hm.
  destruct (dependents_exact (transpose g) (wf_transpose g Hwf) _ _ _ _ pkgs Hm Hp)
    as [Hnd Hiff].
  split; [done|]. intros v. rewrite Hiff.
  destruct recursive.
  - by setoid_rewrite transpose_tc_path_dependent.
  - by setoid_rewrite transpose_is_dependent.
Qed.

Lemma built_dependency_iff_imports Dir pkgs p q :
  is_dependency (buildGraph Dir pkgs) p q ↔ imports_unit (buildGraph Dir pkgs) p q.
Proof.
  pose proof (buildGraph_wf Dir pkgs) as Hwf.
  destruct (buildGraph_complete Dir pkgs) as ([eS eC] & _ & _).
  set (g := buildGraph Dir pkgs) in *. split.
  - intros (P & k & HP & Hk).
    destruct (wf_Dependencies g Hwf _ _ _ _ HP Hk) as [-> _].
    destruct (eS p P q q HP Hk) as (imp & Himp & Hid). by exists P, imp.
  - intros (P & imp & HP & Himp & <-). exists P, (ID imp). split; [done|].
    apply (eC p P imp HP); [set_solver|done].
Qed.

(** X10: on a graph that was built, the two direct queries asked about a
    known import path return, without error and without repetition,
    Dependents exactly the units that import a unit registered under the
    path and Dependencies exactly the units that a unit registered under
    the path imports. *)
Theorem direct_queries_exact Dir loaded g pkgPath pkgs :
  BuildDependencyGraph Dir loaded = Ok g →
  packagePathMap g !! pkgPath = Some pkgs →
  (∃ l, Dependents_ g pkgPath = Ok l ∧ NoDup l ∧
     ∀ v, v ∈ l ↔ ∃ u, u ∈ pkgs ∧ imports_unit g v u) ∧
  (∃ l, Dependencies_ g pkgPath = Ok l ∧ NoDup l ∧
     ∀ v, v ∈ l ↔ ∃ u, u ∈ pkgs ∧ imports_unit g u v).
Proof.
  intros (loadedPackages & -> & ->)%BuildDependencyGraph_Ok_inv Hp.
  pose proof (buildGraph_wf Dir loadedPackages) as Hwf.
  set (g := buildGraph Dir loadedPackages) in *.
  assert (Hdt : ∀ p q, is_dependent g q p ↔ imports_unit g p q)
    by apply built_dependent_iff_imports.
  assert (Hdy : ∀ p q, is_dependency g p q ↔ imports_unit g p q)
    by apply built_dependency_iff_imports.
  split.
  - destruct (dependents_direct_total g Hwf 0 pkgPath) as [m Hm]; [eauto|].
    unfold Dependents_. rewrite Hm; simpl. eexists; split; [done|].
    destruct (dependents_exact g Hwf _ _ _ _ _ Hm Hp) as [Hnd Hiff].
    split; [done|]. intros v. rewrite Hiff.
    by setoid_rewrite Hdt.
  - destruct (dependents_direct_total (transpose g) (wf_transpose g Hwf) 0 pkgPath)
      as [m Hm]; [simpl; eauto|].
    rewrite <- dependencies_transpose in Hm.
    unfold Dependencies_. rewrite Hm; simpl. eexists; split; [done|].
    destruct (dependencies_exact g _ _ _ _ _ Hwf Hm Hp) as [Hnd Hiff].
    split; [done|]. intros v. rewrite Hiff.
    by setoid_rewrite Hdy.
Qed.

Lemma direct_queries_exact_witness :
  ∃ l, Dependents_ chainGraph "b" = Ok l ∧ NoDup l ∧
    ∀ v, v ∈ l ↔ ∃ u, u ∈ ["B"] ∧ imports_unit chainGraph v u.
Proof.
  apply (direct_queries_exact dirname (inr [chainA; chainB; chainC]) chainGraph
           "b" ["B"]); reflexivity.
Defined.

(** Ranks for the reversed graph. *)
Lemma ranked_transpose g rank N :
  wf_graph g → ranked g rank →
  (∀ id (P : Package), packageMap g !! id = Some P → rank (PkgPath P) < N) →
  ranked (transpose g) (λ path, N - rank path).
Proof.
  intros Hwf Hrank HN u T k v T'
    (U & HU & ->)%transpose_lookup_Some Hk (V & HV & ->)%transpose_lookup_Some.
  simpl in *.
  destruct (wf_Dependencies g Hwf _ _ _ _ HU Hk) as [-> _].
  apply (wf_sym g Hwf u v U V HU HV) in Hk.
  pose proof (Hrank v V u u U HV Hk HU). pose proof (HN _ _ HU). pose proof (HN _ _ HV).
  lia.
Qed.

Lemma dependencies_fuel_mono g fuel fuel' pkgPath recursive m :
  fuel ≤ fuel' →
  dependencies fuel g pkgPath recursive = Ok m →
  dependencies fuel' g pkgPath recursive = Ok m.
Proof. rewrite !dependencies_transpose. apply dependents_fuel_mono. Qed.

Lemma transitive_queries_return g pkgPath :
  wf_graph g → acyclic g → is_Some (packagePathMap g !! pkgPath) →
  ∃ fuel l l', ∀ n, fuel ≤ n →
    TransitiveDependents n g pkgPath = Ok l ∧
    TransitiveDependencies n g pkgPath = Ok l'.
Proof.
  intros Hwf [rank Hrank] Hp. destruct (rank_bound g rank) as [N HN].
  destruct (dependents_total g Hwf rank (S (rank pkgPath)) pkgPath Hrank Hp)
    as [m Hm]; [lia|].
  destruct (dependents_total (transpose g) (wf_transpose g Hwf)
              (λ path, N - rank path) (S (N - rank pkgPath)) pkgPath) as [m' Hm'];
    [by apply ranked_transpose|done|simpl; lia|].
  rewrite <- dependencies_transpose in Hm'.
  exists (S (rank pkgPath) `max` S (N - rank pkgPath)),
    (packageMapToArray m), (packageMapToArray m').
  intros n Hn. unfold TransitiveDependents, TransitiveDependencies.
  rewrite (dependents_fuel_mono g (S (rank pkgPath)) n _ _ m) by (done || lia).
  rewrite (dependencies_fuel_mono g (S (N - rank pkgPath)) n _ _ m')
    by (done || lia).
  done.
Qed.

(** X11: on a graph that was built, when a transitive query about a known
    import path returns, its list has no repetition and holds exactly the
    units reached in one or more steps from a unit registered under the
    path, a step leading from a unit to the dependents (respectively the
    dependencies) of every unit that shares its import path; when the
    graph satisfies the acyclicity precondition both queries return, with
    the same lists for every budget that is large enough. *)
Theorem transitive_queries_exact Dir loaded g pkgPath pkgs :
  BuildDependencyGraph Dir loaded = Ok g →
  packagePathMap g !! pkgPath = Some pkgs →
  (∀ fuel l, TransitiveDependents fuel g pkgPath = Ok l →
     NoDup l ∧ ∀ v, v ∈ l ↔ ∃ u, u ∈ pkgs ∧ tc (path_dependent g) u v) ∧
  (∀ fuel l, TransitiveDependencies fuel g pkgPath = Ok l →
     NoDup l ∧ ∀ v, v ∈ l ↔ ∃ u, u ∈ pkgs ∧ tc (path_dependency g) u v) ∧
  (acyclic g →
   ∃ fuel l l', ∀ n, fuel ≤ n →
     TransitiveDependents n g pkgPath = Ok l ∧
     TransitiveDependencies n g pkgPath = Ok l').
Proof.
  intros Hwf%BuildDependencyGraph_wf Hp. split_and!.
  - intros fuel l. unfold TransitiveDependents.
    intros (m & Hm & [= <-])%bind_Ok_inv.
    apply (dependents_exact g Hwf fuel pkgPath true m pkgs Hm Hp).
  - intros fuel l. unfold TransitiveDependencies.
    intros (m & Hm & [= <-])%bind_Ok_inv.
    apply (dependencies_exact g fuel pkgPath true m pkgs Hwf Hm Hp).
  - intros Hacyclic. apply transitive_queries_return; eauto.
Qed.

Lemma transitive_queries_exact_witness :
  ∃ fuel l l', ∀ n, fuel ≤ n →
    TransitiveDependents n diamondGraph "a" = Ok l ∧
    TransitiveDependencies n diamondGraph "a" = Ok l'.
Proof.
  apply (transitive_queries_exact dirname
           (inr [diamondC; diamondA; diamondB; diamondD]) diamondGraph "a" ["A"]).
  - reflexivity.
  - reflexivity.
  - exists diamondRank. apply rankedb_sound. by vm_compute.
Defined.

(** * Duality on import paths *)

Lemma tc_flip {A} (R : relation A) x y : tc (flip R) x y ↔ tc R y x.
Proof.
  assert (∀ (S : relation A) a b, tc (flip S) a b → tc S b a) as Hdir.
  { intros S a b. induction 1 as [a b Hab|a b c Hab _ IH].
    - by apply tc_once.
    - eapply tc_r; [exact IH|exact Hab]. }
  split; [apply Hdir|]. intros H. by apply (Hdir (flip R)).
Qed.

Lemma elem_of_pathsOf g l b :
  b ∈ pathsOf g l ↔
  ∃ v (V : Package), v ∈ l ∧ packageMap g !! v = Some V ∧ PkgPath V = b.
Proof.
  unfold pathsOf. rewrite elem_of_list_to_set, list_elem_of_omap. split.
  - intros (v & Hv & (V & HV & ->)%fmap_Some). eauto.
  - intros (v & V & Hv & HV & <-). exists v. split; [done|]. by rewrite HV.
Qed.

Section PathEdges.
Variable g : DependencyGraph.
Hypothesis Hwf : wf_graph g.

Lemma path_dependent_edge u v (U V : Package) :
  packageMap g !! u = Some U → packageMap g !! v = Some V →
  path_dependent g u v → path_edge g (PkgPath U) (PkgPath V).
Proof.
  intros HU HV (u' & (U0 & U' & HU0 & HU' & Heq) & (U1 & k & HU1 & Hk)).
  assert (U0 = U) as -> by congruence. assert (U1 = U') as -> by congruence.
  destruct (wf_Dependents g Hwf _ _ _ _ HU' Hk) as [-> _].
  exists u', v, U', V. split_and!; auto.
Qed.

Lemma tc_path_dependent_edge u v (U V : Package) :
  packageMap g !! u = Some U → packageMap g !! v = Some V →
  tc (path_dependent g) u v → tc (path_edge g) (PkgPath U) (PkgPath V).
Proof.
  intros HU HV Htc. revert U V HU HV.
  induction Htc as [x y Hxy|x y z Hxy _ IH]; intros U V HU HV.
  - apply tc_once. by apply (path_dependent_edge x y).
  - assert (registered g y) as [Y HY].
    { destruct Hxy as (x' & _ & (X' & k & HX' & Hk)).
      by destruct (wf_Dependents g Hwf _ _ _ _ HX' Hk). }
    eapply tc_l; [by apply (path_dependent_edge x y U Y)|]. by apply IH.
Qed.

Lemma tc_path_edge_dependent a b :
  tc (path_edge g) a b →
  ∀ u (U : Package), packageMap g !! u = Some U → PkgPath U = a →
    ∃ v (V : Package), packageMap g !! v = Some V ∧ PkgPath V = b ∧
      tc (path_dependent g) u v.
Proof.
  assert (Hstep : ∀ a c, path_edge g a c →
    ∀ u (U : Package), packageMap g !! u = Some U → PkgPath U = a →
      ∃ y (Y : Package), packageMap g !! y = Some Y ∧ PkgPath Y = c ∧
        path_dependent g u y).
  { intros a' c (x & y & X & Y & HX & HY & HXa & HYc & Hdep) u U HU HUa.
    exists y, Y. split_and!; [done..|]. exists x. split.
    - exists U, X. split_and!; congruence.
    - by exists X, y. }
  induction 1 as [a c Hac|a c b Hac _ IH]; intros u U HU HUa.
  - destruct (Hstep a c Hac u U HU HUa) as (y & Y & HY & HYc & Hdep).
    exists y, Y. split_and!; [done..|]. by apply tc_once.
  - destruct (Hstep a c Hac u U HU HUa) as (y & Y & HY & HYc & Hdep).
    destruct (IH y Y HY HYc) as (v & V & HV & HVb & Htc).
    exists v, V. split_and!; [done..|]. by eapply tc_l.
Qed.

(** The import paths met by the transitive dependents of a path are those
    reachable from it along path edges. *)
Lemma dependents_paths fuel a m b :
  dependents fuel g a true = Ok m →
  b ∈ pathsOf g (packageMapToArray m) ↔ tc (path_edge g) a b.
Proof.
  intros Hm.
  destruct (dependents_Ok_inv g Hwf _ _ _ _ Hm) as (pkgs & Hp & _).
  destruct (dependents_exact g Hwf _ _ _ _ _ Hm Hp) as [_ Hiff].
  rewrite elem_of_pathsOf. split.
  - intros (v & V & (u & Hu & Htc)%Hiff & HV & <-).
    destruct (wf_variants g Hwf _ _ _ Hp Hu) as (U & HU & <-).
    by apply (tc_path_dependent_edge u v).
  - intros Htc.
    destruct pkgs as [|u pkgs]; [by destruct (wf_nonempty g Hwf _ _ Hp)|].
    destruct (wf_variants g Hwf _ _ u Hp) as (U & HU & HUa); [by left|].
    destruct (tc_path_edge_dependent a b Htc u U HU HUa) as (v & V & HV & HVb & Hreach).
    exists v, V. split_and!; [|done..]. apply Hiff. exists u. split; [by left|done].
Qed.

End PathEdges.

Lemma transpose_path_edge g a b :
  wf_graph g → path_edge (transpose g) a b ↔ path_edge g b a.
Proof.
  intros Hwf. split.
  - intros (u & v & T1 & T2 & (U & HU & ->)%transpose_lookup_Some
              & (V & HV & ->)%transpose_lookup_Some & Ha & Hb & Hdep).
    simpl in *. exists v, u, V, U. split_and!; [done..|].
    by apply (wf_sym g Hwf u v U V HU HV).
  - intros (v & u & V & U & HV & HU & Hb & Ha & Hdep).
    exists u, v, (transposePackage U), (transposePackage V).
    rewrite !transpose_lookup, HU, HV. split_and!; [done..|]. simpl.
    by apply (wf_sym g Hwf u v U V HU HV).
Qed.

Lemma transpose_pathsOf g l b : b ∈ pathsOf (transpose g) l ↔ b ∈ pathsOf g l.
Proof.
  rewrite !elem_of_pathsOf. split.
  - intros (v & T & Hv & (V & HV & ->)%transpose_lookup_Some & <-). eauto.
  - intros (v & V & Hv & HV & <-). exists v, (transposePackage V).
    rewrite transpose_lookup, HV. done.
Qed.

Lemma tc_transpose_path_edge g a b :
  wf_graph g → tc (path_edge (transpose g)) b a ↔ tc (path_edge g) a b.
Proof.
  intros Hwf. rewrite <- tc_flip.
  split; induction 1 as [x y Hxy|x y z Hxy _ IH];
    try (apply tc_once; by apply transpose_path_edge);
    (eapply tc_l; [|exact IH]); by apply transpose_path_edge.
Qed.

(** X12: on a graph that was built, when the transitive dependents of a
    path a and the transitive dependencies of a path b have been returned,
    b is the import path of one of the former exactly when a is the import
    path of one of the latter, and both hold exactly when b is reachable
    from a along edges between import paths. *)
Theorem paths_duality Dir loaded g fuel fuel' a b l l' :
  BuildDependencyGraph Dir loaded = Ok g →
  TransitiveDependents fuel g a = Ok l →
  TransitiveDependencies fuel' g b = Ok l' →
  (b ∈ pathsOf g l ↔ tc (path_edge g) a b) ∧
  (a ∈ pathsOf g l' ↔ tc (path_edge g) a b) ∧
  (b ∈ pathsOf g l ↔ a ∈ pathsOf g l').
Proof.
  intros Hwf%BuildDependencyGraph_wf.
  unfold TransitiveDependents, TransitiveDependencies.
  intros (m & Hm & [= <-])%bind_Ok_inv (m' & Hm' & [= <-])%bind_Ok_inv.
  rewrite dependencies_transpose in Hm'.
  pose proof (dependents_paths g Hwf fuel a m b Hm) as H1.
  pose proof (dependents_paths (transpose g) (wf_transpose g Hwf) fuel' b m' a Hm')
    as H2.
  rewrite transpose_pathsOf, tc_transpose_path_edge in H2 by done.
  split_and!; [done..|]. by rewrite H1, H2.
Qed.

Lemma paths_duality_witness :
  "c" ∈ pathsOf diamondGraph ["C"; "A"; "B"] ↔
  "d" ∈ pathsOf diamondGraph ["A"; "B"; "D"].
Proof.
  apply (paths_duality dirname (inr [diamondC; diamondA; diamondB; diamondD])
           diamondGraph 2 2 "d" "c").
  - reflexivity.
  - by vm_compute.
  - by vm_compute.
Defined.

(** * AffectedPackages, exactly *)

Section AffectedExact.
Variable filepath_Dir : string → string.
Variable g : DependencyGraph.
Hypothesis Hwf : wf_graph g.

Lemma dependents_of_unit fuel p (P : Package) deps v :
  packageMap g !! p = Some P →
  dependents fuel g (PkgPath P) true = Ok deps →
  v ∈ dom deps ↔ tc (path_dependent g) p v.
Proof.
  intros HP Hdeps.
  destruct (wf_path g Hwf _ _ HP) as (pkgs & Hpkgs & Hin). split.
  - intros Hv.
    destruct (dependents_sound g Hwf _ _ _ _ _ _ Hdeps Hpkgs Hv) as (u & Hu & Htc).
    eapply tc_path_dependent_same_path; [|exact Htc].
    by apply (variants_same_path g Hwf _ _ p u Hpkgs Hin).
  - by apply (dependents_closed_path g Hwf fuel (PkgPath P) deps pkgs p).
Qed.

Lemma closeLoop_exact fuel l d a d' a' :
  forRange (closeOver fuel g) l (d, a) = Ok (d', a') →
  (∀ kv, kv ∈ l → ∃ (P : Package) deps,
     packageMap g !! kv.2 = Some P ∧
     dependents fuel g (PkgPath P) true = Ok deps) ∧
  ((∀ kv, kv ∈ l → kv.1 = kv.2) →
   ∀ v, v ∈ dom a' ↔
     v ∈ dom a ∨ ∃ kv, kv ∈ l ∧ (v = kv.2 ∨ tc (path_dependent g) kv.2 v)).
Proof.
  revert d a. induction l as [|[id p] l IH]; intros d a; simpl.
  - intros [= <- <-]. split; [intros kv []%elem_of_nil|].
    intros _ v. split; [auto|]. intros [?|(kv & []%elem_of_nil & _)]; done.
  - intros ([d1 a1] & Hstep & Hrest)%bind_Ok_inv.
    destruct (closeOver_Ok_inv g _ _ _ _ _ _ Hstep)
      as (P & deps & HP & Hdeps & [= -> ->]).
    destruct (IH _ _ Hrest) as [Heach Hdom]. split.
    + intros kv [->|Hkv]%elem_of_cons; [simpl; eauto|auto].
    + intros Hl v. assert (id = p) as -> by (apply (Hl (id, p)); by left).
      rewrite Hdom by (intros; apply Hl; by right).
      rewrite dom_union_L, dom_insert_L, !elem_of_union, elem_of_singleton.
      rewrite (dependents_of_unit fuel p P deps v HP Hdeps).
      split.
      * intros [[Htc|[->|Hv]]|(kv & Hkv & Hcase)]; [| |by left|].
        -- right. exists (p, p). split; [by left|by right].
        -- right. exists (p, p). split; [by left|by left].
        -- right. exists kv. split; [by right|done].
      * intros [Hv|(kv & [->|Hkv]%elem_of_cons & Hcase)]; [auto| |eauto].
        simpl in Hcase. destruct Hcase as [->|Htc]; auto.
Qed.

Lemma AffectedPackages_exact fuel files direct transitive :
  AffectedPackages filepath_Dir fuel g files = Ok (direct, transitive) →
  (∀ p, p ∈ direct → ∃ (P : Package) deps,
     packageMap g !! p = Some P ∧
     dependents fuel g (PkgPath P) true = Ok deps) ∧
  ∀ v, v ∈ transitive ↔
    v ∈ direct ∨ ∃ u, u ∈ direct ∧ tc (path_dependent g) u v.
Proof.
  intros HAP.
  destruct (AffectedPackages_Ok_inv filepath_Dir g Hwf _ _ _ _ HAP) as (Hdirect & _).
  revert HAP. unfold AffectedPackages.
  intros ([d a] & Hloop & [= <- <-])%bind_Ok_inv. simpl in *.
  pose proof (directlyAffected_units filepath_Dir g Hwf files) as [Hid Hreg].
  destruct (closeLoop_exact _ _ _ _ _ _ Hloop) as [Heach Hdom].
  assert (Hkv : ∀ kv, kv ∈ map_to_list (directlyAffected filepath_Dir g files) →
            kv.1 = kv.2).
  { intros [k v] Hin%elem_of_map_to_list. simpl. eauto. }
  assert (Hin : ∀ p, p ∈ d ↔
            ∃ kv, kv ∈ map_to_list (directlyAffected filepath_Dir g files) ∧ p = kv.2).
  { intros p. rewrite Hdirect. unfold values. rewrite list_elem_of_fmap. naive_solver. }
  destruct (closeLoop_Ok_inv filepath_Dir g Hwf _ _ _ _ _ _ Hkv (units_empty g) Hloop)
    as (_ & [Hida _] & _).
  split.
  - intros p (kv & Hkvin & ->)%Hin. by apply Heach.
  - intros v. unfold packageMapToArray. rewrite idmap_values by done.
    rewrite (Hdom Hkv), dom_empty_L. split.
    + intros [[]%elem_of_empty|(kv & Hkvin & [->|Htc])].
      * left. apply Hin. eauto.
      * right. exists kv.2. split; [|done]. apply Hin. eauto.
    + intros [(kv & Hkvin & ->)%Hin|(u & (kv & Hkvin & ->)%Hin & Htc)];
        right; exists kv; auto.
Qed.

Lemma AffectedPackages_combine fuel files1 files2 d1 t1 d2 t2 :
  AffectedPackages filepath_Dir fuel g files1 = Ok (d1, t1) →
  AffectedPackages filepath_Dir fuel g files2 = Ok (d2, t2) →
  ∃ d t, AffectedPackages filepath_Dir fuel g (files1 ++ files2) = Ok (d, t) ∧
    (∀ p, p ∈ d ↔ p ∈ d1 ∨ p ∈ d2) ∧
    (∀ p, p ∈ t ↔ p ∈ t1 ∨ p ∈ t2).
Proof.
  intros H1 H2.
  destruct (AffectedPackages_Ok_inv filepath_Dir g Hwf _ _ _ _ H1)
    as (_ & _ & Hd1 & _).
  destruct (AffectedPackages_Ok_inv filepath_Dir g Hwf _ _ _ _ H2)
    as (_ & _ & Hd2 & _).
  destruct (AffectedPackages_exact _ _ _ _ H1) as [He1 Ht1].
  destruct (AffectedPackages_exact _ _ _ _ H2) as [He2 Ht2].
  pose proof (directlyAffected_units filepath_Dir g Hwf (files1 ++ files2))
    as [Hid Hreg].
  assert (Hsplit : ∀ p, p ∈ ⋃ (affectedBy filepath_Dir g <$> files1 ++ files2) ↔
            p ∈ d1 ∨ p ∈ d2).
  { intros p. rewrite fmap_app, union_list_app_L, elem_of_union, Hd1, Hd2. done. }
  assert (∃ st, forRange (closeOver fuel g)
            (map_to_list (directlyAffected filepath_Dir g (files1 ++ files2)))
            ([], ∅) = Ok st) as [[d a] Hloop].
  { destruct (forRange_total (λ _, True) (closeOver fuel g)
      (map_to_list (directlyAffected filepath_Dir g (files1 ++ files2))) ([], ∅))
      as (st & Hst & _); [done| |eauto].
    intros [d a] [id p] Hin%elem_of_map_to_list _. unfold closeOver.
    assert (p ∈ d1 ∨ p ∈ d2) as Hp.
    { apply Hsplit. rewrite <- directlyAffected_dom.
      rewrite <- (Hid _ _ Hin). apply elem_of_dom; eauto. }
    assert (∃ (P : Package) deps, packageMap g !! p = Some P ∧
              dependents fuel g (PkgPath P) true = Ok deps)
      as (P & deps & HP & Hdeps) by (destruct Hp; auto).
    unfold deref. rewrite HP; simpl. rewrite Hdeps; simpl. eauto. }
  assert (AffectedPackages filepath_Dir fuel g (files1 ++ files2)
          = Ok (d, packageMapToArray a)) as H12.
  { unfold AffectedPackages. by rewrite Hloop. }
  exists d, (packageMapToArray a). split; [done|].
  destruct (AffectedPackages_Ok_inv filepath_Dir g Hwf _ _ _ _ H12)
    as (_ & _ & Hd12 & _).
  destruct (AffectedPackages_exact _ _ _ _ H12) as [_ Ht12].
  assert (Hd : ∀ p, p ∈ d ↔ p ∈ d1 ∨ p ∈ d2).
  { intros p. by rewrite Hd12, Hsplit. }
  split; [done|]. intros p. rewrite Ht12, Ht1, Ht2. setoid_rewrite Hd.
  naive_solver.
Qed.

End AffectedExact.

(** X13: on a graph that was built, when AffectedPackages returns, the
    transitive list holds the direct units and the units reached from them
    in one or more steps of the traversal, and nothing else. *)
Theorem AffectedPackages_transitive_exact Dir loaded g fuel files direct transitive :
  BuildDependencyGraph Dir loaded = Ok g →
  AffectedPackages Dir fuel g files = Ok (direct, transitive) →
  ∀ v, v ∈ transitive ↔
    v ∈ direct ∨ ∃ u, u ∈ direct ∧ tc (path_dependent g) u v.
Proof.
  intros Hwf%BuildDependencyGraph_wf HAP.
  by destruct (AffectedPackages_exact Dir g Hwf _ _ _ _ HAP).
Qed.

Lemma AffectedPackages_transitive_exact_witness :
  "A" ∈ ["C"; "A"; "B"] ↔
  "A" ∈ ["C"] ∨ ∃ u, u ∈ ["C"] ∧ tc (path_dependent chainGraph) u "A".
Proof.
  apply (AffectedPackages_transitive_exact dirname (inr [chainA; chainB; chainC])
           chainGraph 2 ["c/c.go"]).
  - reflexivity.
  - by vm_compute.
Defined.

(** X14: on a graph that was built, when AffectedPackages has returned for
    two lists of files, it returns for their concatenation, with the same
    budget, and marks as direct, respectively transitive, exactly the units
    that one of the two calls marked so. *)
Theorem AffectedPackages_union Dir loaded g fuel files1 files2 d1 t1 d2 t2 :
  BuildDependencyGraph Dir loaded = Ok g →
  AffectedPackages Dir fuel g files1 = Ok (d1, t1) →
  AffectedPackages Dir fuel g files2 = Ok (d2, t2) →
  ∃ d t, AffectedPackages Dir fuel g (files1 ++ files2) = Ok (d, t) ∧
    (∀ p, p ∈ d ↔ p ∈ d1 ∨ p ∈ d2) ∧
    (∀ p, p ∈ t ↔ p ∈ t1 ∨ p ∈ t2).
Proof.
  intros Hwf%BuildDependencyGraph_wf. by apply AffectedPackages_combine.
Qed.

Lemma AffectedPackages_union_witness :
  ∃ d t, AffectedPackages dirname 2 diamondGraph (["a/a.go"] ++ ["b/b.go"]) = Ok (d, t) ∧
    (∀ p, p ∈ d ↔ p ∈ ["A"] ∨ p ∈ ["B"]) ∧
    (∀ p, p ∈ t ↔ p ∈ ["C"; "A"] ∨ p ∈ ["C"; "B"]).
Proof.
  apply (AffectedPackages_union dirname
           (inr [diamondC; diamondA; diamondB; diamondD]) diamondGraph 2).
  - reflexivity.
  - by vm_compute.
  - by vm_compute.
Defined.

(** * ChangedPackages *)

Lemma wrapError_Ok {A} context (m : outcome A) a :
  wrapError context m = Ok a ↔ m = Ok a.
Proof. destruct m; simpl; naive_solver. Qed.

Lemma wrapError_safe {A} context (m : outcome A) :
  safe m → safe (wrapError context m).
Proof. by destruct m. Qed.

Section ChangedLemmas.
Variable filepath_Dir : string → string.
Variable g : DependencyGraph.
Hypothesis Hwf : wf_graph g.

Lemma recordDependents_Ok_inv fuel acc p acc' :
  recordDependents fuel g acc p = Ok acc' →
  ∃ (P : Package) m, packageMap g !! p = Some P ∧
    dependents fuel g (PkgPath P) true = Ok m ∧
    acc' = <[PkgPath P := packageMapToArray m]> acc.
Proof.
  unfold recordDependents.
  intros (P & HP%deref_Ok & (deps & Hdeps%wrapError_Ok & [= <-])%bind_Ok_inv)%bind_Ok_inv.
  unfold TransitiveDependents in Hdeps.
  apply bind_Ok_inv in Hdeps as (m & Hm & [= <-]). eauto.
Qed.

Lemma recordLoop_Ok_inv fuel direct cpDependencies :
  forRange (recordDependents fuel g) direct ∅ = Ok cpDependencies →
  (∀ k l, cpDependencies !! k = Some l →
     ∃ p (P : Package) m, p ∈ direct ∧ packageMap g !! p = Some P ∧
       PkgPath P = k ∧ dependents fuel g k true = Ok m ∧
       l = packageMapToArray m) ∧
  (∀ p, p ∈ direct →
     ∃ (P : Package) m, packageMap g !! p = Some P ∧
       dependents fuel g (PkgPath P) true = Ok m ∧
       cpDependencies !! PkgPath P = Some (packageMapToArray m)).
Proof.
  intros Hloop. split.
  - revert Hloop.
    apply (forRange_inv (λ acc : gmap string (list string), ∀ k l,
      acc !! k = Some l →
      ∃ p (P : Package) m, p ∈ direct ∧ packageMap g !! p = Some P ∧
        PkgPath P = k ∧ dependents fuel g k true = Ok m ∧
        l = packageMapToArray m)).
    { intros k l. by rewrite lookup_empty. }
    intros acc p acc1 Hp Hacc (P & m & HP & Hm & ->)%recordDependents_Ok_inv k l.
    intros [[<- <-]|[_ Hk]]%lookup_insert_Some; [|eauto].
    exists p, P, m. done.
  - revert Hloop.
    apply (forRange_each (λ p (acc : gmap string (list string)),
      ∃ (P : Package) m, packageMap g !! p = Some P ∧
        dependents fuel g (PkgPath P) true = Ok m ∧
        acc !! PkgPath P = Some (packageMapToArray m))).
    + intros acc p acc1 Hp (P & m & HP & Hm & ->)%recordDependents_Ok_inv.
      exists P, m. by rewrite lookup_insert_eq.
    + intros acc p q acc1 Hq (P & m & HP & Hm & Hacc)
        (Q & m' & HQ & Hm' & ->)%recordDependents_Ok_inv.
      exists P, m. split_and!; [done..|].
      destruct (decide (PkgPath Q = PkgPath P)) as [Heq|Hne].
      * rewrite Heq, lookup_insert_eq. rewrite Heq in Hm'. congruence.
      * by rewrite lookup_insert_ne.
Qed.

Lemma ChangedPackages_Ok_inv fuel gta diffDirs cp :
  dependencyGraph gta = g →
  Diff (differ gta) = Ok diffDirs →
  ChangedPackages filepath_Dir fuel gta = Ok cp →
  AffectedPackages filepath_Dir fuel g (diffFilePaths diffDirs)
    = Ok (Changes cp, AllChanges cp) ∧
  forRange (recordDependents fuel g) (Changes cp) ∅
    = Ok (Packages_Dependencies cp).
Proof.
  intros Hg Hdiff. unfold ChangedPackages. rewrite Hdiff, Hg; simpl.
  intros ([d t] & HAP%wrapError_Ok & (deps & Hloop & [= <-])%bind_Ok_inv)%bind_Ok_inv.
  done.
Qed.

Lemma ChangedPackages_safe fuel gta diffDirs :
  dependencyGraph gta = g →
  Diff (differ gta) = Ok diffDirs →
  safe (ChangedPackages filepath_Dir fuel gta).
Proof.
  intros Hg Hdiff. unfold ChangedPackages. rewrite Hdiff, Hg; simpl.
  apply bind_safe; [apply wrapError_safe, AffectedPackages_safe; done|].
  intros [d t] HAP%wrapError_Ok. simpl.
  apply bind_safe; [|done].
  destruct (AffectedPackages_Ok_inv filepath_Dir g Hwf _ _ _ _ HAP)
    as (_ & _ & _ & Hsub & Hreg & _).
  apply forRange_safe. intros acc p Hp. unfold recordDependents.
  destruct (Hreg p (Hsub p Hp)) as [P HP].
  apply bind_safe; [unfold deref; by rewrite HP|].
  intros P' HP'%deref_Ok. assert (P' = P) as -> by congruence.
  apply bind_safe; [|done]. apply wrapError_safe.
  unfold TransitiveDependents. apply bind_safe; [|done].
  apply dependents_safe; [done|].
  destruct (wf_path g Hwf _ _ HP) as (l & -> & _). eauto.
Qed.

Lemma ChangedPackages_fuel_mono fuel fuel' gta cp :
  fuel ≤ fuel' →
  ChangedPackages filepath_Dir fuel gta = Ok cp →
  ChangedPackages filepath_Dir fuel' gta = Ok cp.
Proof.
  intros Hle. unfold ChangedPackages.
  intros (diffDirs & -> & Hrest)%bind_Ok_inv; simpl.
  apply bind_Ok_inv in Hrest as ([d t] & HAP%wrapError_Ok & Hrest).
  rewrite (AffectedPackages_fuel_mono _ _ _ _ _ _ Hle HAP); simpl.
  apply bind_Ok_inv in Hrest as (deps & Hloop & [= <-]). simpl in *.
  rewrite (forRange_Ok_mono (recordDependents fuel (dependencyGraph gta))
             (recordDependents fuel' (dependencyGraph gta)) d ∅ deps); [done| |done].
  intros acc p acc1 _. unfold recordDependents.
  destruct (deref (dependencyGraph gta) p) as [P| | |]; simpl; try done.
  intros (l & Hl%wrapError_Ok & [= <-])%bind_Ok_inv.
  unfold TransitiveDependents in *.
  apply bind_Ok_inv in Hl as (m & Hm & [= <-]).
  by rewrite (dependents_fuel_mono _ _ _ _ _ _ Hle Hm).
Qed.

Lemma ChangedPackages_total rank fuel gta diffDirs :
  dependencyGraph gta = g →
  Diff (differ gta) = Ok diffDirs →
  ranked g rank →
  (∀ id (P : Package), packageMap g !! id = Some P → rank (PkgPath P) < fuel) →
  ∃ cp, ChangedPackages filepath_Dir fuel gta = Ok cp.
Proof.
  intros Hg Hdiff Hrank Hfuel. unfold ChangedPackages. rewrite Hdiff, Hg; simpl.
  destruct (AffectedPackages_total filepath_Dir g Hwf rank fuel
              (diffFilePaths diffDirs) Hrank Hfuel) as (d & t & HAP).
  rewrite HAP; simpl.
  destruct (AffectedPackages_Ok_inv filepath_Dir g Hwf _ _ _ _ HAP)
    as (_ & _ & _ & Hsub & Hreg & _).
  destruct (forRange_total (λ _, True) (recordDependents fuel g) d ∅)
    as (deps & -> & _); [done| |simpl; eauto].
  intros acc p Hp _. unfold recordDependents.
  destruct (Hreg p (Hsub p Hp)) as [P HP].
  unfold deref. rewrite HP; simpl. unfold TransitiveDependents.
  destruct (dependents_total g Hwf rank fuel (PkgPath P)) as (m & ->);
    [done| |eauto|simpl; eauto].
  destruct (wf_path g Hwf _ _ HP) as (l & -> & _). eauto.
Qed.

End ChangedLemmas.

(** X17: with a graph that was built, ChangedPackages wraps the error of
    the differ; when the differ succeeds it returns no error and
    dereferences no dangling pointer, whatever the budget; when it returns,
    Changes and AllChanges are the two lists of AffectedPackages on the
    files of the diff, the keys of Dependencies are the import paths of the
    units of Changes, every entry is what TransitiveDependents returns for
    its key, and AllChanges holds exactly the units of Changes and of the
    entries of Dependencies; under the acyclicity precondition it returns
    the same value for every budget that is large enough. *)
Theorem ChangedPackages_spec Dir loaded gta :
  BuildDependencyGraph Dir loaded = Ok (dependencyGraph gta) →
  (∀ fuel e, Diff (differ gta) = Err e →
     ChangedPackages Dir fuel gta = Err (ErrWrap "determining diff" e)) ∧
  (∀ diffDirs, Diff (differ gta) = Ok diffDirs →
     (∀ fuel, safe (ChangedPackages Dir fuel gta)) ∧
     (∀ fuel cp, ChangedPackages Dir fuel gta = Ok cp →
        AffectedPackages Dir fuel (dependencyGraph gta) (diffFilePaths diffDirs)
          = Ok (Changes cp, AllChanges cp) ∧
        (∀ k, k ∈ dom (Packages_Dependencies cp) ↔
              k ∈ pathsOf (dependencyGraph gta) (Changes cp)) ∧
        (∀ k l, Packages_Dependencies cp !! k = Some l →
           TransitiveDependents fuel (dependencyGraph gta) k = Ok l) ∧
        (∀ x, x ∈ AllChanges cp ↔
           x ∈ Changes cp ∨
           ∃ k l, Packages_Dependencies cp !! k = Some l ∧ x ∈ l)) ∧
     (acyclic (dependencyGraph gta) →
      ∃ fuel cp, ∀ n, fuel ≤ n → ChangedPackages Dir n gta = Ok cp)).
Proof.
  intros Hwf%BuildDependencyGraph_wf. set (g := dependencyGraph gta) in *.
  split.
  { intros fuel e He. unfold ChangedPackages. by rewrite He. }
  intros diffDirs Hdiff. split_and!.
  - intros fuel. by apply (ChangedPackages_safe Dir g Hwf fuel gta diffDirs).
  - intros fuel cp Hcp.
    destruct (ChangedPackages_Ok_inv Dir g fuel gta diffDirs cp eq_refl Hdiff Hcp)
      as [HAP Hloop].
    destruct (recordLoop_Ok_inv g _ _ _ Hloop) as [Hsound Hcomplete].
    destruct (AffectedPackages_exact Dir g Hwf _ _ _ _ HAP) as [_ Hexact].
    split_and!; [done| | |].
    + intros k. rewrite elem_of_dom, elem_of_pathsOf. split.
      * intros [l (p & P & m & Hp & HP & HPk & _)%Hsound]. eauto.
      * intros (p & P & Hp & HP & <-).
        destruct (Hcomplete p Hp) as (P' & m & HP' & _ & Hk).
        assert (P' = P) as -> by congruence. eauto.
    + intros k l (p & P & m & Hp & HP & HPk & Hm & ->)%Hsound.
      unfold TransitiveDependents. by rewrite Hm.
    + intros x. rewrite Hexact. split.
      * intros [?|(u & Hu & Htc)]; [by left|right].
        destruct (Hcomplete u Hu) as (P & m & HP & Hm & Hk).
        exists (PkgPath P), (packageMapToArray m). split; [done|].
        destruct (dependents_units g Hwf _ _ _ _ Hm) as [Hid _].
        unfold packageMapToArray. apply idmap_values; [done|].
        by apply (dependents_of_unit g Hwf fuel u P m x HP Hm).
      * intros [?|(k & l & (p & P & m & Hp & HP & <- & Hm & ->)%Hsound & Hx)];
          [by left|right].
        exists p. split; [done|].
        destruct (dependents_units g Hwf _ _ _ _ Hm) as [Hid _].
        unfold packageMapToArray in Hx. apply idmap_values in Hx; [|done].
        by apply (dependents_of_unit g Hwf fuel p P m x HP Hm).
  - intros [rank Hrank]. destruct (rank_bound g rank) as [N HN].
    destruct (ChangedPackages_total Dir g Hwf rank N gta diffDirs eq_refl Hdiff
                Hrank HN) as [cp Hcp].
    exists N, cp. intros n Hn. by apply (ChangedPackages_fuel_mono Dir N n).
Qed.

Lemma ChangedPackages_spec_witness :
  ∃ fuel cp, ∀ n, fuel ≤ n → ChangedPackages dirname n chainGTA = Ok cp.
Proof.
  destruct (ChangedPackages_spec dirname (inr [chainA; chainB; chainC]) chainGTA
              eq_refl) as [_ Hok].
  destruct (Hok _ eq_refl) as (_ & _ & Htotal).
  apply Htotal. exists chainRank. apply rankedb_sound. by vm_compute.
Defined.

(** * The helpers of the command *)

Lemma strings_Split_nonempty s sep : strings_Split s sep ≠ [].
Proof.
  destruct s as [|c s]; simpl; [done|].
  destruct (Ascii.eqb c sep); [done|]. by destruct (strings_Split s sep).
Qed.

Lemma strings_Split_Join s sep :
  strings_Join (strings_Split s sep) (String sep EmptyString) = s.
Proof.
  induction s as [|c s IH]; simpl; [done|].
  destruct (Ascii.eqb c sep) eqn:E.
  - apply Ascii.eqb_eq in E as ->.
    destruct (strings_Split s sep) as [|piece pieces] eqn:Es;
      [by destruct (strings_Split_nonempty s sep)|].
    simpl in *. by rewrite IH.
  - destruct (strings_Split s sep) as [|piece pieces] eqn:Es;
      [by destruct (strings_Split_nonempty s sep)|].
    destruct pieces; simpl in *; by rewrite <- IH.
Qed.

Lemma strings_Split_pieces s sep :
  Forall (λ piece, occurs sep piece = false) (strings_Split s sep).
Proof.
  induction s as [|c s IH]; simpl; [by repeat constructor|].
  destruct (Ascii.eqb c sep) eqn:E; [by constructor|].
  destruct (strings_Split s sep) as [|piece pieces];
    [by repeat constructor; simpl; rewrite E|].
  apply Forall_cons in IH as [Hp Hps]. constructor; [|done].
  simpl. by rewrite E, Hp.
Qed.

Section Parse.
Variable strings_TrimSpace : string → string.

Lemma parseStringSlice_filter strValue :
  parseStringSlice strings_TrimSpace strValue =
  filter (λ v, v ≠ EmptyString) (strings_TrimSpace <$> strings_Split strValue ",").
Proof.
  unfold parseStringSlice.
  assert (∀ l acc,
    foldl (λ values s,
             let v := strings_TrimSpace s in
             if String.eqb v EmptyString then values else values ++ [v]) acc l
    = acc ++ filter (λ v, v ≠ EmptyString) (strings_TrimSpace <$> l)) as H.
  { induction l as [|x l IH]; intros acc; [simpl; by rewrite app_nil_r|].
    cbn [foldl]. rewrite IH, fmap_cons, filter_cons.
    destruct (String.eqb_spec (strings_TrimSpace x) EmptyString) as [Heq|Hne].
    - by rewrite decide_False by (intros ?; done).
    - rewrite decide_True by done. by rewrite <- app_assoc. }
  apply (H _ []).
Qed.

(** X15: parseStringSlice returns, in their order, the trimmed pieces of
    its argument that are not empty: it never yields an empty entry, every
    entry is the trimmed form of a piece between two commas, the pieces
    hold no comma and joined by commas give back the argument; an argument
    all of whose pieces trim to nothing yields no entry. *)
Theorem parseStringSlice_spec strValue :
  parseStringSlice strings_TrimSpace strValue =
    filter (λ v, v ≠ EmptyString) (strings_TrimSpace <$> strings_Split strValue ",") ∧
  Forall (λ v, v ≠ EmptyString) (parseStringSlice strings_TrimSpace strValue) ∧
  (∀ v, v ∈ parseStringSlice strings_TrimSpace strValue ↔
     v ≠ EmptyString ∧
     ∃ piece, piece ∈ strings_Split strValue "," ∧ v = strings_TrimSpace piece) ∧
  Forall (λ piece, occurs "," piece = false) (strings_Split strValue ",") ∧
  strings_Join (strings_Split strValue ",") "," = strValue ∧
  (Forall (λ piece, strings_TrimSpace piece = EmptyString)
          (strings_Split strValue ",") →
   parseStringSlice strings_TrimSpace strValue = []).
Proof.
  rewrite parseStringSlice_filter. split_and!.
  - done.
  - apply Forall_forall. by intros v [? _]%list_elem_of_filter.
  - intros v. rewrite list_elem_of_filter, list_elem_of_fmap. naive_solver.
  - apply strings_Split_pieces.
  - apply strings_Split_Join.
  - intros Hblank. induction Hblank as [|piece pieces Hp _ IH]; [done|].
    rewrite fmap_cons, filter_cons, decide_False by (rewrite Hp; auto). done.
Qed.

End Parse.

Section ChangedFiles.
Variable strings_TrimSpace : string → string.
Variable filepath_IsAbs : string → bool.

Lemma compact_loop k : ∀ i sl n,
  length sl = i + k → n ≤ i →
  (forallb filepath_IsAbs (filter (λ s, keepChangedFile strings_TrimSpace s = true) (drop i sl)) = true →
   ∃ sl', forRange (compactStep strings_TrimSpace filepath_IsAbs) (seq i k) (sl, n)
          = Ok (sl', n + length (filter (λ s, keepChangedFile strings_TrimSpace s = true) (drop i sl))) ∧
     take (n + length (filter (λ s, keepChangedFile strings_TrimSpace s = true) (drop i sl))) sl'
     = take n sl ++ filter (λ s, keepChangedFile strings_TrimSpace s = true) (drop i sl)) ∧
  (forallb filepath_IsAbs (filter (λ s, keepChangedFile strings_TrimSpace s = true) (drop i sl)) = false →
   forRange (compactStep strings_TrimSpace filepath_IsAbs) (seq i k) (sl, n)
   = Err (ErrExternal "all changed files paths must be absolute paths")).
Proof.
  induction k as [|k IH]; intros i sl n Hlen Hn.
  - rewrite drop_ge by lia. simpl. split; [|done]. intros _.
    exists sl. by rewrite Nat.add_0_r, app_nil_r.
  - destruct (lookup_lt_is_Some_2 sl i) as [s Hs]; [lia|].
    rewrite (drop_S _ _ _ Hs), filter_cons. cbn [seq forRange].
    destruct (keepChangedFile strings_TrimSpace s) eqn:Ekeep.
    + rewrite decide_True by done. cbn [forallb length].
      destruct (filepath_IsAbs s) eqn:Eabs; cbn [andb].
      * assert (compactStep strings_TrimSpace filepath_IsAbs (sl, n) i
                = Ok (<[n := s]> sl, S n)) as ->.
        { unfold compactStep. by rewrite Hs, Ekeep, Eabs. }
        cbn [bind].
        assert (n < length sl) as Hnlt by lia.
        destruct (IH (S i) (<[n := s]> sl) (S n)) as [Hok Herr];
          [rewrite length_insert; lia|lia|].
        rewrite drop_insert_lt in Hok, Herr by lia.
        split; [|exact Herr]. intros Hall.
        destruct (Hok Hall) as (sl' & Hrun & Htake).
        exists sl'. rewrite Nat.add_succ_r, <- Nat.add_succ_l. split; [done|].
        rewrite Htake. rewrite (take_S_r _ _ s) by by rewrite list_lookup_insert_eq.
        rewrite take_insert_ge by lia. by rewrite <- app_assoc.
      * assert (compactStep strings_TrimSpace filepath_IsAbs (sl, n) i
                = Err (ErrExternal "all changed files paths must be absolute paths"))
          as ->.
        { unfold compactStep. by rewrite Hs, Ekeep, Eabs. }
        split; [done|done].
    + rewrite decide_False by congruence.
      assert (compactStep strings_TrimSpace filepath_IsAbs (sl, n) i = Ok (sl, n))
        as ->.
      { unfold compactStep. by rewrite Hs, Ekeep. }
      cbn [bind]. apply IH; lia.
Qed.

(** X16: changedFiles passes on the error of reading the file; otherwise,
    with the kept lines being those that do not trim to nothing, it returns
    exactly the kept lines, in order and untrimmed, when all of them are
    absolute paths, and the error about absolute paths when one of them is
    not: compacting the slice in place loses and repeats no line. *)
Theorem changedFiles_spec content :
  let lines := strings_Split content LF in
  let kept := filter (λ s, keepChangedFile strings_TrimSpace s = true) lines in
  (forallb filepath_IsAbs kept = true →
   changedFiles strings_TrimSpace filepath_IsAbs (Ok content) = Ok kept) ∧
  (forallb filepath_IsAbs kept = false →
   changedFiles strings_TrimSpace filepath_IsAbs (Ok content)
   = Err (ErrExternal "all changed files paths must be absolute paths")) ∧
  (∀ e, changedFiles strings_TrimSpace filepath_IsAbs (Err e) = Err e).
Proof.
  intros lines kept. unfold changedFiles; simpl. fold lines.
  destruct (compact_loop (length lines) 0 lines 0) as [Hok Herr]; [done..|].
  rewrite drop_0 in Hok, Herr. fold kept in Hok, Herr.
  split_and!; [| |done].
  - intros Hall. destruct (Hok Hall) as (sl' & -> & Htake). simpl in *.
    by rewrite Htake.
  - intros Hbad. by rewrite (Herr Hbad).
Qed.

End ChangedFiles.


Lemma parseStringSlice_spec_witness :
  parseStringSlice trimASCII " , ," = [].
Proof.
  apply (parseStringSlice_spec trimASCII " , ,"). by repeat constructor.
Defined.

Lemma changedFiles_spec_witness :
  changedFiles trimASCII slashIsAbs
    (Ok ("/src/a.go" +:+ String LF ("  " +:+ String LF "/src/b.go ")))
  = Ok ["/src/a.go"; "/src/b.go "].
Proof.
  apply (changedFiles_spec trimASCII slashIsAbs
           ("/src/a.go" +:+ String LF ("  " +:+ String LF "/src/b.go "))).
  reflexivity.
Defined.

(** * The path index *)

Section PathIndex.
Variable filepath_Dir : string → string.

Lemma registerPackage_nodup pkg dg :
  wf_graph dg → packageMap dg !! ID pkg = None →
  paths_nodup dg → paths_nodup (registerPackage filepath_Dir pkg dg).
Proof.
  intros Hwf Hfresh Hnd path l. unfold registerPackage.
  match goal with |- context [foldl _ ?dg1 _] => set (d1 := dg1) end.
  destruct (registerFiles_index filepath_Dir (ID pkg) (allFiles pkg) d1)
    as (_ & -> & _). simpl.
  intros [[<- <-]|[_ Hl]]%lookup_insert_Some; [|eauto].
  destruct (packagePathMap dg !! PkgPath pkg) as [l0|] eqn:El; simpl.
  - apply NoDup_app. split_and!; [eauto| |apply NoDup_singleton].
    intros id Hin ->%list_elem_of_singleton.
    destruct (wf_variants dg Hwf _ _ _ El Hin) as (P & HP & _). congruence.
  - apply NoDup_singleton.
Qed.

Lemma importLoop_nodup new imports :
  Forall (addPackage_nodup filepath_Dir) imports →
  ∀ dg, wf_graph dg → registered dg new → paths_nodup dg →
    paths_nodup (importLoop filepath_Dir new imports dg).
Proof.
  induction 1 as [|imp imports Himp _ IH]; intros dg Hwf Hnew Hnd; simpl; [done|].
  pose proof (Himp dg Hwf Hnd) as Hnd1.
  destruct (addPackage_wf filepath_Dir imp dg Hwf) as (Hwf1 & Hret & Hreg & Hmono).
  destruct (addPackage filepath_Dir imp dg) as [dg1 dependency];
    simpl in *; subst dependency.
  apply IH.
  - apply link_wf; auto.
  - apply link_registered; auto.
  - done.
Qed.

Lemma addPackage_keeps_nodup pkg : addPackage_nodup filepath_Dir pkg.
Proof.
  induction pkg as [pkg IH] using packages_Package_nested_ind.
  intros dg Hwf Hnd. rewrite addPackage_unfold.
  destruct (packageMap dg !! ID pkg) as [P|] eqn:E; simpl; [done|].
  destruct (registerPackage_packageMap filepath_Dir pkg dg Hwf E) as [Hpm Hwf1].
  apply importLoop_nodup; [done|done| |by apply registerPackage_nodup].
  unfold registered. rewrite Hpm, lookup_insert_eq. eauto.
Qed.

Lemma buildGraph_nodup pkgs : paths_nodup (buildGraph filepath_Dir pkgs).
Proof.
  unfold buildGraph.
  assert (∀ dg, wf_graph dg → paths_nodup dg →
    paths_nodup (foldl (λ dg pkg, (addPackage filepath_Dir pkg dg).1) dg pkgs)) as H.
  { induction pkgs as [|pkg pkgs IH]; intros dg Hwf Hnd; simpl; [done|].
    apply IH; [apply addPackage_wf, Hwf|by apply addPackage_keeps_nodup]. }
  apply H; [apply wf_emptyGraph|]. intros path l. simpl. by rewrite lookup_empty.
Qed.

End PathIndex.

(** X18: after BuildDependencyGraph the list the path index holds for an
    import path is not empty, has no repetition and holds exactly the
    registered units with that path; the index has no entry for a path
    exactly when no registered unit carries it. *)
Theorem path_index_exact Dir loaded g pkgPath :
  BuildDependencyGraph Dir loaded = Ok g →
  (∀ pkgs, packagePathMap g !! pkgPath = Some pkgs →
     pkgs ≠ [] ∧ NoDup pkgs ∧
     ∀ id, id ∈ pkgs ↔
       ∃ P : Package, packageMap g !! id = Some P ∧ PkgPath P = pkgPath) ∧
  (packagePathMap g !! pkgPath = None ↔
   ∀ id (P : Package), packageMap g !! id = Some P → PkgPath P ≠ pkgPath).
Proof.
  intros (loadedPackages & -> & ->)%BuildDependencyGraph_Ok_inv.
  pose proof (buildGraph_wf Dir loadedPackages) as Hwf.
  pose proof (buildGraph_nodup Dir loadedPackages) as Hnd.
  split; [|by apply unknown_path_iff].
  intros pkgs Hp. split_and!.
  - by apply (wf_nonempty _ Hwf pkgPath).
  - by apply (Hnd pkgPath).
  - intros id. split; [by apply (wf_variants _ Hwf)|].
    intros (P & HP & <-).
    destruct (wf_path _ Hwf _ _ HP) as (l & Hl & Hin). congruence.
Qed.

Lemma path_index_exact_witness :
  ["D"] ≠ [] ∧ NoDup ["D"] ∧
  ∀ id, id ∈ ["D"] ↔
    ∃ P : Package, packageMap diamondGraph !! id = Some P ∧ PkgPath P = "d".
Proof.
  apply (path_index_exact dirname (inr [diamondC; diamondA; diamondB; diamondD])
           diamondGraph "d"); reflexivity.
Defined.

(** * The cost of a transitive query *)

Lemma Forall2_lengths {A} (Q : A → list string → Prop) l ts :
  Forall2 Q l ts →
  ∃ counts, length (concat ts) = sum_list counts ∧
    Forall2 (λ d c, ∃ t, Q d t ∧ c = length t) l counts.
Proof.
  induction 1 as [|d t l ts Hd _ (counts & Hsum & Hall)]; simpl.
  - exists []. split; [done|constructor].
  - exists (length t :: counts). rewrite length_app, Hsum. split; [done|].
    constructor; [eauto|done].
Qed.

(** X19: a transitive dependents query that returns has entered the
    traversal once for its own path and then as often as the nested
    queries of all dependents of the units registered under the path
    together, each nested query at least once: the number of expansions is
    one more than the sum over all dependent edges, met before or not, and
    so at least one more than the number of these edges. *)
Theorem dependents_expansions g fuel pkgPath m trace :
  dependentsT fuel g pkgPath true = Ok (m, trace) →
  dependents fuel g pkgPath true = Ok m ∧
  ∃ pkgs counts,
    packagePathMap g !! pkgPath = Some pkgs ∧
    length trace = 1 + sum_list counts ∧
    Forall2 (λ d c, ∃ (D : Package) fuel' m' t,
               fuel = S fuel' ∧ packageMap g !! d = Some D ∧
               dependentsT fuel' g (PkgPath D) true = Ok (m', t) ∧
               c = length t ∧ 1 ≤ c)
            (dependentsOf g pkgs) counts ∧
    1 + length (dependentsOf g pkgs) ≤ length trace.
Proof.
  intros Hcall. split; [by eapply dependentsT_Ok|].
  destruct (dependentsT_trace _ _ _ _ _ Hcall) as (pkgs & subtraces & Hp & -> & Hall).
  destruct (Forall2_lengths _ _ _ Hall) as (counts & Hsum & Hcounts).
  assert (Forall2 (λ d c, ∃ (D : Package) fuel' m' t,
            fuel = S fuel' ∧ packageMap g !! d = Some D ∧
            dependentsT fuel' g (PkgPath D) true = Ok (m', t) ∧
            c = length t ∧ 1 ≤ c) (dependentsOf g pkgs) counts) as Hcounts'.
  { eapply Forall2_impl; [exact Hcounts|].
    intros d c (t & (D & fuel' & m' & Hf & HD & Ht) & ->).
    exists D, fuel', m', t. split_and!; [done..|].
    destruct (dependentsT_trace _ _ _ _ _ Ht) as (? & ? & _ & -> & _). simpl. lia. }
  exists pkgs, counts. split_and!; [done|by simpl; rewrite Hsum|done|].
  simpl. rewrite Hsum. apply le_n_S.
  clear -Hcounts'. induction Hcounts' as [|d c l cs (? & ? & ? & ? & _ & _ & _ & _ & Hc) _ IH];
    simpl; lia.
Qed.

Lemma dependents_expansions_witness :
  ∃ m, dependents 2 diamondGraph "d" true = Ok m ∧
  ∃ pkgs counts,
    packageMap diamondGraph !! "D" ≠ None ∧
    packagePathMap diamondGraph !! "d" = Some pkgs ∧
    5 = 1 + sum_list counts.
Proof.
  destruct (dependents_expansions diamondGraph 2 "d"
              ({[ "A" := "A"; "B" := "B"; "C" := "C" ]}) ["d"; "a"; "c"; "b"; "c"])
    as (Hm & pkgs & counts & Hp & Hlen & _); [by vm_compute|].
  eexists. split; [exact Hm|]. exists pkgs, counts. split_and!; [by vm_compute|done..].
Defined.

(** * Acyclicity on units and on import paths *)

Lemma unit_rankedb_sound g rank : unit_rankedb g rank = true → unit_ranked g rank.
Proof.
  unfold unit_rankedb. rewrite forallb_forall.
  intros Hall u U k v HU Hk.
  specialize (Hall (u, U)). simpl in Hall. rewrite forallb_forall in Hall.
  assert (In (u, U) (map_to_list (packageMap g))) as Hin.
  { apply list_elem_of_In. by apply elem_of_map_to_list. }
  assert (In v (values (Dependents U))) as Hv.
  { apply list_elem_of_In, elem_of_values. eauto. }
  by apply Nat.ltb_lt, (Hall Hin v Hv).
Qed.

(** Where no two units share an import path, a rank on units gives a rank
    on import paths. *)
Lemma unit_acyclic_unique_paths g :
  wf_graph g → unit_acyclic g →
  (∀ u u', same_path g u u' → u = u') → acyclic g.
Proof.
  intros Hwf [rank Hrank] Huniq.
  exists (λ path, match packagePathMap g !! path with
                  | Some (u :: _) => rank u
                  | _ => 0
                  end).
  assert (Hhead : ∀ v (V : Package), packageMap g !! v = Some V →
            match packagePathMap g !! PkgPath V with
            | Some (u :: _) => rank u
            | _ => 0
            end = rank v).
  { intros v V HV. destruct (wf_path g Hwf _ _ HV) as (l & Hl & Hin).
    rewrite Hl. destruct l as [|u0 l]; [by apply elem_of_nil in Hin|].
    destruct (wf_variants g Hwf _ _ u0 Hl) as (U0 & HU0 & HU0p); [by left|].
    f_equal. apply Huniq. by exists U0, V. }
  intros u U k v V HU Hk HV. rewrite (Hhead v V HV), (Hhead u U HU).
  by apply (Hrank u U k v).
Qed.

Lemma variantGraph_built :
  BuildDependencyGraph dirname (inr [variantA; variantC]) = Ok variantGraph.
Proof. reflexivity. Qed.

Lemma variantGraph_unit_acyclic : unit_acyclic variantGraph.
Proof. exists variantRank. apply unit_rankedb_sound. by vm_compute. Qed.

(** The traversal on the shared path enters itself again through the
    dependent of the second unit, whatever the budget. *)
Lemma variantGraph_dependents fuel :
  dependents fuel variantGraph "a" true = OutOfFuel.
Proof.
  assert (Hp : packagePathMap variantGraph !! "a" = Some ["A"; "C"]) by by vm_compute.
  assert (HA : ∃ PA : Package, packageMap variantGraph !! "A" = Some PA ∧
            values (Dependents PA) = [] ∧ PkgPath PA = "a" ∧ ID PA = "A").
  { eexists. split; [by vm_compute|]. by vm_compute. }
  assert (HC : ∃ PC : Package, packageMap variantGraph !! "C" = Some PC ∧
            values (Dependents PC) = ["A"]).
  { eexists. split; [by vm_compute|]. by vm_compute. }
  destruct HA as (PA & HA & HAd & HAp & HAi), HC as (PC & HC & HCd).
  induction fuel as [|fuel IH]; rewrite dependents_unfold, Hp;
    cbn [forRange]; unfold deref; rewrite HA, HC; cbn [bind];
    rewrite HAd, HCd; cbn [forRange bind];
    unfold visitDependent, deref; rewrite HA; cbn [bind negb]; [done|].
  by rewrite HAp, IH.
Qed.

Lemma variantGraph_never_returns fuel :
  AffectedPackages dirname fuel variantGraph ["a/c.go"] = OutOfFuel.
Proof.
  unfold AffectedPackages.
  assert (map_to_list (directlyAffected dirname variantGraph ["a/c.go"])
          = [("C", "C")]) as -> by by vm_compute.
  assert (∃ PC : Package, deref variantGraph "C" = Ok PC ∧ PkgPath PC = "a")
    as (PC & HC & HCp).
  { eexists. split; by vm_compute. }
  cbn [forRange]. unfold closeOver. rewrite HC. cbn [bind].
  by rewrite HCp, variantGraph_dependents.
Qed.


(** A rank on import paths gives a rank on units. *)
Lemma acyclic_unit_acyclic g : wf_graph g → acyclic g → unit_acyclic g.
Proof.
  intros Hwf [rank Hrank].
  exists (λ u, match packageMap g !! u with
               | Some U => rank (PkgPath (embedded U))
               | None => 0
               end).
  intros u U k v HU Hk.
  destruct (wf_Dependents g Hwf _ _ _ _ HU Hk) as [_ [V HV]].
  rewrite HU, HV. by apply (Hrank u U k v V).
Qed.



(** * The stated properties of the result assembler *)



Lemma pathSet_standIn (paths : list string) :
  pathSet (standIn <$> paths) = list_to_set paths.
Proof.
  unfold pathSet. f_equal. rewrite <- list_fmap_compose.
  induction paths as [|x paths IH]; simpl; [done|]. by f_equal.
Qed.

Lemma pathSet_decoded pkgs :
  pathSet (standIn <$> UniquePackagePaths pkgs) = normalizedSet pkgs.
Proof.
  rewrite pathSet_standIn. unfold normalizedSet. apply set_eq. intros x.
  rewrite !elem_of_list_to_set, elem_of_UniquePackagePaths, list_elem_of_fmap.
  naive_solver.
Qed.

Lemma normalizedSet_plain pkgs :
  Forall (λ pkg : Package, suffixed (PkgPath pkg) = false) pkgs →
  normalizedSet pkgs = pathSet pkgs.
Proof.
  intros Hplain. unfold normalizedSet, pathSet. f_equal.
  apply Forall_fmap_ext. eapply Forall_impl; [exact Hplain|].
  intros pkg Hp. simpl. by apply normalizedPath_unsuffixed.
Qed.

(** C8, as stated, fails: a value whose Changes hold a unit and its
    internal-test variant is encoded with the one folded path, and the
    decoded value no longer has the path of the variant. *)
Lemma roundtrip_folds_paths :
  ¬ roundtrip_keeps_paths doc_Marshal doc_Unmarshal variantPackages.
Proof.
  intros (b & q & Henc & Hdec & Hchanges & _).
  vm_compute in Henc. injection Henc as <-.
  vm_compute in Hdec. injection Hdec as <-.
  assert ("lib_test" ∈ pathSet (Changes variantPackages)) as Hin by by vm_compute.
  rewrite <- Hchanges in Hin. by vm_compute in Hin.
Qed.

(** C8, amended: for every Packages value, encoding it with MarshalJSON and
    decoding the bytes with UnmarshalJSON into a fresh value, with a codec
    that reads back the wire form it wrote, gives path-only stand-in units
    carrying no file or edge data whose import paths are, in changes, in
    all_changes and under every key of dependencies whose list is not
    empty, the set of the import paths of the original after the folding
    of the test suffixes; the decoded dependencies have no key and no path
    that the original does not give rise to; where no path of the original
    carries a test suffix the sets are those of the original. *)
Theorem roundtrip_paths {bytes} (json_Marshal : packagesJSON → outcome bytes)
    (json_Unmarshal : bytes → outcome (option packagesJSON)) p b :
  MarshalJSON json_Marshal p = Ok b →
  json_Unmarshal b = Ok (Some (wireForm p)) →
  ∃ q, UnmarshalJSON json_Unmarshal newPackages b = Ok q ∧
    (pathSet (Changes q) = normalizedSet (Changes p) ∧
     pathSet (AllChanges q) = normalizedSet (AllChanges p) ∧
     (∀ k l, Packages_Dependencies p !! k = Some l → l ≠ [] →
        ∃ l', Packages_Dependencies q !! k = Some l' ∧
          pathSet l' = normalizedSet l) ∧
     (∀ k l', Packages_Dependencies q !! k = Some l' →
        ∃ l, Packages_Dependencies p !! k = Some l ∧
          pathSet l' = normalizedSet l)) ∧
    (Forall (λ u : Package, u = standIn (PkgPath u)) (Changes q) ∧
     Forall (λ u : Package, u = standIn (PkgPath u)) (AllChanges q) ∧
     ∀ k l', Packages_Dependencies q !! k = Some l' →
       Forall (λ u : Package, u = standIn (PkgPath u)) l') ∧
    (Forall (λ pkg : Package, suffixed (PkgPath pkg) = false) (Changes p) →
     pathSet (Changes q) = pathSet (Changes p)) ∧
    (Forall (λ pkg : Package, suffixed (PkgPath pkg) = false) (AllChanges p) →
     pathSet (AllChanges q) = pathSet (AllChanges p)) ∧
    (∀ k l, Packages_Dependencies p !! k = Some l → l ≠ [] →
       Forall (λ pkg : Package, suffixed (PkgPath pkg) = false) l →
       ∃ l', Packages_Dependencies q !! k = Some l' ∧ pathSet l' = pathSet l).
Proof.
  intros Henc Hdec. eexists.
  split; [by apply (roundtrip_decoded json_Marshal)|]. simpl.
  assert (Hstand : ∀ paths : list string,
            Forall (λ u : Package, u = standIn (PkgPath u)) (standIn <$> paths)).
  { intros paths. apply Forall_fmap, Forall_forall. done. }
  assert (Hdeps : ∀ k l, Packages_Dependencies p !! k = Some l → l ≠ [] →
            decodeDependencies (mapify (Packages_Dependencies p)) !! k
            = Some (standIn <$> UniquePackagePaths l)).
  { intros k l Hk Hne. rewrite decoded_dependencies_lookup, Hk. by destruct l. }
  assert (Hback : ∀ k l',
            decodeDependencies (mapify (Packages_Dependencies p)) !! k = Some l' →
            ∃ l, Packages_Dependencies p !! k = Some l ∧
              l' = standIn <$> UniquePackagePaths l).
  { intros k l'. rewrite decoded_dependencies_lookup.
    destruct (Packages_Dependencies p !! k) as [[|x l]|]; [done| |done].
    intros [= <-]. eauto. }
  split_and!.
  - apply pathSet_decoded.
  - apply pathSet_decoded.
  - intros k l Hk Hne. eexists. split; [by apply Hdeps|]. apply pathSet_decoded.
  - intros k l' (l & Hk & ->)%Hback. exists l. split; [done|]. apply pathSet_decoded.
  - apply Hstand.
  - apply Hstand.
  - intros k l' (l & Hk & ->)%Hback. apply Hstand.
  - intros Hplain. by rewrite pathSet_decoded, normalizedSet_plain.
  - intros Hplain. by rewrite pathSet_decoded, normalizedSet_plain.
  - intros k l Hk Hne Hplain. eexists. split; [by apply Hdeps|].
    by rewrite pathSet_decoded, normalizedSet_plain.
Qed.

Lemma roundtrip_paths_witness :
  ∃ q, UnmarshalJSON doc_Unmarshal newPackages variantDoc = Ok q ∧
    pathSet (Changes q) = {[ "lib" ]} ∧
    pathSet (AllChanges q) = {[ "app"; "lib" ]}.
Proof.
  destruct (roundtrip_paths doc_Marshal doc_Unmarshal variantPackages variantDoc)
    as (q & Hq & (Hc & Ha & _) & _); [by vm_compute..|].
  exists q. split; [done|]. rewrite Hc, Ha. split; by vm_compute.
Defined.
